(** * NoviMor effects engine: a shallow embedding of the frame effects,
      the .cube LUT parser, the trilinear LUT interpolator and the chain
      executors of [add_image_effects.py] and [add_video_effects.py].

    Conventions of the embedding.
    - A frame is the [h x w x 3] uint8 array the engines work on: a list of
      rows, each a list of pixels, each pixel three channel values in [Z].
      The uint8 range is the predicate [uint8_frame]; casts write their
      wrap-around out.
    - Decimal literals of the source (1.3, 0.5, ...) are the rationals they
      denote; arithmetic on them is exact ([Q]).
    - Python's [random] and NumPy's generator are an explicit tape of draws
      threaded through the effects that sample, together with the lines
      printed.
    - Exceptions are the [Raise] results of a small state-and-error monad.
    - The text of a .cube file is the list of its lines, each a Python
      [str] given by the code points of its characters. *)

From Stdlib Require Import ZArith QArith Qround String Ascii List Bool Lia Lqa.
Import ListNotations.

Local Open Scope Z_scope.

(** ** Python and NumPy primitives *)

Module Py.

(** [d.get(k, default)] on a dict with string keys, written as the
    association list of the literal. *)
Fixpoint dict_get {V : Type} (d : list (string * V)) (k : string) (default : V) : V :=
  match d with
  | [] => default
  | (k', v) :: d' => if String.eqb k k' then v else dict_get d' k default
  end.

(** [d[k]] guarded by [k in d]: [None] when the key is absent. *)
Fixpoint dict_lookup {V : Type} (d : list (string * V)) (k : string) : option V :=
  match d with
  | [] => None
  | (k', v) :: d' => if String.eqb k k' then Some v else dict_lookup d' k
  end.

(** [np.roll(a, shift)] along one axis of length [n]: NumPy reduces the
    shift modulo [n or 1] and writes [a[:-o]] to [result[o:]] and [a[-o:]]
    to [result[:o]]. *)
Definition roll {A : Type} (shift : Z) (a : list A) : list A :=
  let n := Z.of_nat (length a) in
  let o := shift mod (if n =? 0 then 1 else n) in
  skipn (Z.to_nat (n - o)) a ++ firstn (Z.to_nat (n - o)) a.

(** [np.roll(a, shift, axis=1)] on a two-dimensional array. *)
Definition roll_axis1 {A : Type} (shift : Z) (a : list (list A)) : list (list A) :=
  map (roll shift) a.

(** [x.astype('uint8')] on an integer array: the value modulo 256. *)
Definition astype_uint8 (v : Z) : Z := v mod 256.

(** [int(x)] on a float, also the C cast of a float to an integer:
    truncation toward zero. *)
Definition trunc (x : Q) : Z := Z.quot (Qnum x) (Zpos (Qden x)).

(** [x.astype('uint8')] on a float array: NumPy truncates toward zero; a
    value outside 0..255 has no defined result in C, and the usual one,
    kept here, is the truncated integer modulo 256. *)
Definition float_astype_uint8 (x : Q) : Z := astype_uint8 (trunc x).

(** Comparisons of floats as booleans. *)
Definition Qltb (x y : Q) : bool := negb (Qle_bool y x).

(** [np.clip(x, lo, hi)], that is [minimum(maximum(x, lo), hi)]. *)
Definition clip (x lo hi : Q) : Q :=
  let m := if Qltb x lo then lo else x in
  if Qltb hi m then hi else m.

(** A slice bound [i] of a sequence of length [n], as Python normalises
    it: negative bounds count from the end, and all bounds are clamped. *)
Definition slice_bound (n i : Z) : nat :=
  Z.to_nat (if i <? 0 then Z.max (n + i) 0 else Z.min i n).

(** [a[start:stop] = v] on one axis: every element of the slice takes the
    value [v]. *)
Definition fill_slice {A : Type} (a : list A) (start stop : nat) (v : A) : list A :=
  if (start <? stop)%nat
  then firstn start a ++ repeat v (stop - start) ++ skipn stop a
  else a.

(** [a[start:stop]] and the assignment [a[start:stop] = b] of a block of
    the same length. *)
Definition get_slice {A : Type} (a : list A) (start stop : nat) : list A :=
  firstn (stop - start) (skipn start a).

Definition set_slice {A : Type} (a : list A) (start stop : nat) (b : list A) : list A :=
  if (start <? stop)%nat
  then firstn start a ++ b ++ skipn stop a
  else a.

(** [enumerate]: the elements with their indices. *)
Fixpoint imap_from {A B : Type} (i : nat) (f : nat -> A -> B) (l : list A) : list B :=
  match l with
  | [] => []
  | x :: l' => f i x :: imap_from (S i) f l'
  end.

Definition imap {A B : Type} (f : nat -> A -> B) (l : list A) : list B :=
  imap_from 0 f l.

End Py.

(** ** Exceptions, the random source, and the monad of the effects *)

Inductive exn : Type :=
| ValueError (msg : string)
| TypeError (msg : string)
| FileNotFoundError (path : string)
| ZeroDivisionError.

Inductive result (A : Type) : Type :=
| Ok (a : A)
| Raise (e : exn).
Arguments Ok {A} a.
Arguments Raise {A} e.

(** The state the engines run in: the random source (a tape of uniform
    draws in [0, 1) and the number of draws taken so far) and the lines
    printed so far. *)
Record state : Type := mkState {
  tape : nat -> Q;
  pos : nat;
  stdout : list string
}.

(** A computation that may sample, print and raise. *)
Definition M (A : Type) : Type := state -> result (A * state).

Definition ret {A : Type} (a : A) : M A := fun g => Ok (a, g).

Definition bind {A B : Type} (m : M A) (k : A -> M B) : M B :=
  fun g =>
    match m g with
    | Ok (a, g') => k a g'
    | Raise e => Raise e
    end.

Definition raise {A : Type} (e : exn) : M A := fun _ => Raise e.

(** [print(line)] *)
Definition print_line (line : string) : M unit :=
  fun g => Ok (tt, mkState (tape g) (pos g) (stdout g ++ [line])).

Declare Scope eff_scope.
Delimit Scope eff_scope with eff.
Notation "x <- m ;; k" := (bind m (fun x => k))
  (at level 61, m at next level, right associativity) : eff_scope.

Module Random.

(** One uniform draw. *)
Definition draw : M Q :=
  fun g => Ok (tape g (pos g), mkState (tape g) (S (pos g)) (stdout g)).

(** [random.random()] *)
Definition random : M Q := draw.

(** [random.randint(a, b)]: an integer [N] with [a <= N <= b]; an empty
    range is a ValueError. *)
Definition randint (a b : Z) : M Z :=
  if b <? a then raise (ValueError "empty range for randrange()")
  else (u <- draw ;; ret (a + Qfloor (u * inject_Z (b - a + 1))))%eff.

(** One element of [np.random.randint(low, high, shape)]: an integer [N]
    with [low <= N < high]. *)
Definition np_randint (low high : Z) : M Z :=
  if high <=? low then raise (ValueError "low >= high")
  else (u <- draw ;; ret (low + Qfloor (u * inject_Z (high - low))))%eff.

End Random.

(** Monadic traversal of a list, left to right. *)
Fixpoint mapM {A B : Type} (f : A -> M B) (l : list A) : M (list B) :=
  match l with
  | [] => ret []
  | x :: l' => (y <- f x ;; ys <- mapM f l' ;; ret (y :: ys))%eff
  end.

(** ** Frames *)

Record pixel : Type := mkPixel { red : Z; green : Z; blue : Z }.

Definition frame : Type := list (list pixel).

(** [frame[:, :, c]] *)
Definition channel (c : pixel -> Z) (f : frame) : list (list Z) :=
  map (map c) f.

Definition uint8 (v : Z) : Prop := 0 <= v < 256.

Definition uint8_pixel (p : pixel) : Prop :=
  uint8 (red p) /\ uint8 (green p) /\ uint8 (blue p).

Definition uint8_frame (f : frame) : Prop :=
  Forall (Forall uint8_pixel) f.

(** The array has [h] rows of [w] elements. *)
Definition has_shape {A : Type} (h w : nat) (f : list (list A)) : Prop :=
  length f = h /\ Forall (fun row => length row = w) f.

(** [frame.shape[0]] and [frame.shape[1]] (also [img.size = (w, h)]). *)
Definition height (f : frame) : Z := Z.of_nat (length f).
Definition width (f : frame) : Z :=
  match f with
  | [] => 0
  | row :: _ => Z.of_nat (length row)
  end.

(** [np.stack([r, g, b], axis=-1)] on three arrays of one shape. *)
Fixpoint stack_row (r g b : list Z) : list pixel :=
  match r, g, b with
  | x :: r', y :: g', z :: b' => mkPixel x y z :: stack_row r' g' b'
  | _, _, _ => []
  end.

Fixpoint stack3 (r g b : list (list Z)) : frame :=
  match r, g, b with
  | x :: r', y :: g', z :: b' => stack_row x y z :: stack3 r' g' b'
  | _, _, _ => []
  end.

Definition map_pixels (fn : pixel -> pixel) (f : frame) : frame :=
  map (map fn) f.

Definition pixel_astype_uint8 (p : pixel) : pixel :=
  mkPixel (Py.astype_uint8 (red p)) (Py.astype_uint8 (green p))
          (Py.astype_uint8 (blue p)).

(** Read pixel [(y, x)]; black outside the array. *)
Definition black : pixel := mkPixel 0 0 0.
Definition pixel_at (f : frame) (y x : nat) : pixel :=
  nth x (nth y f []) black.

(** [a * b] pixel by pixel on two arrays of one shape. *)
Fixpoint map2 {A B C : Type} (fn : A -> B -> C) (a : list A) (b : list B) : list C :=
  match a, b with
  | x :: a', y :: b' => fn x y :: map2 fn a' b'
  | _, _ => []
  end.

(** ** Pillow: the image operations the engine calls *)

Module Pillow.

(** [range(255, -1, -1)], the table of [ImageOps.invert]. *)
Definition invert_lut : list Z :=
  map (fun i => 255 - Z.of_nat i) (seq 0 256).

(** [image.point(lut)] with one table for the three bands. *)
Definition point (lut : list Z) (p : pixel) : pixel :=
  mkPixel (nth (Z.to_nat (red p)) lut 0)
          (nth (Z.to_nat (green p)) lut 0)
          (nth (Z.to_nat (blue p)) lut 0).

(** [ImageOps.invert(image)] on an RGB image. *)
Definition invert (img : frame) : frame :=
  map_pixels (point invert_lut) img.

(** [image.convert("L")]: the ITU-R 601-2 luma in 16-bit fixed point. *)
Definition luma (p : pixel) : Z :=
  Z.shiftr (red p * 19595 + green p * 38470 + blue p * 7471 + 32768) 16.

(** [image.convert("L").convert("RGB")] *)
Definition grayscale_rgb (img : frame) : frame :=
  map_pixels (fun p => let l := luma p in mkPixel l l l) img.

(** One band of [Image.blend(im1, im2, alpha)]: interpolation for [alpha]
    in [0, 1], extrapolation with clipping outside. *)
Definition blend_value (alpha : Q) (v1 v2 : Z) : Z :=
  let temp := (inject_Z v1 + alpha * inject_Z (v2 - v1))%Q in
  if Qle_bool 0 alpha && Qle_bool alpha 1 then Py.float_astype_uint8 temp
  else if Qle_bool temp 0 then 0
  else if Qle_bool 255 temp then 255
  else Py.trunc temp.

Definition blend_pixel (alpha : Q) (p1 p2 : pixel) : pixel :=
  mkPixel (blend_value alpha (red p1) (red p2))
          (blend_value alpha (green p1) (green p2))
          (blend_value alpha (blue p1) (blue p2)).

Definition blend (im1 im2 : frame) (alpha : Q) : frame :=
  if Qeq_bool alpha 0 then im1
  else if Qeq_bool alpha 1 then im2
  else map2 (map2 (blend_pixel alpha)) im1 im2.

(** [int(ImageStat.Stat(image.convert("L")).mean[0] + 0.5)]; the mean of
    an image without pixels divides by zero. *)
Definition mean_luma (img : frame) : result Z :=
  let ls := map luma (concat img) in
  match ls with
  | [] => Raise ZeroDivisionError
  | _ =>
      let total := fold_right Z.add 0 ls in
      let count := Z.of_nat (length ls) in
      Ok (Py.trunc (inject_Z total / inject_Z count + (1 # 2))%Q)
  end.

(** [image.transpose(Image.Transpose.ROTATE_90)]: a quarter turn counter
    clockwise; pixel [(y, x)] of the input lands on row [w - 1 - x],
    column [y]. The result has [w] rows of [h] pixels. *)
Definition transpose_rotate_90 (img : frame) : frame :=
  let w := Z.to_nat (width img) in
  map (fun yo => map (fun row => nth (w - 1 - yo) row black) img) (seq 0 w).

(** [image.resize((w, h), Image.Resampling.NEAREST)]: output pixel
    [(y, x)] reads the input at [floor((y + 0.5) * h_in / h)],
    [floor((x + 0.5) * w_in / w)]; a size below 1 is a ValueError. *)
Definition resize_nearest (img : frame) (w h : Z) : result frame :=
  if (w <? 1) || (h <? 1) then Raise (ValueError "height and width must be > 0")
  else
    let src n_in n_out i := Z.to_nat (((2 * Z.of_nat i + 1) * n_in) / (2 * n_out)) in
    Ok (map (fun y =>
               map (fun x => pixel_at img (src (height img) h y) (src (width img) w x))
                   (seq 0 (Z.to_nat w)))
            (seq 0 (Z.to_nat h))).

(** The rank filter behind [ImageFilter.MedianFilter(size)], which works
    band by band: Pillow expands the band by [size // 2] on every side,
    the edge pixels repeated, and writes at each pixel the value of rank
    [size * size // 2] among the [size * size] values of the window
    around it. A size that is even or below 1 is refused. *)
Fixpoint insert_sorted (v : Z) (l : list Z) : list Z :=
  match l with
  | [] => [v]
  | x :: l' => if v <=? x then v :: l else x :: insert_sorted v l'
  end.

Definition sorted (l : list Z) : list Z := fold_right insert_sorted [] l.

(** The expanded band read at row [y] and column [x], both counted from
    the corner of the band itself. *)
Definition expanded_at (band : list (list Z)) (y x : Z) : Z :=
  let clamp (n i : Z) : nat := Z.to_nat (Z.max 0 (Z.min i (n - 1))) in
  let row := nth (clamp (Z.of_nat (length band)) y) band [] in
  nth (clamp (Z.of_nat (length row)) x) row 0.

Definition window (band : list (list Z)) (margin : Z) (y x : nat) : list Z :=
  let offsets := map (fun d => Z.of_nat d - margin)
                     (seq 0 (Z.to_nat (2 * margin + 1))) in
  flat_map (fun dy =>
              map (fun dx => expanded_at band (Z.of_nat y + dy) (Z.of_nat x + dx))
                  offsets)
           offsets.

Definition rank_value (band : list (list Z)) (size : Z) (y x : nat) : Z :=
  nth (Z.to_nat (size * size / 2)) (sorted (window band (size / 2) y x)) 0.

(** [image.filter(ImageFilter.MedianFilter(size))] on an RGB image. *)
Definition median_filter (size : Z) (img : frame) : result frame :=
  if Z.even size || (size <? 1) then Raise (ValueError "bad filter size")
  else
    let r := channel red img in
    let g := channel green img in
    let b := channel blue img in
    Ok (Py.imap (fun y row =>
          Py.imap (fun x _ =>
            mkPixel (rank_value r size y x) (rank_value g size y x)
                    (rank_value b size y x)) row) img).

(** The operations taken as given: bilinear resampling, the palette
    colour that median-cut quantisation of an image to a number of
    colours assigns to each colour of the image, and rotation with the
    canvas expanded by an angle other than 0 and 90. *)
Record kernels : Type := mkKernels {
  resize_bilinear : frame -> Z -> Z -> frame;
  quantize_color : Z -> frame -> pixel -> pixel;
  rotate_expand : Z -> frame -> frame
}.

(** [image.quantize(colors).convert("RGB")]: every pixel takes the colour
    of the palette entry the quantiser assigns to its colour. *)
Definition quantize_rgb (K : kernels) (colors : Z) (img : frame) : frame :=
  map_pixels (quantize_color K colors img) img.

(** [image.resize((w, h), Image.Resampling.BILINEAR)] *)
Definition resize_bilinear_checked (K : kernels) (img : frame) (w h : Z) : result frame :=
  if (w <? 1) || (h <? 1) then Raise (ValueError "height and width must be > 0")
  else Ok (resize_bilinear K img w h).

(** [image.rotate(angle, expand=True)] for the three angles of the engine:
    Pillow turns 90 degrees with expansion into a transposition. *)
Definition rotate (K : kernels) (img : frame) (angle : Z) : frame :=
  let a := angle mod 360 in
  if a =? 0 then img
  else if a =? 90 then transpose_rotate_90 img
  else rotate_expand K a img.

End Pillow.

(** ** The .cube parser and the trilinear interpolator *)

Module Cube.

(** *** Text *)

(** A Python [str], as the code points of its characters; the lines
    [f.readlines()] returns are such strings. *)
Definition str : Type := list N.

(** The [str] of a literal of ASCII characters, and one such character. *)
Definition chr (c : ascii) : N := N_of_ascii c.

Definition text (s : string) : str := map chr (list_ascii_of_string s).

(** [str.isspace] on one character, which is also the class [\s] of [re]
    and the separator of [strip] and [split]: U+0009 to U+000D, U+001C to
    U+0020, U+0085, U+00A0, U+1680, U+2000 to U+200A, U+2028, U+2029,
    U+202F, U+205F and U+3000. *)
Definition is_space (c : N) : bool :=
  (((9 <=? c) && (c <=? 13)) || ((28 <=? c) && (c <=? 32))
   || (c =? 133) || (c =? 160) || (c =? 5760)
   || ((8192 <=? c) && (c <=? 8202)) || (c =? 8232) || (c =? 8233)
   || (c =? 8239) || (c =? 8287) || (c =? 12288))%N.

Fixpoint lstrip (l : str) : str :=
  match l with
  | [] => []
  | c :: l' => if is_space c then lstrip l' else l
  end.

(** [line.strip()] *)
Definition strip (l : str) : str :=
  rev (lstrip (rev (lstrip l))).

(** [line.split()]: the maximal runs of characters that are not spaces;
    [cur] is the run being read, reversed. *)
Fixpoint split_from (l cur : str) : list str :=
  match l with
  | [] => match cur with [] => [] | _ => [rev cur] end
  | c :: l' =>
      if is_space c
      then match cur with [] => split_from l' [] | _ => rev cur :: split_from l' [] end
      else split_from l' (c :: cur)
  end.

Definition split (l : str) : list str := split_from l [].

(** [line.startswith(prefix)] *)
Fixpoint startswith (l prefix : str) : bool :=
  match prefix, l with
  | [], _ => true
  | p :: prefix', c :: l' => N.eqb c p && startswith l' prefix'
  | _ :: _, [] => false
  end.

(** The longest prefix whose characters satisfy [p], and the rest. *)
Fixpoint span (p : N -> bool) (l : str) : str * str :=
  match l with
  | [] => ([], [])
  | c :: l' =>
      if p c then let (a, r) := span p l' in (c :: a, r) else ([], l)
  end.

(** The digits [0] to [9] of ASCII. *)
Definition is_digit (c : N) : bool := ((48 <=? c) && (c <=? 57))%N.

(** The class [[0-9eE.+-]]. *)
Definition is_num_char (c : N) : bool :=
  is_digit c || N.eqb c (chr "e") || N.eqb c (chr "E") || N.eqb c (chr ".")
  || N.eqb c (chr "+") || N.eqb c (chr "-").

Definition nonempty {A : Type} (l : list A) : bool :=
  match l with [] => false | _ => true end.

(** [re.match(r'^[0-9eE.+-]+\s+[0-9eE.+-]+\s+[0-9eE.+-]+', line)]. The two
    classes share no character, so the longest run at each step is the
    only split that can match. *)
Definition re_match_row (l : str) : bool :=
  let (a, r1) := span is_num_char l in
  let (s1, r2) := span is_space r1 in
  let (b, r3) := span is_num_char r2 in
  let (s2, r4) := span is_space r3 in
  let (c, _) := span is_num_char r4 in
  nonempty a && nonempty s1 && nonempty b && nonempty s2 && nonempty c.

(** *** [int] and [float] on a token *)

(** What [int] and [float] take from the interpreter: the value its
    Unicode database gives a decimal digit outside ASCII ([None] for any
    other character), and the limit on the number of digits of an integer
    literal ([sys.get_int_max_str_digits()], which is 0 where there is
    none and at least 640 else). *)
Record interpreter : Type := mkInterpreter {
  unicode_decimal : N -> option Z;
  int_max_str_digits : nat
}.

Definition digit_val (I : interpreter) (c : N) : option Z :=
  if (c <? 128)%N
  then if is_digit c then Some (Z.of_N c - 48) else None
  else unicode_decimal I c.

(** The rest of a group of digits, where single underscores may separate
    digits: the value, the number of digits, and what follows. *)
Fixpoint read_digits_from (I : interpreter) (l : str) (acc : Z) (cnt : nat)
  : Z * nat * str :=
  match l with
  | [] => (acc, cnt, [])
  | c :: l' =>
      match digit_val I c with
      | Some d => read_digits_from I l' (acc * 10 + d) (S cnt)
      | None =>
          if N.eqb c (chr "_") then
            match l' with
            | c2 :: l'' =>
                match digit_val I c2 with
                | Some d => read_digits_from I l'' (acc * 10 + d) (S cnt)
                | None => (acc, cnt, l)
                end
            | [] => (acc, cnt, l)
            end
          else (acc, cnt, l)
      end
  end.

(** A group of digits, which starts with a digit. *)
Definition read_digitpart (I : interpreter) (l : str) : option (Z * nat * str) :=
  match l with
  | c :: l' =>
      match digit_val I c with
      | Some d => Some (read_digits_from I l' d 1)
      | None => None
      end
  | [] => None
  end.

(** An optional sign: [-1] or [1], and what follows. *)
Definition read_sign (l : str) : Z * str :=
  match l with
  | c :: l' =>
      if N.eqb c (chr "-") then (-1, l')
      else if N.eqb c (chr "+") then (1, l')
      else (1, l)
  | [] => (1, [])
  end.

(** [int(token)] in base 10; [None] is the ValueError, which a literal of
    more digits than the limit also gets. *)
Definition py_int (I : interpreter) (tok : str) : option Z :=
  let (sg, l) := read_sign tok in
  match read_digitpart I l with
  | Some (v, cnt, []) =>
      if (0 <? int_max_str_digits I)%nat && (int_max_str_digits I <? cnt)%nat
      then None
      else Some (sg * v)
  | _ => None
  end.

(** The exponent of a float literal, when there is one. *)
Definition read_exponent (I : interpreter) (l : str) : option Z :=
  match l with
  | [] => Some 0
  | c :: l' =>
      if N.eqb c (chr "e") || N.eqb c (chr "E") then
        let (sg, l'') := read_sign l' in
        match read_digitpart I l'' with
        | Some (v, _, []) => Some (sg * v)
        | _ => None
        end
      else None
  end.

(** The digits before the exponent: [digits], [digits.], [digits.digits]
    or [.digits]; the digits read as one integer, the number of digits
    after the point, and what follows. *)
Definition read_mantissa (I : interpreter) (l : str) : option (Z * nat * str) :=
  match l with
  | [] => None
  | c :: l' =>
      if N.eqb c (chr ".") then read_digitpart I l'
      else
        match read_digitpart I l with
        | Some (ip, _, rest) =>
            match rest with
            | c2 :: rest' =>
                if N.eqb c2 (chr ".") then
                  match read_digitpart I rest' with
                  | Some (fv, cnt, rest'') =>
                      Some (ip * 10 ^ Z.of_nat cnt + fv, cnt, rest'')
                  | None => Some (ip, 0%nat, rest')
                  end
                else Some (ip, 0%nat, rest)
            | [] => Some (ip, 0%nat, [])
            end
        | None => None
        end
  end.

(** A float: a finite value, kept as the rational the literal denotes
    (its rounding to the nearest double is not written out), an infinity,
    or the value that is not a number. *)
Inductive pyfloat : Type :=
| Finite (q : Q)
| Infinite (negative : bool)
| NaN.

(** The largest double is [2^1024 - 2^971]; a literal whose magnitude
    reaches [2^1024 - 2^970], half a step above it, is read as an
    infinity. *)
Definition overflow_bound : Q := inject_Z (2 ^ 1024 - 2 ^ 970).

Definition to_double (q : Q) : pyfloat :=
  if Qle_bool overflow_bound q then Infinite false
  else if Qle_bool q (- overflow_bound) then Infinite true
  else Finite q.

(** A word read without regard to the case of its ASCII letters. *)
Definition lower (c : N) : N :=
  if ((65 <=? c) && (c <=? 90))%N then (c + 32)%N else c.

Fixpoint str_eqb (a b : str) : bool :=
  match a, b with
  | [], [] => true
  | x :: a', y :: b' => N.eqb x y && str_eqb a' b'
  | _, _ => false
  end.

Definition is_word (l : str) (word : string) : bool :=
  str_eqb (map lower l) (text word).

(** [float(token)]: a sign, then one of the words [inf], [infinity] and
    [nan], or decimal and exponent notation; [None] is the ValueError. *)
Definition py_float (I : interpreter) (tok : str) : option pyfloat :=
  let (sg, l) := read_sign tok in
  if is_word l "inf" || is_word l "infinity" then Some (Infinite (sg <? 0))
  else if is_word l "nan" then Some NaN
  else
    match read_mantissa I l with
    | Some (num, cnt, rest) =>
        match read_exponent I rest with
        | Some ex =>
            Some (to_double (inject_Z (sg * num) / inject_Z (10 ^ Z.of_nat cnt)
                             * Qpower (inject_Z 10) ex)%Q)
        | None => None
        end
    | None => None
    end.

(** *** [parse_cube_file] *)

(** The array the parser returns with its size: the values in row-major
    order, to be read with the shape [(lut_size, lut_size, lut_size, 3)]. *)
Record lut_array : Type := mkArray { array_size : Z; array_flat : list pyfloat }.

(** [[float(c) for c in line.split()]] *)
Fixpoint floats_of (I : interpreter) (toks : list str) : option (list pyfloat) :=
  match toks with
  | [] => Some []
  | t :: toks' =>
      match py_float I t, floats_of I toks' with
      | Some q, Some qs => Some (q :: qs)
      | _, _ => None
      end
  end.

(** One turn of the loop over the lines, on the pair
    [(lut_size, lut_data)]. *)
Definition scan_line (I : interpreter) (st : Z * list (list pyfloat)) (raw : str)
  : result (Z * list (list pyfloat)) :=
  let line := strip raw in
  if negb (nonempty line) || startswith line (text "#") then Ok st
  else if startswith line (text "LUT_3D_SIZE") then
    match py_int I (last (split line) []) with
    | Some n => Ok (n, snd st)
    | None => Raise (ValueError "invalid literal for int() with base 10")
    end
  else if re_match_row line then
    match floats_of I (split line) with
    | Some row => Ok (fst st, snd st ++ [row])
    | None => Raise (ValueError "could not convert string to float")
    end
  else Ok st.

(** The loop over the lines. *)
Fixpoint scan_from (I : interpreter) (st : Z * list (list pyfloat)) (lines : list str)
  : result (Z * list (list pyfloat)) :=
  match lines with
  | [] => Ok st
  | raw :: lines' =>
      match scan_line I st raw with
      | Ok st' => scan_from I st' lines'
      | Raise e => Raise e
      end
  end.

Definition scan (I : interpreter) (lines : list str)
  : result (Z * list (list pyfloat)) :=
  scan_from I (0, []) lines.

(** The rows of [np.array(lut_data)] have one length. *)
Definition homogeneous {A : Type} (rows : list (list A)) : bool :=
  match rows with
  | [] => true
  | r :: rows' => forallb (fun r' => (length r' =? length r)%nat) rows'
  end.

(** [np.array(lut_data).reshape((n, n, n, 3))]: NumPy (from 1.24 on)
    refuses rows of unequal lengths, and it refuses negative dimensions
    and a number of values other than [n * n * n * 3]. *)
Definition reshape (n : Z) (rows : list (list pyfloat)) : result lut_array :=
  if negb (homogeneous rows)
  then Raise (ValueError "inhomogeneous shape")
  else if n <? 0
  then Raise (ValueError "negative dimensions not allowed")
  else if Z.of_nat (length (concat rows)) =? n * n * n * 3
  then Ok (mkArray n (concat rows))
  else Raise (ValueError "cannot reshape array").

(** [parse_cube_file], on the lines [f.readlines()] returns. *)
Definition parse_cube_file (I : interpreter) (lines : list str) : result lut_array :=
  match scan I lines with
  | Raise e => Raise e
  | Ok (size, data) =>
      if (size =? 0) || negb (nonempty data)
      then Raise (ValueError "Invalid or unsupported .cube file format.")
      else reshape size data
  end.

(** *** The interpolator of [apply_lut] *)

(** A table all of whose values are finite, which is what the arithmetic
    of the interpolator is written for below. *)
Record lut_table : Type := mkLut { lut_size : Z; lut_flat : list Q }.

Fixpoint finite_values (l : list pyfloat) : option (list Q) :=
  match l with
  | [] => Some []
  | Finite q :: l' =>
      match finite_values l' with
      | Some qs => Some (q :: qs)
      | None => None
      end
  | _ :: _ => None
  end.

Definition finite_table (a : lut_array) : option lut_table :=
  match finite_values (array_flat a) with
  | Some qs => Some (mkLut (array_size a) qs)
  | None => None
  end.

(** [lut_table[i, j, k, c]]; as everywhere in NumPy, a negative index
    counts from the end of its axis. *)
Definition table_at (t : lut_table) (i j k c : Z) : Q :=
  let n := lut_size t in
  let ix (m : Z) : Z := if m <? 0 then m + n else m in
  nth (Z.to_nat (((ix i * n + ix j) * n + ix k) * 3 + c)) (lut_flat t) 0%Q.

(** [np.linspace(0, 1, n)[i]] *)
Definition grid_point (n i : Z) : Q :=
  if n =? 1 then 0%Q else (inject_Z i / inject_Z (n - 1))%Q.

(** [np.searchsorted(grid, x)]: the number of grid points below [x]. *)
Definition searchsorted (n : Z) (x : Q) : Z :=
  Z.of_nat (length (filter (fun i => Py.Qltb (grid_point n (Z.of_nat i)) x)
                           (seq 0 (Z.to_nat n)))).

(** The cell of [x] on one axis, as SciPy's [RegularGridInterpolator]
    finds it: the index, clamped to [0 .. n - 2]. *)
Definition find_index (n : Z) (x : Q) : Z :=
  let i := searchsorted n x - 1 in
  let i := if i <? 0 then 0 else i in
  if n - 2 <? i then n - 2 else i.

(** The normalised distance of [x] from the lower node of its cell. A
    cell without width, which a table of size 1 has, gives the distance
    0 in SciPy; the quotient by zero of [Q] is 0 as well. *)
Definition norm_distance (n : Z) (x : Q) : Q :=
  let i := find_index n x in
  ((x - grid_point n i) / (grid_point n (i + 1) - grid_point n i))%Q.

(** One channel of the linear interpolation: the sum over the eight
    corners of the cell, each with the product of its three weights. *)
Definition interpolate (t : lut_table) (x y z : Q) (c : Z) : Q :=
  let n := lut_size t in
  let i := find_index n x in
  let j := find_index n y in
  let k := find_index n z in
  let tx := norm_distance n x in
  let ty := norm_distance n y in
  let tz := norm_distance n z in
  let corner (a b d : bool) : Q :=
    let w (far : bool) (u : Q) : Q := if far then u else (1 - u)%Q in
    let ix (far : bool) (m : Z) : Z := if far then m + 1 else m in
    (table_at t (ix a i) (ix b j) (ix d k) c * (w a tx * w b ty * w d tz))%Q in
  (0 + corner false false false + corner false false true
     + corner false true false + corner false true true
     + corner true false false + corner true false true
     + corner true true false + corner true true true)%Q.

(** One pixel of [apply_lut_to_frame]: normalise, interpolate, clip,
    scale back and cast. *)
Definition lut_pixel (t : lut_table) (p : pixel) : pixel :=
  let x := (inject_Z (red p) / 255)%Q in
  let y := (inject_Z (green p) / 255)%Q in
  let z := (inject_Z (blue p) / 255)%Q in
  let out (c : Z) : Z :=
    Py.float_astype_uint8 (Py.clip (interpolate t x y z c) 0 1 * 255)%Q in
  mkPixel (out 0) (out 1) (out 2).

(** The bounds check the interpolator makes on every coordinate it is
    called with: between the first and the last grid point. *)
Definition in_bounds (n : Z) (x : Q) : bool :=
  Qle_bool (grid_point n 0) x && Qle_bool x (grid_point n (n - 1)).

Definition pixel_in_bounds (n : Z) (p : pixel) : bool :=
  in_bounds n (inject_Z (red p) / 255)%Q
  && in_bounds n (inject_Z (green p) / 255)%Q
  && in_bounds n (inject_Z (blue p) / 255)%Q.

(** [apply_lut_to_frame]: the interpolator raises when a pixel is out of
    its bounds, else every pixel is mapped. On an array that holds an
    infinity or a value that is not a number, the interpolated values are
    those of IEEE arithmetic and of a cast C leaves open; they are taken
    as given ([special]), and the cast returns 8-bit values. *)
Definition apply_lut_to_frame (special : lut_array -> pixel -> pixel)
           (a : lut_array) (f : frame) : result frame :=
  if forallb (forallb (pixel_in_bounds (array_size a))) f
  then
    match finite_table a with
    | Some t => Ok (map_pixels (lut_pixel t) f)
    | None => Ok (map_pixels (fun p => pixel_astype_uint8 (special a p)) f)
    end
  else Raise (ValueError "One of the requested xi is out of bounds").

End Cube.

(** ** Effect chains *)

(** An element of the list [effects]: a string, a tuple of strings (the
    name, then the arguments), or a value of another type, kept as the
    text [print] shows for it. *)
Inductive chain_element : Type :=
| EString (name : string)
| ETuple (items : list string)
| EOther (shown : string).

(** ** The image engine: [ImageEffectsEngine] *)

Module ImageEffects.

Local Open Scope string_scope.
Local Open Scope list_scope.
Local Open Scope Z_scope.

(** What the engine reaches outside itself: Pillow's kernels, the files
    [open] can read, as their lines, the interpreter's reading of digits,
    and the interpolation on an array with values that are not finite. *)
Record world : Type := mkWorld {
  pil : Pillow.kernels;
  read_lines : string -> option (list Cube.str);
  python : Cube.interpreter;
  special_lut : Cube.lut_array -> pixel -> pixel
}.

(** *** The parameter each level selects *)

Definition saturation_factor (level : string) : Q :=
  let level_map := [("low", 13 # 10); ("medium", 17 # 10); ("high", 22 # 10)] in
  Py.dict_get level_map level (17 # 10).

Definition contrast_factor (level : string) : Q :=
  let contrast_map := [("low", 12 # 10); ("medium", 15 # 10); ("high", 18 # 10)] in
  Py.dict_get contrast_map level (15 # 10).

Definition aberration_shift (level : string) : Z :=
  let level_map := [("low", 3); ("medium", 6); ("high", 10)] in
  Py.dict_get level_map level 6.

Definition pixel_size (level : string) : Z :=
  let level_map := [("low", 95); ("medium", 85); ("high", 75)] in
  Py.dict_get level_map level 85.

Definition grain_strength (level : string) : Q :=
  let level_map := [("low", 1); ("medium", 15 # 10); ("high", 2)]%Q in
  Py.dict_get level_map level (15 # 10).

Definition neon_threshold (level : string) : Q :=
  let level_map := [("low", 80); ("medium", 50); ("high", 30)]%Q in
  Py.dict_get level_map level 50%Q.

Definition cartoon_filter_size (level : string) : Z :=
  let level_map := [("low", 5); ("medium", 15); ("high", 25)] in
  Py.dict_get level_map level 15.

Definition vignette_strength (level : string) : Q :=
  let level_map := [("low", 5 # 10); ("medium", 1); ("high", 15 # 10)]%Q in
  Py.dict_get level_map level 1%Q.

Definition glitch_probability (level : string) : Q :=
  let level_map := [("low", 30); ("medium", 50); ("high", 70)]%Q in
  Py.dict_get level_map level 50%Q.

Definition rotate_angle (level : string) : Z :=
  let level_map := [("low", 15); ("medium", 45); ("high", 90)] in
  Py.dict_get level_map level 90.

(** *** The effects *)

(** [apply_lut]; the video engine parses the file once for the clip and
    maps every frame the same way. *)
Definition apply_lut (W : world) (img : frame) (cube_file_path : string) : M frame :=
  match read_lines W cube_file_path with
  | None => raise (FileNotFoundError cube_file_path)
  | Some lines =>
      match Cube.parse_cube_file (python W) lines with
      | Raise e => raise e
      | Ok lut =>
          match Cube.apply_lut_to_frame (special_lut W) lut img with
          | Raise e => raise e
          | Ok new_frame => ret new_frame
          end
      end
  end.

(** [apply_black_and_white] *)
Definition apply_black_and_white (img : frame) : frame :=
  Pillow.grayscale_rgb img.

(** [apply_color_saturation]: [ImageEnhance.Color] blends the image with
    its grayscale version. *)
Definition apply_color_saturation (img : frame) (level : string) : frame :=
  let factor := saturation_factor level in
  Pillow.blend (Pillow.grayscale_rgb img) img factor.

(** [apply_contrast_brightness]: [ImageEnhance.Contrast] blends the image
    with a solid image of its mean luma. *)
Definition apply_contrast_brightness (img : frame) (level : string) : M frame :=
  let factor := contrast_factor level in
  match Pillow.mean_luma img with
  | Raise e => raise e
  | Ok mean =>
      let degenerate := map_pixels (fun _ => mkPixel mean mean mean) img in
      ret (Pillow.blend degenerate img factor)
  end.

(** [apply_chromatic_aberration]; the video engine's per-frame [effect]
    is the same function. *)
Definition apply_chromatic_aberration (img : frame) (level : string) : frame :=
  let shift := aberration_shift level in
  let r := channel red img in
  let g := channel green img in
  let b := channel blue img in
  let r_shifted := Py.roll_axis1 (- shift) r in
  let b_shifted := Py.roll_axis1 shift b in
  map_pixels pixel_astype_uint8 (stack3 r_shifted g b_shifted).

(** [apply_pixelated] *)
Definition apply_pixelated (W : world) (img : frame) (level : string) : M frame :=
  let pixel_size := pixel_size level in
  let w := width img in
  let h := height img in
  if w =? 0 then raise ZeroDivisionError
  else
    let small_h := Py.trunc (inject_Z (pixel_size * h)%Z / inject_Z w)%Q in
    match Pillow.resize_bilinear_checked (pil W) img pixel_size small_h with
    | Raise e => raise e
    | Ok img_small =>
        match Pillow.resize_nearest img_small w h with
        | Raise e => raise e
        | Ok out => ret out
        end
    end.

(** [apply_invert_colors] *)
Definition apply_invert_colors (img : frame) : frame :=
  Pillow.invert img.

(** One channel value of [apply_film_grain] with its noise draw [n]. *)
Definition grain_value (strength : Q) (v n : Z) : Z :=
  Py.float_astype_uint8 (Py.clip (inject_Z v + inject_Z n * strength) 0 255)%Q.

Definition grain_pixel (strength : Q) (p : pixel) : M pixel :=
  (nr <- Random.np_randint (-25) 25 ;;
   ng <- Random.np_randint (-25) 25 ;;
   nb <- Random.np_randint (-25) 25 ;;
   ret (mkPixel (grain_value strength (red p) nr)
                (grain_value strength (green p) ng)
                (grain_value strength (blue p) nb)))%eff.

(** [apply_film_grain]: the noise array is drawn in row-major order. *)
Definition apply_film_grain (img : frame) (level : string) : M frame :=
  let strength := grain_strength level in
  mapM (mapM (grain_pixel strength)) img.

(** A two-dimensional float array read at [(y, x)], zero outside: the
    [mode='constant'] border of [sobel]. *)
Definition at2 (a : list (list Q)) (y x : Z) : Q :=
  if (y <? 0) || (x <? 0) then 0%Q
  else nth (Z.to_nat x) (nth (Z.to_nat y) a []) 0%Q.

(** [sobel(gray, axis=0, mode='constant')]: the difference [-1, 0, 1]
    along the rows, smoothed by [1, 2, 1] along the columns. *)
Definition sobel_axis0 (gray : list (list Q)) (y x : Z) : Q :=
  let d (y x : Z) : Q := (at2 gray (y + 1)%Z x - at2 gray (y - 1)%Z x)%Q in
  (d y (x - 1)%Z + 2 * d y x + d y (x + 1)%Z)%Q.

(** [sobel(gray, axis=1, mode='constant')] *)
Definition sobel_axis1 (gray : list (list Q)) (y x : Z) : Q :=
  let d (y x : Z) : Q := (at2 gray y (x + 1)%Z - at2 gray y (x - 1)%Z)%Q in
  (d (y - 1)%Z x + 2 * d y x + d (y + 1)%Z x)%Q.

(** [np.dot(frame[..., :3], [0.2989, 0.5870, 0.1140])] *)
Definition neon_gray (p : pixel) : Q :=
  (inject_Z (red p) * (2989 # 10000) + inject_Z (green p) * (5870 # 10000)
   + inject_Z (blue p) * (1140 # 10000))%Q.

(** [np.hypot(sx, sy) ** 2]: the comparison with the threshold is made on
    the squares, which spares the square root. *)
Definition edge_sq (gray : list (list Q)) (y x : Z) : Q :=
  let sx := sobel_axis0 gray y x in
  let sy := sobel_axis1 gray y x in
  (sx * sx + sy * sy)%Q.

Definition Qmax_list (l : list Q) : Q :=
  fold_right (fun a b => if Py.Qltb a b then b else a) 0%Q l.

(** The end of [apply_neon_glow], from the array [edges] on, which is
    given by the squares of its values: a pixel glows when
    [edges / np.max(edges) * 255 > threshold], which on the squares reads
    [edge_sq * 255^2 > threshold^2 * max edge_sq]; an array of zeros,
    whose quotient is not a number, has no glowing pixel either way. The
    maximum of an empty array is a ValueError. *)
Definition neon_from_edges (threshold : Q) (edges : list (list Q)) : M frame :=
  match concat edges with
  | [] => raise (ValueError "zero-size array to reduction operation maximum")
  | all =>
      let max_sq := Qmax_list all in
      let neon_color := mkPixel 0 255 255 in
      ret (map (map (fun e =>
             if Py.Qltb (threshold * threshold * max_sq) (e * (255 * 255))%Q
             then neon_color else black)) edges)
  end.

(** [apply_neon_glow]; the video engine's per-frame [effect] is the same
    function. *)
Definition apply_neon_glow (img : frame) (level : string) : M frame :=
  let threshold := neon_threshold level in
  let gray := map (map neon_gray) img in
  let edges := Py.imap (fun y row =>
                 Py.imap (fun x _ => edge_sq gray (Z.of_nat y) (Z.of_nat x)) row) img in
  neon_from_edges threshold edges.

(** [apply_cartoon_painterly]; the video engine's per-frame [effect] is
    the same function. *)
Definition apply_cartoon_painterly (W : world) (img : frame) (level : string) : M frame :=
  let filter_size := cartoon_filter_size level in
  match Pillow.median_filter filter_size img with
  | Raise e => raise e
  | Ok filtered => ret (Pillow.quantize_rgb (pil W) 64 filtered)
  end.

(** [radial_grad ** 2] at pixel [(y, x)] of a [w] by [h] image: the
    quotient of the squared distances, the square of the quotient of
    their roots. *)
Definition radial_grad_sq (w h : Z) (y x : Z) : Q :=
  let center_y := (inject_Z h / 2)%Q in
  let center_x := (inject_Z w / 2)%Q in
  let dx := (inject_Z x - center_x)%Q in
  let dy := (inject_Z y - center_y)%Q in
  ((dx * dx + dy * dy) / (center_x * center_x + center_y * center_y))%Q.

(** [vignette_mask[y, x]] *)
Definition vignette_mask (strength : Q) (w h : Z) (y x : Z) : Q :=
  (1 - radial_grad_sq w h y x * strength)%Q.

Definition scale_pixel (m : Q) (p : pixel) : pixel :=
  mkPixel (Py.float_astype_uint8 (inject_Z (red p) * m))
          (Py.float_astype_uint8 (inject_Z (green p) * m))
          (Py.float_astype_uint8 (inject_Z (blue p) * m)).

(** [apply_vignette]; the video engine's [effect] is the same function of
    the frame. *)
Definition apply_vignette (img : frame) (level : string) : frame :=
  let strength := vignette_strength level in
  let w := width img in
  let h := height img in
  Py.imap (fun y row =>
    Py.imap (fun x p =>
      scale_pixel (vignette_mask strength w h (Z.of_nat y) (Z.of_nat x)) p) row) img.

(** The test [random.random() < probability] of one attempt. *)
Definition glitch_triggers (probability u : Q) : bool :=
  Py.Qltb u probability.

(** The assignment that blanks the columns of a rolled strip:
    [strip[:, :displacement] = 0] for a positive displacement,
    [strip[:, displacement:] = 0] otherwise. *)
Definition blank_rolled (displacement : Z) (row : list pixel) : list pixel :=
  let n := Z.of_nat (length row) in
  if 0 <? displacement
  then Py.fill_slice row 0 (Py.slice_bound n displacement) black
  else Py.fill_slice row (Py.slice_bound n displacement) (length row) black.

(** The strip of one glitch: the rows [y .. y + glitch_height) rolled by
    [displacement] and blanked, written back in place. *)
Definition glitch_strip (fr : frame) (glitch_height y displacement : Z) : frame :=
  let h := height fr in
  let lo := Py.slice_bound h y in
  let hi := Py.slice_bound h (y + glitch_height) in
  let strip := Py.get_slice fr lo hi in
  let strip := map (Py.roll displacement) strip in
  let strip := map (blank_rolled displacement) strip in
  Py.set_slice fr lo hi strip.

(** The branch of an attempt that triggers: a strip and a displacement
    are drawn and the strip is glitched. *)
Definition glitch_once (fr : frame) : M frame :=
  let h := height fr in
  let w := width fr in
  let glitch_height := Z.max 1 (h / 20) in
  (y <- Random.randint 0 (h - glitch_height) ;;
   displacement <- Random.randint (- w / 4) (w / 4) ;;
   ret (glitch_strip fr glitch_height y displacement))%eff.

(** The body of the loop of [apply_glitch]. *)
Definition glitch_attempt (probability : Q) (fr : frame) : M frame :=
  (u <- Random.random ;;
   if glitch_triggers probability u then glitch_once fr else ret fr)%eff.

(** [for _ in range(n): frame = body(frame)] *)
Fixpoint repeatM {A : Type} (n : nat) (body : A -> M A) (a : A) : M A :=
  match n with
  | O => ret a
  | S n' => (a' <- body a ;; repeatM n' body a')%eff
  end.

(** [apply_glitch] *)
Definition apply_glitch (img : frame) (level : string) : M frame :=
  let probability := glitch_probability level in
  (attempts <- Random.randint 1 5 ;;
   repeatM (Z.to_nat attempts) (glitch_attempt probability) img)%eff.

(** [apply_rotate] *)
Definition apply_rotate (W : world) (img : frame) (level : string) : frame :=
  let angle := rotate_angle level in
  Pillow.rotate (pil W) img angle.

(** *** The registry and the chain executor *)

Inductive effect_kind : Type :=
| LookUpTable | BlackAndWhite | ColorSaturation | ContrastBrightness
| ChromaticAberration | PixelatedEffect | InvertColors | FilmGrain
| Glitch | NeonGlow | CartoonPainterly | Vignette | Rotate.

(** [self.effects_map] *)
Definition effects_map : list (string * effect_kind) :=
  [ ("look-up table", LookUpTable);
    ("Black & White", BlackAndWhite);
    ("Color Saturation", ColorSaturation);
    ("Contrast / Brightness", ContrastBrightness);
    ("Chromatic Aberration", ChromaticAberration);
    ("Pixelated Effect", PixelatedEffect);
    ("Invert Colors", InvertColors);
    ("Film Grain", FilmGrain);
    ("Glitch", Glitch);
    ("Neon Glow", NeonGlow);
    ("Cartoon / Painterly", CartoonPainterly);
    ("Vignette", Vignette);
    ("Rotate", Rotate) ].

(** The default of the [level] argument of an effect that has one. *)
Definition default_level (k : effect_kind) : option string :=
  match k with
  | LookUpTable | BlackAndWhite | InvertColors => None
  | Rotate => Some "high"
  | _ => Some "medium"
  end.

(** An effect with a [level] argument, applied at a level. *)
Definition apply_leveled (W : world) (k : effect_kind) (img : frame) (level : string)
  : M frame :=
  match k with
  | ColorSaturation => ret (apply_color_saturation img level)
  | ContrastBrightness => apply_contrast_brightness img level
  | ChromaticAberration => ret (apply_chromatic_aberration img level)
  | PixelatedEffect => apply_pixelated W img level
  | FilmGrain => apply_film_grain img level
  | Glitch => apply_glitch img level
  | NeonGlow => apply_neon_glow img level
  | CartoonPainterly => apply_cartoon_painterly W img level
  | Vignette => ret (apply_vignette img level)
  | Rotate => ret (apply_rotate W img level)
  | LookUpTable | BlackAndWhite | InvertColors =>
      raise (TypeError "takes no level")
  end.

(** [self.effects_map[name](img, *params)]: the binding of the positional
    arguments; too few or too many are a TypeError. *)
Definition call (W : world) (k : effect_kind) (img : frame) (params : list string)
  : M frame :=
  match k with
  | LookUpTable =>
      match params with
      | [cube_file_path] => apply_lut W img cube_file_path
      | _ => raise (TypeError "apply_lut() takes 2 positional arguments")
      end
  | BlackAndWhite =>
      match params with
      | [] => ret (apply_black_and_white img)
      | _ => raise (TypeError "apply_black_and_white() takes 1 positional argument")
      end
  | InvertColors =>
      match params with
      | [] => ret (apply_invert_colors img)
      | _ => raise (TypeError "apply_invert_colors() takes 1 positional argument")
      end
  | _ =>
      match params, default_level k with
      | [], Some level => apply_leveled W k img level
      | [level], _ => apply_leveled W k img level
      | _, _ => raise (TypeError "takes from 1 to 2 positional arguments")
      end
  end.

(** One turn of the loop of [apply_effects_in_sequence]. The engine
    prints nothing; an empty tuple fails to unpack. *)
Definition step (W : world) (img : frame) (effect : chain_element) : M frame :=
  match effect with
  | ETuple [] => raise (ValueError "not enough values to unpack")
  | ETuple (effect_name :: params) =>
      match Py.dict_lookup effects_map effect_name with
      | Some k => call W k img params
      | None => ret img
      end
  | EString effect =>
      match Py.dict_lookup effects_map effect with
      | Some k => call W k img []
      | None => ret img
      end
  | EOther _ => ret img
  end.

(** [apply_effects_in_sequence], from the opened image to the image that
    is saved. *)
Fixpoint apply_effects_in_sequence (W : world) (img : frame) (effects : list chain_element)
  : M frame :=
  match effects with
  | [] => ret img
  | effect :: rest =>
      (img' <- step W img effect ;; apply_effects_in_sequence W img' rest)%eff
  end.

End ImageEffects.

(** ** The video engine: [EffectsEngine] *)

Module VideoEffects.

Local Open Scope string_scope.
Local Open Scope list_scope.
Local Open Scope Z_scope.

(** The effects of the video engine that take a [level]. *)
Inductive leveled : Type :=
| KenBurns | ColorSaturation | ContrastBrightness | ChromaticAberration
| PixelatedEffect | SpeedControl | Rotate | FilmGrain | Glitch
| RollingShutter | NeonGlow | CartoonPainterly | Vignette | FadeInOut.

(** The parameter [level_map.get(level, default)] of each of them. *)
Definition level_param (e : leveled) (level : string) : Q :=
  match e with
  | KenBurns =>
      Py.dict_get [("low", 1); ("medium", 125 # 100); ("high", 15 # 10)]%Q level (125 # 100)
  | ColorSaturation =>
      Py.dict_get [("low", 13 # 10); ("medium", 17 # 10); ("high", 22 # 10)] level (17 # 10)
  | ContrastBrightness =>
      Py.dict_get [("low", 2 # 10); ("medium", 6 # 10); ("high", 1)]%Q level (6 # 10)
  | ChromaticAberration =>
      Py.dict_get [("low", 3); ("medium", 6); ("high", 10)]%Q level 6%Q
  | PixelatedEffect =>
      Py.dict_get [("low", 95); ("medium", 85); ("high", 75)]%Q level 85%Q
  | SpeedControl =>
      Py.dict_get [("low", 125 # 100); ("medium", 15 # 10); ("high", 2)]%Q level (15 # 10)
  | Rotate =>
      Py.dict_get [("low", -15); ("medium", -45); ("high", -90)]%Q level (-90)%Q
  | FilmGrain =>
      Py.dict_get [("low", 1); ("medium", 15 # 10); ("high", 2)]%Q level (15 # 10)
  | Glitch =>
      Py.dict_get [("low", 1 # 10); ("medium", 2 # 10); ("high", 3 # 10)] level (2 # 10)
  | RollingShutter =>
      Py.dict_get [("low", 5); ("medium", 12); ("high", 20)]%Q level 12%Q
  | NeonGlow =>
      Py.dict_get [("low", 80); ("medium", 50); ("high", 30)]%Q level 50%Q
  | CartoonPainterly =>
      Py.dict_get [("low", 5); ("medium", 15); ("high", 25)]%Q level 15%Q
  | Vignette =>
      Py.dict_get [("low", 5 # 10); ("medium", 1); ("high", 15 # 10)]%Q level 1%Q
  | FadeInOut =>
      Py.dict_get [("low", 1); ("medium", 15 # 10); ("high", 2)]%Q level (15 # 10)
  end.

(** The default of the [level] argument. *)
Definition default_level (e : leveled) : string :=
  match e with
  | Rotate => "high"
  | _ => "medium"
  end.

(** The per-frame [effect] of [apply_glitch]: one attempt on a copy of
    the frame. *)
Definition glitch_frame (level : string) (fr : frame) : M frame :=
  let probability := level_param Glitch level in
  ImageEffects.glitch_attempt probability fr.

(** The keys of [self.effects_map]. *)
Definition effect_names : list string :=
  [ "look-up table"; "Ken Burns"; "Black & White"; "Fade In/Out";
    "Pixelated Effect"; "Glitch"; "Neon Glow"; "VHS Look";
    "Color Saturation"; "Contrast / Brightness"; "Chromatic Aberration";
    "Invert Colors"; "Speed Control"; "Rotate"; "Film Grain";
    "Rolling Shutter"; "Cartoon / Painterly"; "Vignette" ].

Definition known (name : string) : bool :=
  existsb (String.eqb name) effect_names.

Section Executor.

(** MoviePy's clips, and [self.effects_map[name](clip, *params)] on them,
    which may raise. *)
Variable clip : Type.
Variable call : string -> clip -> list string -> M clip.

(** One turn of the loop of [apply_effects_in_sequence]. *)
Definition step (c : clip) (effect : chain_element) : M clip :=
  match effect with
  | ETuple [] => raise (ValueError "not enough values to unpack")
  | ETuple (effect_name :: params) =>
      if known effect_name then call effect_name c params
      else
        (_ <- print_line ("Warning: Parameterized effect '" ++ effect_name
                            ++ "' not found.")%string ;;
         ret c)%eff
  | EString effect =>
      if known effect then call effect c []
      else
        (_ <- print_line ("Warning: Effect '" ++ effect ++ "' not found.")%string ;;
         ret c)%eff
  | EOther shown =>
      (_ <- print_line ("Warning: Invalid effect format: " ++ shown)%string ;;
       ret c)%eff
  end.

(** The loop of [apply_effects_in_sequence], up to the encoding. *)
Fixpoint apply_effects_in_sequence (c : clip) (effects : list chain_element) : M clip :=
  match effects with
  | [] => ret c
  | effect :: rest =>
      (c' <- step c effect ;; apply_effects_in_sequence c' rest)%eff
  end.

End Executor.

End VideoEffects.

(** ** Notions the statements use *)

(** A channel array read at [(y, x)]; zero outside. *)
Definition value_at (a : list (list Z)) (y x : nat) : Z :=
  nth x (nth y a []) 0.

(** A level string the level maps know. *)
Definition known_level (level : string) : Prop :=
  level = "low"%string \/ level = "medium"%string \/ level = "high"%string.

(** The reading of the aberration that fills the vacated columns with
    black: at every level, the rightmost [shift] columns of the red
    channel of the result are zero. *)
Definition aberration_fills_black : Prop :=
  forall (img : frame) (level : string) (h w y x : nat),
    has_shape h w img -> uint8_frame img -> known_level level ->
    (y < h)%nat -> (x < w)%nat ->
    Z.of_nat w - ImageEffects.aberration_shift level <= Z.of_nat x ->
    value_at (channel red (ImageEffects.apply_chromatic_aberration img level)) y x = 0.

(** A one-row frame whose red channel reads 1, 2, 3, 4. *)
Definition ramp_frame : frame :=
  [[mkPixel 1 0 0; mkPixel 2 0 0; mkPixel 3 0 0; mkPixel 4 0 0]].

(** The pixel whose channels are [255 - v]. *)
Definition invert_pixel (p : pixel) : pixel :=
  mkPixel (255 - red p) (255 - green p) (255 - blue p).

(** A cube of size 2 with eight distinct triples, in the order of its
    data rows. *)
Definition cube2 : Cube.lut_table :=
  Cube.mkLut 2
    [ 0.0; 0.1; 0.2;   0.3; 0.4; 0.5;   0.6; 0.7; 0.8;   0.9; 1.0; 0.05;
      0.15; 0.25; 0.35;   0.45; 0.55; 0.65;   0.75; 0.85; 0.95;   0.5; 0.0; 1.0 ]%Q.

(** The triple the interpolator returns at a point, and the triple a
    node stores. *)
Definition interpolate_rgb (t : Cube.lut_table) (x y z : Q) : list Q :=
  map (Cube.interpolate t x y z) [0; 1; 2].

Definition node_rgb (t : Cube.lut_table) (i j k : Z) : list Q :=
  map (Cube.table_at t i j k) [0; 1; 2].

(** The parser raises. *)
Definition raises {A : Type} (r : result A) : Prop :=
  exists e, r = Raise e.

(** The reading of the parser's failure by the final check alone: once
    the lines are processed into a size and rows, the parser fails exactly
    when the size is zero or there is no row. *)
Definition fails_exactly_on_final_check : Prop :=
  forall (I : Cube.interpreter) (lines : list Cube.str)
         (size : Z) (rows : list (list Cube.pyfloat)),
    Cube.scan I lines = Ok (size, rows) ->
    (raises (Cube.parse_cube_file I lines) <-> size = 0 \/ rows = []).

(** The lines of a .cube file by the words of the format. A line is read
    without the white space around it. A blank line and a line that
    starts with [#] are ignored; a line that starts with [LUT_3D_SIZE] is
    a size line, whose last token is the size; a line that starts with
    three runs of the characters [0-9 e E . + -] with white space between
    them is a data row, whose tokens are all its tokens; any other line
    is ignored. *)
Inductive line_kind : Type :=
| Ignored
| SizeLine (token : Cube.str)
| DataRow (tokens : list Cube.str).

Definition classify (raw : Cube.str) : line_kind :=
  let line := Cube.strip raw in
  match line with
  | [] => Ignored
  | _ :: _ =>
      if Cube.startswith line (Cube.text "#") then Ignored
      else if Cube.startswith line (Cube.text "LUT_3D_SIZE")
      then SizeLine (last (Cube.split line) [])
      else if Cube.re_match_row line then DataRow (Cube.split line)
      else Ignored
  end.

(** The size tokens and the data rows of a file, in file order. *)
Definition size_tokens (lines : list Cube.str) : list Cube.str :=
  flat_map (fun raw => match classify raw with SizeLine t => [t] | _ => [] end) lines.

Definition data_rows (lines : list Cube.str) : list (list Cube.str) :=
  flat_map (fun raw => match classify raw with DataRow ts => [ts] | _ => [] end) lines.

(** The values of a list of tokens when every one of them converts. *)
Fixpoint traverse {A B : Type} (f : A -> option B) (l : list A) : option (list B) :=
  match l with
  | [] => Some []
  | x :: l' =>
      match f x, traverse f l' with
      | Some y, Some ys => Some (y :: ys)
      | _, _ => None
      end
  end.

(** The array a file denotes. Every size token converts by [int] and
    every token of every data row by [float]; the size [N] is that of the
    last size line (0 without one) and is positive; there is a data row;
    the rows have one length and hold [N * N * N * 3] values in all. The
    array is then these values in file order with the size [N]. In every
    other case the file denotes no array. *)
Definition table_of_lines (I : Cube.interpreter) (lines : list Cube.str)
  : option Cube.lut_array :=
  match traverse (Cube.py_int I) (size_tokens lines),
        traverse (traverse (Cube.py_float I)) (data_rows lines) with
  | Some sizes, Some rows =>
      let n := last sizes 0 in
      if (0 <? n) && Cube.nonempty rows && Cube.homogeneous rows
         && (Z.of_nat (length (concat rows)) =? n * n * n * 3)
      then Some (Cube.mkArray n (concat rows))
      else None
  | _, _ => None
  end.

(** [lut_table[i, j, k, c]] on the array the parser returns. *)
Definition array_at (a : Cube.lut_array) (i j k c : Z) : Cube.pyfloat :=
  let n := Cube.array_size a in
  nth (Z.to_nat (((i * n + j) * n + k) * 3 + c)) (Cube.array_flat a) Cube.NaN.

(** An interpreter that knows, outside ASCII, the Arabic-Indic digits
    U+0660 to U+0669, and limits integer literals to 4300 digits. *)
Definition plain_python : Cube.interpreter :=
  Cube.mkInterpreter
    (fun c => if ((1632 <=? c) && (c <=? 1641))%N
              then Some (Z.of_N c - 1632) else None)
    4300.

(** A file that declares size 2 and holds one data row. *)
Definition short_cube : list Cube.str :=
  map Cube.text ["LUT_3D_SIZE 2"; "0.0 0.5 1.0"]%string.

(** A file of size 2 with its eight rows. *)
Definition unit_cube : list Cube.str :=
  map Cube.text
    [ "# identity"; "LUT_3D_SIZE 2"; "  ";
      "0 0 0"; "1 0 0"; "0 1 0"; "1 1 0";
      "0 0 1"; "1 0 1"; "0 1 1"; "1 1 1" ]%string.

(** A file that declares size 2 and then, after a no-break space
    (U+00A0) and with the Arabic-Indic digit one (U+0661), size 1; the
    tokens of its one row are separated by no-break spaces and hold a
    literal beyond the doubles and an infinity. *)
Definition odd_cube : list Cube.str :=
  [ Cube.text "LUT_3D_SIZE 2";
    [160%N] ++ Cube.text "LUT_3D_SIZE " ++ [1633%N];
    Cube.text "0" ++ [160%N] ++ Cube.text "1e400" ++ [160%N] ++ Cube.text "-Inf";
    Cube.text "TITLE none" ].
(** A 2 by 2 frame of the dark gray 10. *)
Definition dark_frame : frame :=
  [[mkPixel 10 10 10; mkPixel 10 10 10]; [mkPixel 10 10 10; mkPixel 10 10 10]].

(** The state after [print(line)]. *)
Definition printing (g : state) (line : string) : state :=
  mkState (tape g) (pos g) (stdout g ++ [line]).

(** A tape that repeats one draw, and a tape that starts with the draws
    of a list and goes on with zeros. *)
Definition constant_tape (u : Q) : state :=
  mkState (fun _ => u) 0 [].

Definition tape_of (draws : list Q) : state :=
  mkState (fun n => nth n draws 0%Q) 0 [].

(** A one-row frame of five pixels, 1 to 5 in every channel. *)
Definition five_frame : frame :=
  [map (fun v => mkPixel v v v) [1; 2; 3; 4; 5]].

(** Kernels that hand their input back, and a world without files, for
    running the engine on examples. *)
Definition plain_kernels : Pillow.kernels :=
  Pillow.mkKernels (fun f _ _ => f) (fun _ _ p => p) (fun _ f => f).

Definition plain_world : ImageEffects.world :=
  ImageEffects.mkWorld plain_kernels (fun _ => None) plain_python (fun _ p => p).

(** The rows, the array and the table of [unit_cube]. *)
Definition unit_rows : list (list Q) :=
  [[0; 0; 0]; [1; 0; 0]; [0; 1; 0]; [1; 1; 0];
   [0; 0; 1]; [1; 0; 1]; [0; 1; 1]; [1; 1; 1]]%Q.

Definition unit_array : Cube.lut_array :=
  Cube.mkArray 2 (map Cube.Finite (concat unit_rows)).

Definition unit_table : Cube.lut_table := Cube.mkLut 2 (concat unit_rows).

(** The reading of dimension preservation for every effect that takes a
    level: whenever the effect returns, its result has the shape of its
    input. *)
Definition every_effect_keeps_shape : Prop :=
  forall (W : ImageEffects.world) (k : ImageEffects.effect_kind) (level : string)
         (img : frame) (h w : nat) (g : state) (img' : frame) (g' : state),
    has_shape h w img ->
    ImageEffects.apply_leveled W k img level g = Ok (img', g') ->
    has_shape h w img'.

(** A computation that returns in every state, with a result that
    satisfies [P]. *)
Definition returns {A : Type} (m : M A) (P : A -> Prop) : Prop :=
  forall g, exists a g', m g = Ok (a, g') /\ P a.

(** ** More of the video engine: the per-frame effects *)

Module VideoFrames.

Local Open Scope string_scope.
Local Open Scope list_scope.
Local Open Scope Z_scope.

(** [round(x)] of Python 3 on a float: to the nearest integer, a tie to
    the even one. *)
Definition py_round (x : Q) : Z :=
  let f := Qfloor x in
  let r := (x - inject_Z f)%Q in
  if Py.Qltb r (1 # 2) then f
  else if Py.Qltb (1 # 2) r then f + 1
  else if Z.even f then f else f + 1.

(** What the video effects take as given: the wave
    [np.sin(2 * np.pi * (freq * t + y / h))] of the rolling shutter, a
    value of [-1, 1], and the value the linear spline of SciPy's [zoom]
    gives at a position of its result. *)
Record kernels : Type := mkKernels {
  wave : Q -> Q -> nat -> nat -> Q;
  wave_range : forall freq t h y, (-1 <= wave freq t h y <= 1)%Q;
  zoom_value : frame -> Q -> nat -> nat -> pixel
}.

(** [zoom(frame, (z, z, 1), order=1)]: the result has the rounded scaled
    shape, [round(h * z)] rows of [round(w * z)] pixels. *)
Definition zoom_linear (K : kernels) (f : frame) (z : Q) : frame :=
  let zh := Z.to_nat (py_round (inject_Z (height f) * z)) in
  let zw := Z.to_nat (py_round (inject_Z (width f) * z)) in
  map (fun y => map (fun x => zoom_value K f z y x) (seq 0 zw)) (seq 0 zh).

(** *** Rolling shutter *)

(** [shift[y]], the cast to int of [intensity * np.sin(...)]. *)
Definition shutter_shift (K : kernels) (intensity freq t : Q) (h y : nat) : Z :=
  Py.trunc (intensity * wave K freq t h y)%Q.

(** [np.clip(cols + shift, 0, w - 1)[x]] *)
Definition shifted_col (w : Z) (shift : Z) (x : nat) : Z :=
  Z.min (Z.max (Z.of_nat x + shift) 0) (w - 1).

(** The per-frame [effect] of [apply_rolling_shutter]:
    [frame[np.arange(h)[:, np.newaxis], shifted_cols]]. *)
Definition rolling_shutter_frame (K : kernels) (level : string) (freq t : Q)
           (fr : frame) : frame :=
  let intensity := VideoEffects.level_param VideoEffects.RollingShutter level in
  let h := length fr in
  let w := width fr in
  Py.imap (fun y row =>
    Py.imap (fun x _ =>
      nth (Z.to_nat (shifted_col w (shutter_shift K intensity freq t h y) x)) row black)
      row) fr.

(** *** Ken Burns *)

(** [current_zoom] at time [t] of a clip of the given duration; a
    duration of zero divides by zero. *)
Definition current_zoom (zoom_factor t duration : Q) : result Q :=
  if Qeq_bool duration 0 then Raise ZeroDivisionError
  else Ok (1 + (zoom_factor - 1) * (t / duration))%Q.

(** The crop [zoomed[y0 : y0 + h, x0 : x0 + w, :]] of the centre. *)
Definition crop_center (zoomed : frame) (w h : Z) : frame :=
  let zh := height zoomed in
  let zw := width zoomed in
  let crop_x_start := (zw - w) / 2 in
  let crop_y_start := (zh - h) / 2 in
  map (fun row =>
         let n := Z.of_nat (length row) in
         Py.get_slice row (Py.slice_bound n crop_x_start)
                      (Py.slice_bound n (crop_x_start + w)))
      (Py.get_slice zoomed (Py.slice_bound zh crop_y_start)
                    (Py.slice_bound zh (crop_y_start + h))).

(** The per-frame [effect] of [apply_ken_burns] on a clip of size
    [(w, h)]; at a zoom factor of 1.0 the clip is returned as it is. *)
Definition ken_burns_frame (K : kernels) (level : string) (w h : Z) (duration t : Q)
           (fr : frame) : result frame :=
  let zoom_factor := VideoEffects.level_param VideoEffects.KenBurns level in
  if Qeq_bool zoom_factor 1 then Ok fr
  else
    match current_zoom zoom_factor t duration with
    | Raise e => Raise e
    | Ok z => Ok (crop_center (zoom_linear K fr z) w h)
    end.

(** *** VHS look *)

(** [vfx.colorx(clip, factor)] on one frame:
    [np.minimum(255, factor * pic).astype('uint8')]. *)
Definition colorx_value (factor : Q) (v : Z) : Z :=
  let x := (factor * inject_Z v)%Q in
  Py.float_astype_uint8 (if Py.Qltb 255 x then 255 else x).

Definition colorx (factor : Q) (fr : frame) : frame :=
  map_pixels (fun p => mkPixel (colorx_value factor (red p))
                               (colorx_value factor (green p))
                               (colorx_value factor (blue p))) fr.

(** One frame of the video engine's [apply_color_saturation], which is
    [clip.fx(vfx.colorx, factor)]. *)
Definition color_saturation_frame (level : string) (fr : frame) : frame :=
  colorx (VideoEffects.level_param VideoEffects.ColorSaturation level) fr.

(** [frame[lines, :, :] //= 2]: the rows whose index was drawn are
    halved, once however often the index was drawn. *)
Definition halve_pixel (p : pixel) : pixel :=
  mkPixel (red p / 2) (green p / 2) (blue p / 2).

Definition darken_lines (lines : list Z) (fr : frame) : frame :=
  Py.imap (fun y row =>
    if existsb (Z.eqb (Z.of_nat y)) lines then map halve_pixel row else row) fr.

(** [frame[:, :, 2] = np.roll(frame[:, :, 2], 2, axis=1)] *)
Definition shift_blue (fr : frame) : frame :=
  map (fun row =>
         map2 (fun p b => mkPixel (red p) (green p) b) row
              (Py.roll 2 (map blue row))) fr.

(** [for _ in range(n): draw()], collected. *)
Fixpoint drawM {A : Type} (n : nat) (draw : M A) : M (list A) :=
  match n with
  | O => ret []
  | S n' => (x <- draw ;; xs <- drawM n' draw ;; ret (x :: xs))%eff
  end.

(** [vhs_effect] *)
Definition vhs_effect (fr : frame) : M frame :=
  let h := height fr in
  (lines <- drawM (Z.to_nat (h / 20)) (Random.np_randint 0 h) ;;
   ret (shift_blue (darken_lines lines fr)))%eff.

(** One frame of [apply_vhs_look]: the colours scaled by 0.8, the
    [vhs_effect], then the glitch at its default level. *)
Definition vhs_look_frame (fr : frame) : M frame :=
  (fr1 <- vhs_effect (colorx (8 # 10) fr) ;;
   VideoEffects.glitch_frame "medium" fr1)%eff.

(** *** The effects the two engines share

    The per-frame [effect] of each of these methods of the video engine
    is the body of the image engine's method of the same name, with the
    same level map; the vignette builds its mask from the size of the
    clip, which is the size of its frames, and the look-up table parses
    its file once for the clip. *)

Definition chromatic_aberration_frame (level : string) (fr : frame) : frame :=
  ImageEffects.apply_chromatic_aberration fr level.

Definition film_grain_frame (level : string) (fr : frame) : M frame :=
  ImageEffects.apply_film_grain fr level.

Definition neon_glow_frame (level : string) (fr : frame) : M frame :=
  ImageEffects.apply_neon_glow fr level.

Definition cartoon_frame (W : ImageEffects.world) (level : string) (fr : frame)
  : M frame :=
  ImageEffects.apply_cartoon_painterly W fr level.

Definition vignette_frame (level : string) (fr : frame) : frame :=
  ImageEffects.apply_vignette fr level.

Definition lut_frame (W : ImageEffects.world) (cube_file_path : string) (fr : frame)
  : M frame :=
  ImageEffects.apply_lut W fr cube_file_path.

End VideoFrames.

(** ** More notions the statements use *)

(** Every draw of the tape lies in [0, 1). *)
Definition valid_tape (g : state) : Prop :=
  forall n, (0 <= tape g n)%Q /\ (tape g n < 1)%Q.

(** The state after [n] more draws. *)
Definition after_draws (n : nat) (g : state) : state :=
  mkState (tape g) (n + pos g) (stdout g).

(** A computation that, from a state with a valid tape, takes [n] draws
    and returns a result that satisfies [P]. *)
Definition returns_after {A : Type} (n : nat) (m : M A) (P : A -> Prop) : Prop :=
  forall g, valid_tape g ->
    exists a, m g = Ok (a, after_draws n g) /\ P a.

(** A computation raises in a state. *)
Definition raises_in {A : Type} (m : M A) (g : state) : Prop :=
  exists e, m g = Raise e.

(** The glow colour of [apply_neon_glow]. *)
Definition cyan : pixel := mkPixel 0 255 255.

(** A pixel without colour. *)
Definition gray_pixel (p : pixel) : Prop :=
  red p = green p /\ green p = blue p.

(** A relation between two pixels that holds channel by channel. *)
Definition channelwise (R : Z -> Z -> Prop) (p q : pixel) : Prop :=
  R (red p) (red q) /\ R (green p) (green q) /\ R (blue p) (blue q).

(** The reach of the film grain of strength [s]: from the value [v], an
    8-bit value no lower than the lowest noise takes it and no higher
    than the highest. *)
Definition grain_near (s : Q) (v out : Z) : Prop :=
  uint8 out
  /\ (inject_Z v - 25 * s - 1 < inject_Z out)%Q
  /\ (inject_Z out <= inject_Z v + 24 * s)%Q.

(** The value [v] moved away from [pivot], or kept, within 0..255. *)
Definition pushed_from (pivot v out : Z) : Prop :=
  uint8 out /\ (pivot <= v -> v <= out) /\ (v <= pivot -> out <= v).

(** The squared edge strength [apply_neon_glow] computes at pixel
    [(y, x)] of an image. *)
Definition neon_edge_sq (img : frame) (y x : nat) : Q :=
  ImageEffects.edge_sq (map (map ImageEffects.neon_gray) img)
                       (Z.of_nat y) (Z.of_nat x).


(** The one-row frame in which every pixel glows. *)
Definition glow_row : frame := [[cyan; cyan; cyan; cyan]].

(** Kernels of the video effects for running examples: a wave that
    stands at its crest, and a zoom that paints its canvas black. *)
Definition crest_kernels : VideoFrames.kernels.
Proof.
  refine (VideoFrames.mkKernels (fun _ _ _ _ => 1%Q) _ (fun _ _ _ _ => black)).
  intros _ _ _ _. split; discriminate.
Defined.

(** A frame of twenty rows of three pixels, the red of each pixel ten
    times its row, the green its column and the blue 100 plus ten times
    its column. *)
Definition tall_frame : frame :=
  map (fun y =>
         map (fun x => mkPixel (10 * Z.of_nat y) (Z.of_nat x) (100 + 10 * Z.of_nat x))
             (seq 0 3))
      (seq 0 20).

(** [vhs_effect], row by row: whether the index of a row was drawn, and
    the value a channel takes in that row. *)
Definition drawn (lines : list Z) (y : nat) : bool :=
  existsb (Z.eqb (Z.of_nat y)) lines.

Definition vhs_shade (dark : bool) (v : Z) : Z :=
  if dark then v / 2 else v.

(** A line the parser of .cube files passes over: blank, a comment, or a
    line that starts, after its blanks, with a character outside the
    class of a data row and is not a size line; so the keyword lines
    [TITLE], [DOMAIN_MIN], [DOMAIN_MAX] and [LUT_1D_SIZE]. *)
Definition passed_over (raw : Cube.str) : bool :=
  match Cube.strip raw with
  | [] => true
  | c :: rest =>
      N.eqb c (Cube.chr "#")
      || (negb (Cube.is_num_char c)
          && negb (Cube.startswith (c :: rest) (Cube.text "LUT_3D_SIZE")))
  end.

(** The file [unit_cube] with a title and a domain that ends at 2. *)
Definition domain_cube : list Cube.str :=
  map Cube.text
    [ "TITLE twice"; "LUT_3D_SIZE 2"; "DOMAIN_MIN 0.0 0.0 0.0";
      "DOMAIN_MAX 2.0 2.0 2.0";
      "0 0 0"; "1 0 0"; "0 1 0"; "1 1 0";
      "0 0 1"; "1 0 1"; "0 1 1"; "1 1 1" ]%string.

(** ** The handlers that build the effect chains *)

Module Handlers.

Local Open Scope string_scope.
Local Open Scope list_scope.

(** *** Text *)

(** [str.lower()] on the ASCII letters; the bytes of other characters,
    among them the degree sign and the signs of the keyboards, are kept,
    as Python keeps those characters. *)
Definition lower_char (c : ascii) : ascii :=
  let n := nat_of_ascii c in
  if ((65 <=? n) && (n <=? 90))%nat then ascii_of_nat (n + 32) else c.

Fixpoint lower (s : string) : string :=
  match s with
  | EmptyString => EmptyString
  | String c s' => String (lower_char c) (lower s')
  end.

(** [sub in s] *)
Fixpoint contains (sub s : string) : bool :=
  String.prefix sub s
  || match s with
     | EmptyString => false
     | String _ s' => contains sub s'
     end.

(** [s.endswith(suffix)] *)
Definition endswith (s suffix : string) : bool :=
  let n := String.length s in
  let m := String.length suffix in
  (m <=? n)%nat && String.eqb (String.substring (n - m) m s) suffix.

(** [is_video_file] of [handlers/common.py] *)
Definition is_video_file (path : string) : bool :=
  existsb (endswith (lower path)) [".mp4"; ".mov"; ".avi"; ".mkv"].

(** *** The conversation *)

(** [States] of [state_machine.py] *)
Inductive States : Type :=
| START
| AUTH_2FA
| AUTH_SMS
| MEDIA_TYPE
| RECEIVE_MEDIA
| CONFIRM
| ASK_IMAGE_WATERMARK
| RECEIVE_IMAGE_WATERMARK
| CHOOSE_IMG_WATERMARK_POSITION
| CHOOSE_IMG_WATERMARK_SCALE
| CHOOSE_IMG_WATERMARK_OPACITY
| CONFIRM_IMG_WATERMARK
| ASK_TEXT_WATERMARK
| RECEIVE_TEXT
| CHOOSE_FONT
| CHOOSE_FONT_SIZE
| CHOOSE_COLOR
| CHOOSE_TEXT_POSITION
| CONFIRM_TEXT_WATERMARK
| ASK_ADD_MUSIC
| RECEIVE_MUSIC
| RECEIVE_MUSIC_START_TIME
| CONFIRM_MUSIC
| COMBINE_CHANGES
| CONFIRM_COMBINED_MEDIA
| START_FINAL_PROCESSING
| CONFIRM_FINAL_MEDIA
| ASK_VIDEO_EFFECTS
| CHOOSE_EFFECTS
| CONFIRM_EFFECTS
| ASK_IMAGE_EFFECTS
| CHOOSE_IMAGE_EFFECTS
| CONFIRM_IMAGE_EFFECTS
| ASK_IMAGE_EFFECT_LEVEL
| ASK_LUT_TYPE
| RECEIVE_LUT_FILE
| BROWSE_VIDEO_LUTS
| ASK_IMAGE_LUT_TYPE
| RECEIVE_IMAGE_LUT_FILE
| BROWSE_IMAGE_LUTS
| ASK_CONTRAST_LEVEL
| ASK_SATURATION_LEVEL
| ASK_ABERRATION_LEVEL
| ASK_PIXELATE_LEVEL
| ASK_SPEED_LEVEL
| ASK_ROTATE_OPTION
| ASK_GRAIN_LEVEL
| ASK_KENBURNS_LEVEL
| ASK_GLITCH_LEVEL
| ASK_SHUTTER_LEVEL
| ASK_NEON_LEVEL
| ASK_CARTOON_LEVEL
| ASK_VIGNETTE_LEVEL
| ASK_FADE_DURATION
| ASK_RENDER_QUALITY
| CAPTION
| POST_MAX_VIDEO_EFFECTS_CHOICE
| POST_MAX_IMAGE_EFFECTS_CHOICE.

(** An entry of a selection: the name of an effect, or the pair of a name
    and its argument (a level, or the path of a .cube file). The handlers
    write nothing else into the lists they keep. *)
Inductive entry : Type :=
| Plain (name : string)
| WithParam (name param : string).

(** The entry as the engines read it. *)
Definition to_chain (e : entry) : chain_element :=
  match e with
  | Plain name => EString name
  | WithParam name param => ETuple [name; param]
  end.

(** [eff[0] if isinstance(eff, tuple) else eff] *)
Definition entry_name (e : entry) : string :=
  match e with
  | Plain name => name
  | WithParam name _ => name
  end.

(** The keys of [context.user_data] these handlers read and write; an
    absent key is [None]. *)
Record user_data : Type := mkUserData {
  selected_effects : option (list entry);
  selected_image_effects : option (list entry);
  current_effect_choice : option string;
  final_files : option (list string);
  final_files_with_effects : option (list string)
}.

(** [context.user_data.clear()] *)
Definition cleared : user_data := mkUserData None None None None None.

Definition with_selected (ud : user_data) (l : list entry) : user_data :=
  mkUserData (Some l) (selected_image_effects ud) (current_effect_choice ud)
             (final_files ud) (final_files_with_effects ud).

Definition with_image_selected (ud : user_data) (l : list entry) : user_data :=
  mkUserData (selected_effects ud) (Some l) (current_effect_choice ud)
             (final_files ud) (final_files_with_effects ud).

Definition with_current (ud : user_data) (c : option string) : user_data :=
  mkUserData (selected_effects ud) (selected_image_effects ud) c
             (final_files ud) (final_files_with_effects ud).

Definition with_final (ud : user_data) (l : list string) : user_data :=
  mkUserData (selected_effects ud) (selected_image_effects ud)
             (current_effect_choice ud) (Some l) (final_files_with_effects ud).

Definition with_final_effects (ud : user_data) (l : list string) : user_data :=
  mkUserData (selected_effects ud) (selected_image_effects ud)
             (current_effect_choice ud) (final_files ud) (Some l).

(** [context.user_data.get(key, [])] *)
Definition get_list {A : Type} (v : option (list A)) : list A :=
  match v with
  | Some l => l
  | None => []
  end.

(** [isinstance(eff, tuple) and eff[0] == name] *)
Definition is_tuple_named (name : string) (e : entry) : bool :=
  match e with
  | WithParam n _ => String.eqb n name
  | Plain _ => false
  end.

(** [eff == choice or (isinstance(eff, tuple) and eff[0] == choice)] *)
Definition matches (choice : string) (e : entry) : bool :=
  match e with
  | Plain n => String.eqb n choice
  | WithParam _ _ => false
  end
  || is_tuple_named choice e.

Definition is_empty {A : Type} (l : list A) : bool :=
  match l with
  | [] => true
  | _ => false
  end.

(** A handler gives the user data it leaves and the state it returns;
    the messages it sends are left out. *)
Definition outcome : Type := (user_data * States)%type.

(** [send_welcome_message], which [cancel] ends in: the user data are
    cleared. *)
Definition send_welcome_message (ud : user_data) : outcome := (cleared, MEDIA_TYPE).

Definition cancel (ud : user_data) : outcome := send_welcome_message ud.

Definition cancel_text : string := "❌ Cancel".
Definition reset_text : string := "🔄 Reset".

(** *** Video effects: [handlers/video_effects.py] *)

Definition _return_to_effects_menu (ud : user_data) : outcome := (ud, CHOOSE_EFFECTS).

Definition ask_video_effects (ud : user_data) : outcome :=
  match selected_effects ud with
  | None => _return_to_effects_menu (with_selected ud [])
  | Some _ => _return_to_effects_menu ud
  end.

Definition _ask_render_quality (ud : user_data) : outcome := (ud, ASK_RENDER_QUALITY).

(** The keys of [parameterized_effects] with the state each leads to. *)
Definition parameterized_effects : list (string * States) :=
  [ ("look-up table", ASK_LUT_TYPE);
    ("Ken Burns", ASK_KENBURNS_LEVEL);
    ("Contrast / Brightness", ASK_CONTRAST_LEVEL);
    ("Color Saturation", ASK_SATURATION_LEVEL);
    ("Chromatic Aberration", ASK_ABERRATION_LEVEL);
    ("Pixelated Effect", ASK_PIXELATE_LEVEL);
    ("Speed Control", ASK_SPEED_LEVEL);
    ("Rotate", ASK_ROTATE_OPTION);
    ("Film Grain", ASK_GRAIN_LEVEL);
    ("Glitch", ASK_GLITCH_LEVEL);
    ("Rolling Shutter", ASK_SHUTTER_LEVEL);
    ("Neon Glow", ASK_NEON_LEVEL);
    ("Cartoon / Painterly", ASK_CARTOON_LEVEL);
    ("Vignette", ASK_VIGNETTE_LEVEL);
    ("Fade In/Out", ASK_FADE_DURATION) ].

(** [choose_effects] *)
Definition choose_effects (choice : string) (ud : user_data) : outcome :=
  if String.eqb choice cancel_text then cancel ud
  else if String.eqb choice reset_text then _return_to_effects_menu (with_selected ud [])
  else
    let selected := get_list (selected_effects ud) in
    if contains "Done" choice then
      if is_empty selected then (ud, CAPTION) else _ask_render_quality ud
    else
      let ud :=
        if String.eqb choice "look-up table"
           && existsb (is_tuple_named "look-up table") selected
        then with_selected ud
               (filter (fun e => negb (is_tuple_named "look-up table" e)) selected)
        else ud in
      match Py.dict_lookup parameterized_effects choice with
      | Some state => (ud, state)
      | None =>
          if existsb (matches choice) selected then
            _return_to_effects_menu
              (with_selected ud (filter (fun e => negb (matches choice e)) selected))
          else if (length selected <? 3)%nat then
            let selected := selected ++ [Plain choice] in
            if (length selected =? 3)%nat
            then (with_selected ud selected, POST_MAX_VIDEO_EFFECTS_CHOICE)
            else _return_to_effects_menu (with_selected ud selected)
          else _return_to_effects_menu ud
      end.

(** The end that [level_setter], [browse_video_luts] and
    [receive_lut_file] share: the pair replaces the pair of that name, if
    the selection has room. *)
Definition add_parameterized (effect_name param : string) (ud : user_data) : outcome :=
  let selected := get_list (selected_effects ud) in
  let selected := filter (fun e => negb (is_tuple_named effect_name e)) selected in
  if (length selected <? 3)%nat then
    let selected := selected ++ [WithParam effect_name param] in
    if (length selected =? 3)%nat
    then (with_selected ud selected, POST_MAX_VIDEO_EFFECTS_CHOICE)
    else _return_to_effects_menu (with_selected ud selected)
  else _return_to_effects_menu ud.

(** [create_level_setter(effect_name, option_map, default_value)] *)
Definition create_level_setter (effect_name : string) (option_map : list (string * string))
           (default_value : string) (choice : string) (ud : user_data) : outcome :=
  let level := Py.dict_get option_map (lower choice) default_value in
  add_parameterized effect_name level ud.

Definition low_medium_high : list (string * string) :=
  [("Low", "low"); ("Medium", "medium"); ("High", "high")].

Definition set_contrast_level :=
  create_level_setter "Contrast / Brightness" low_medium_high "medium".
Definition set_saturation_level :=
  create_level_setter "Color Saturation" low_medium_high "medium".
Definition set_aberration_level :=
  create_level_setter "Chromatic Aberration" low_medium_high "medium".
Definition set_pixelate_level :=
  create_level_setter "Pixelated Effect" low_medium_high "medium".
Definition set_speed_level :=
  create_level_setter "Speed Control"
    [("1.25x", "low"); ("1.5x", "medium"); ("2.0x", "high")] "1.5x".
Definition set_rotate_option :=
  create_level_setter "Rotate"
    [("15°", "low"); ("45°", "medium"); ("90°", "high")] "90°".
Definition set_grain_level :=
  create_level_setter "Film Grain" low_medium_high "medium".
Definition set_glitch_level :=
  create_level_setter "Glitch" low_medium_high "medium".
Definition set_shutter_level :=
  create_level_setter "Rolling Shutter" low_medium_high "medium".
Definition set_neon_level :=
  create_level_setter "Neon Glow" low_medium_high "medium".
Definition set_cartoon_level :=
  create_level_setter "Cartoon / Painterly"
    [("Subtle", "low"); ("Normal", "medium"); ("Strong", "high")] "medium".
Definition set_vignette_level :=
  create_level_setter "Vignette" low_medium_high "medium".
Definition set_fade_duration :=
  create_level_setter "Fade In/Out"
    [("1.0s", "low"); ("1.5s", "medium"); ("2.0s", "high")] "1.5s".
Definition set_kenburns_level :=
  create_level_setter "Ken Burns" low_medium_high "medium".

(** The end of [browse_video_luts] once the file is found, and of
    [receive_lut_file] once the document is stored, with the path of the
    file. *)
Definition add_lut (lut_path : string) (ud : user_data) : outcome :=
  add_parameterized "look-up table" lut_path ud.

(** [handle_post_max_effects_choice] *)
Definition handle_post_max_effects_choice (choice : string) (ud : user_data) : outcome :=
  if contains "Start Processing" choice then _ask_render_quality ud
  else if contains "Reset Selection" choice
  then _return_to_effects_menu (with_selected ud [])
  else cancel ud.

(** What the handlers know of a run of an engine on a file: the path it
    returns, or nothing when it raises. The arguments are the index of
    the file, its path, the effects and the quality. *)
Definition runner : Type := nat -> string -> list chain_element -> string -> option string.

(** [process_and_confirm_effects]; [None] is the KeyError of an absent
    [final_files]. An absent [selected_effects] raises inside the [try],
    so the file is kept. *)
Definition process_and_confirm_effects (run : runner) (quality : string) (ud : user_data)
  : option outcome :=
  match final_files ud with
  | None => None
  | Some files =>
      let effects_applied_files :=
        Py.imap (fun i file_path =>
          if is_video_file file_path then
            match selected_effects ud with
            | Some effects =>
                match run i file_path (map to_chain effects) quality with
                | Some path => path
                | None => file_path
                end
            | None => file_path
            end
          else file_path) files in
      Some (with_final_effects ud effects_applied_files, CONFIRM_EFFECTS)
  end.

(** [handle_render_quality] *)
Definition handle_render_quality (run : runner) (choice : string) (ud : user_data)
  : option outcome :=
  let quality := if contains "Draft" choice then "draft" else "final" in
  process_and_confirm_effects run quality ud.

(** [handle_effects_confirmation]; [None] is the KeyError of an absent
    [final_files_with_effects]. *)
Definition handle_effects_confirmation (text : string) (ud : user_data) : option outcome :=
  if contains "Yes" text then
    match final_files_with_effects ud with
    | Some files => Some (with_final ud files, CAPTION)
    | None => None
    end
  else Some (_return_to_effects_menu (with_selected ud [])).

(** *** Image effects: [handlers/image_effects.py] *)

Definition _return_to_image_effects_menu (ud : user_data) : outcome :=
  (ud, CHOOSE_IMAGE_EFFECTS).

Definition ask_image_effects (ud : user_data) : outcome :=
  match selected_image_effects ud with
  | None => _return_to_image_effects_menu (with_image_selected ud [])
  | Some _ => _return_to_image_effects_menu ud
  end.

(** [process_and_confirm_image_effects]: the videos first, then the
    images, each replaced by the file the engine returns or kept when the
    engine raises. The quality is no argument of the image engine. *)
Definition process_and_confirm_image_effects (run : runner) (ud : user_data) : outcome :=
  let effects_to_apply := get_list (selected_image_effects ud) in
  let original_files := get_list (final_files ud) in
  let image_files := filter (fun f => negb (is_video_file f)) original_files in
  let video_files := filter is_video_file original_files in
  let new_final_files :=
    video_files
    ++ Py.imap (fun i file_path =>
         match run i file_path (map to_chain effects_to_apply) "" with
         | Some path => path
         | None => file_path
         end) image_files in
  (with_final_effects ud new_final_files, CONFIRM_IMAGE_EFFECTS).

Definition parameterized_image_effects : list (string * States) :=
  [ ("look-up table", ASK_IMAGE_LUT_TYPE);
    ("Color Saturation", ASK_IMAGE_EFFECT_LEVEL);
    ("Contrast / Brightness", ASK_IMAGE_EFFECT_LEVEL);
    ("Chromatic Aberration", ASK_IMAGE_EFFECT_LEVEL);
    ("Pixelated Effect", ASK_IMAGE_EFFECT_LEVEL);
    ("Film Grain", ASK_IMAGE_EFFECT_LEVEL);
    ("Glitch", ASK_IMAGE_EFFECT_LEVEL);
    ("Neon Glow", ASK_IMAGE_EFFECT_LEVEL);
    ("Cartoon / Painterly", ASK_IMAGE_EFFECT_LEVEL);
    ("Vignette", ASK_IMAGE_EFFECT_LEVEL);
    ("Rotate", ASK_IMAGE_EFFECT_LEVEL) ].

(** [choose_image_effects]. With a third effect the handler returns
    before it assigns the list; the list was appended to in place, which
    the user data see when they hold the list. *)
Definition choose_image_effects (run : runner) (choice : string) (ud : user_data)
  : outcome :=
  if String.eqb choice cancel_text then cancel ud
  else if String.eqb choice reset_text
  then _return_to_image_effects_menu (with_image_selected ud [])
  else
    let selected := get_list (selected_image_effects ud) in
    if contains "Done" choice then
      if is_empty selected then (ud, CAPTION)
      else process_and_confirm_image_effects run ud
    else
      let held := selected_image_effects ud in
      let ud :=
        if String.eqb choice "look-up table"
           && existsb (is_tuple_named "look-up table") selected
        then with_image_selected ud
               (filter (fun e => negb (is_tuple_named "look-up table" e)) selected)
        else ud in
      match Py.dict_lookup parameterized_image_effects choice with
      | Some state => (with_current ud (Some choice), state)
      | None =>
          if existsb (matches choice) selected then
            _return_to_image_effects_menu
              (with_image_selected ud (filter (fun e => negb (matches choice e)) selected))
          else if (length selected <? 3)%nat then
            let selected := selected ++ [Plain choice] in
            if (length selected =? 3)%nat
            then (match held with
                  | Some _ => with_image_selected ud selected
                  | None => ud
                  end, POST_MAX_IMAGE_EFFECTS_CHOICE)
            else _return_to_image_effects_menu (with_image_selected ud selected)
          else _return_to_image_effects_menu (with_image_selected ud selected)
      end.

(** The [level_map] of [set_image_effect_level] *)
Definition image_level_map : list (string * string) :=
  [ ("low", "low"); ("medium", "medium"); ("high", "high");
    ("15°", "low"); ("45°", "medium"); ("90°", "high") ].

(** The end that [set_image_effect_level], [browse_image_luts] and
    [receive_image_lut_file] share. *)
Definition add_image_parameterized (effect_name param : string) (ud : user_data)
  : user_data * option States :=
  let selected := get_list (selected_image_effects ud) in
  let selected := filter (fun e => negb (is_tuple_named effect_name e)) selected in
  if (length selected <? 3)%nat then
    let selected := selected ++ [WithParam effect_name param] in
    if (length selected =? 3)%nat
    then (with_image_selected ud selected, Some POST_MAX_IMAGE_EFFECTS_CHOICE)
    else (with_image_selected ud selected, None)
  else (ud, None).

(** [set_image_effect_level]: a reply outside the map, or no effect
    waiting for its level, leaves the selection as it is. *)
Definition set_image_effect_level (choice : string) (ud : user_data) : outcome :=
  let effect_name := current_effect_choice ud in
  let level := Py.dict_lookup image_level_map (lower choice) in
  match level, effect_name with
  | Some level, Some effect_name =>
      if is_empty (list_ascii_of_string level) || is_empty (list_ascii_of_string effect_name)
      then _return_to_image_effects_menu ud
      else
        match add_image_parameterized effect_name level ud with
        | (ud, Some state) => (ud, state)
        | (ud, None) => _return_to_image_effects_menu (with_current ud None)
        end
  | _, _ => _return_to_image_effects_menu ud
  end.

(** The end of [browse_image_luts] and of [receive_image_lut_file]. *)
Definition add_image_lut (lut_path : string) (ud : user_data) : outcome :=
  match add_image_parameterized "look-up table" lut_path ud with
  | (ud, Some state) => (ud, state)
  | (ud, None) => _return_to_image_effects_menu ud
  end.

(** [handle_post_max_image_effects_choice] *)
Definition handle_post_max_image_effects_choice (run : runner) (choice : string)
           (ud : user_data) : outcome :=
  if contains "Start Processing" choice then process_and_confirm_image_effects run ud
  else if contains "Reset Selection" choice
  then _return_to_image_effects_menu (with_image_selected ud [])
  else cancel ud.

(** [handle_image_effects_confirmation]; [None] is the KeyError of an
    absent [final_files_with_effects]. *)
Definition handle_image_effects_confirmation (text : string) (ud : user_data)
  : option outcome :=
  if contains "Yes" text then
    match final_files_with_effects ud with
    | Some files => Some (with_final ud files, CAPTION)
    | None => None
    end
  else Some (ask_image_effects (with_image_selected ud [])).

End Handlers.

(** ** Notions the statements on the handlers use *)

(** The level setters of the video menu whose keyboards show
    capitalised words, with the names of their effects. *)
Definition capitalised_setters
  : list (string * (string -> Handlers.user_data -> Handlers.outcome)) :=
  [ ("Contrast / Brightness", Handlers.set_contrast_level);
    ("Color Saturation", Handlers.set_saturation_level);
    ("Chromatic Aberration", Handlers.set_aberration_level);
    ("Pixelated Effect", Handlers.set_pixelate_level);
    ("Film Grain", Handlers.set_grain_level);
    ("Glitch", Handlers.set_glitch_level);
    ("Rolling Shutter", Handlers.set_shutter_level);
    ("Neon Glow", Handlers.set_neon_level);
    ("Cartoon / Painterly", Handlers.set_cartoon_level);
    ("Vignette", Handlers.set_vignette_level);
    ("Ken Burns", Handlers.set_kenburns_level) ]%string.

(** The level setters of the video menu. *)
Inductive video_setter : Type :=
| ForContrast | ForSaturation | ForAberration | ForPixelate | ForSpeed
| ForRotate | ForGrain | ForGlitch | ForShutter | ForNeon | ForCartoon
| ForVignette | ForFade | ForKenBurns.

Definition setter_handler (s : video_setter)
  : string -> Handlers.user_data -> Handlers.outcome :=
  match s with
  | ForContrast => Handlers.set_contrast_level
  | ForSaturation => Handlers.set_saturation_level
  | ForAberration => Handlers.set_aberration_level
  | ForPixelate => Handlers.set_pixelate_level
  | ForSpeed => Handlers.set_speed_level
  | ForRotate => Handlers.set_rotate_option
  | ForGrain => Handlers.set_grain_level
  | ForGlitch => Handlers.set_glitch_level
  | ForShutter => Handlers.set_shutter_level
  | ForNeon => Handlers.set_neon_level
  | ForCartoon => Handlers.set_cartoon_level
  | ForVignette => Handlers.set_vignette_level
  | ForFade => Handlers.set_fade_duration
  | ForKenBurns => Handlers.set_kenburns_level
  end.

(** What a user can make the video menu do: each event is a handler
    with the text or the path it receives. *)
Inductive video_event : Type :=
| VAsk
| VChoose (choice : string)
| VSetLevel (s : video_setter) (choice : string)
| VAddLut (lut_path : string)
| VPostMax (choice : string)
| VRender (choice : string)
| VConfirm (text : string)
| VCancel.

(** The user data a handler leaves; a handler that raises leaves them
    as they were. *)
Definition left_by (ud : Handlers.user_data) (o : option Handlers.outcome)
  : Handlers.user_data :=
  match o with
  | Some (ud', _) => ud'
  | None => ud
  end.

Definition video_handle (run : Handlers.runner) (ud : Handlers.user_data)
           (ev : video_event) : Handlers.user_data :=
  match ev with
  | VAsk => fst (Handlers.ask_video_effects ud)
  | VChoose choice => fst (Handlers.choose_effects choice ud)
  | VSetLevel s choice => fst (setter_handler s choice ud)
  | VAddLut lut_path => fst (Handlers.add_lut lut_path ud)
  | VPostMax choice => fst (Handlers.handle_post_max_effects_choice choice ud)
  | VRender choice => left_by ud (Handlers.handle_render_quality run choice ud)
  | VConfirm text => left_by ud (Handlers.handle_effects_confirmation text ud)
  | VCancel => fst (Handlers.cancel ud)
  end.

(** The events of the image menu. *)
Inductive image_event : Type :=
| IAsk
| IChoose (choice : string)
| ISetLevel (choice : string)
| IAddLut (lut_path : string)
| IPostMax (choice : string)
| IConfirm (text : string)
| ICancel.

Definition image_handle (run : Handlers.runner) (ud : Handlers.user_data)
           (ev : image_event) : Handlers.user_data :=
  match ev with
  | IAsk => fst (Handlers.ask_image_effects ud)
  | IChoose choice => fst (Handlers.choose_image_effects run choice ud)
  | ISetLevel choice => fst (Handlers.set_image_effect_level choice ud)
  | IAddLut lut_path => fst (Handlers.add_image_lut lut_path ud)
  | IPostMax choice => fst (Handlers.handle_post_max_image_effects_choice run choice ud)
  | IConfirm text => left_by ud (Handlers.handle_image_effects_confirmation text ud)
  | ICancel => fst (Handlers.cancel ud)
  end.

(** A selection the menus promise: three effects at most, none twice. *)
Definition selection_ok (l : list Handlers.entry) : Prop :=
  (length l <= 3)%nat /\ NoDup (map Handlers.entry_name l).

(** An ASCII capital, and a string that holds one. *)
Definition is_upper_char (c : ascii) : bool :=
  let n := nat_of_ascii c in ((65 <=? n) && (n <=? 90))%nat.

Fixpoint has_upper (s : string) : bool :=
  match s with
  | EmptyString => false
  | String c s' => is_upper_char c || has_upper s'
  end.

(** An entry fits a menu when a name alone is no key of the effects that
    take an argument there, and the name of a pair is one. *)
Definition entry_fits (keys : list (string * Handlers.States)) (e : Handlers.entry)
  : Prop :=
  match e with
  | Handlers.Plain n => Py.dict_lookup keys n = None
  | Handlers.WithParam n _ => Py.dict_lookup keys n <> None
  end.

(** A selection in order for a menu. *)
Definition good (keys : list (string * Handlers.States)) (l : list Handlers.entry)
  : Prop :=
  selection_ok l /\ Forall (entry_fits keys) l.

(** The events of the two menus, in any order. *)
Inductive menu_event : Type :=
| OfVideo (ev : video_event)
| OfImage (ev : image_event).

Definition menu_handle (run : Handlers.runner) (ud : Handlers.user_data)
           (ev : menu_event) : Handlers.user_data :=
  match ev with
  | OfVideo ev => video_handle run ud ev
  | OfImage ev => image_handle run ud ev
  end.

(** The user data after a run of events of the menus. *)
Definition after_events (run : Handlers.runner) (evs : list menu_event)
           (ud : Handlers.user_data) : Handlers.user_data :=
  fold_left (menu_handle run) evs ud.

(** What the menus keep true of the user data. *)
Definition menus_inv (ud : Handlers.user_data) : Prop :=
  good Handlers.parameterized_effects (Handlers.get_list (Handlers.selected_effects ud))
  /\ good Handlers.parameterized_image_effects
          (Handlers.get_list (Handlers.selected_image_effects ud))
  /\ forall c, Handlers.current_effect_choice ud = Some c ->
               Py.dict_lookup Handlers.parameterized_image_effects c <> None.

(** A result that is a TypeError, which Python raises when a call does
    not fit the parameters of a function. *)
Definition raises_type_error {A : Type} (r : result A) : Prop :=
  exists msg, r = Raise (TypeError msg).

(** A computation that raises no TypeError. *)
Definition fits {A : Type} (m : M A) : Prop :=
  forall g, ~ raises_type_error (m g).

(** The identity table of size [n] in the order of the .cube format: one
    row for each node, the red index changing fastest and the blue index
    slowest, each row the red, green and blue of its node. *)
Definition identity_row (n : Z) (idx : nat) : list Q :=
  let r := (Z.of_nat idx) mod n in
  let g := (Z.of_nat idx / n) mod n in
  let b := Z.of_nat idx / (n * n) in
  [Cube.grid_point n r; Cube.grid_point n g; Cube.grid_point n b].

Definition identity_cube (n : Z) : Cube.lut_table :=
  Cube.mkLut n (concat (map (identity_row n) (seq 0 (Z.to_nat (n * n * n))))).

(** The video selection holds a pair for the effect [name]. *)
Definition has_pair (name : string) (ud : Handlers.user_data) : bool :=
  existsb (Handlers.is_tuple_named name)
          (Handlers.get_list (Handlers.selected_effects ud)).

(** The events of the video menu short of a reset, a cancellation and
    the steps after the selection is closed. *)
Definition keeps_selection (ev : video_event) : bool :=
  match ev with
  | VChoose choice =>
      negb (String.eqb choice Handlers.cancel_text)
      && negb (String.eqb choice Handlers.reset_text)
  | VAsk | VSetLevel _ _ | VAddLut _ | VRender _ => true
  | VPostMax _ | VConfirm _ | VCancel => false
  end.

(** The user data after a run of events of the video menu. *)
Definition after_video_events (run : Handlers.runner) (evs : list video_event)
           (ud : Handlers.user_data) : Handlers.user_data :=
  fold_left (video_handle run) evs ud.

(** * Properties *)

(** ** Lists, rolls and channel arrays *)

Section ListFacts.

Context {A : Type}.

Lemma roll_nil (k : Z) : Py.roll k (@nil A) = [].
Proof.
  unfold Py.roll. cbn [length]. rewrite skipn_nil, firstn_nil. reflexivity.
Qed.

Lemma roll_length (k : Z) (a : list A) : length (Py.roll k a) = length a.
Proof.
  unfold Py.roll.
  rewrite length_app, length_skipn, length_firstn. lia.
Qed.

(** Element [i] of a rolled array is element [(i - k) mod n] of the
    array. *)
Lemma roll_nth (k : Z) (a : list A) (i : nat) (d : A) :
  (i < length a)%nat ->
  nth i (Py.roll k a) d
  = nth (Z.to_nat ((Z.of_nat i - k) mod Z.of_nat (length a))) a d.
Proof.
  intros Hi. unfold Py.roll.
  set (n := Z.of_nat (length a)).
  assert (Hn : 0 < n) by (unfold n; lia).
  destruct (Z.eqb_spec n 0) as [E | _]; [lia |].
  pose proof (Z.mod_pos_bound k n Hn) as Ho.
  set (o := k mod n) in *.
  assert (Hmod : (Z.of_nat i - k) mod n = (Z.of_nat i - o) mod n).
  { unfold o. now rewrite Zminus_mod_idemp_r. }
  rewrite Hmod.
  destruct (Z_lt_le_dec (Z.of_nat i) o) as [Hlt | Hge].
  - rewrite app_nth1 by (rewrite length_skipn; lia).
    rewrite nth_skipn. f_equal.
    assert (E : (Z.of_nat i - o) mod n = Z.of_nat i - o + n).
    { symmetry. apply Z.mod_unique with (q := -1); lia. }
    rewrite E. lia.
  - rewrite app_nth2 by (rewrite length_skipn; lia).
    rewrite length_skipn.
    assert (E : (Z.of_nat i - o) mod n = Z.of_nat i - o).
    { apply Z.mod_small. lia. }
    rewrite E.
    rewrite nth_firstn.
    replace (i - (length a - Z.to_nat (n - o)))%nat with (Z.to_nat (Z.of_nat i - o)) by lia.
    destruct (Nat.ltb_spec (Z.to_nat (Z.of_nat i - o)) (Z.to_nat (n - o))); [reflexivity | lia].
Qed.

End ListFacts.

Lemma stack_row_red (r g b : list Z) :
  length g = length r -> length b = length r ->
  map red (stack_row r g b) = r.
Proof.
  revert g b. induction r as [| x r IH]; intros [| y g] [| z b]; cbn; intros Hg Hb;
    try reflexivity; try discriminate.
  f_equal. apply IH; congruence.
Qed.

Lemma stack_row_green (r g b : list Z) :
  length r = length g -> length b = length g ->
  map green (stack_row r g b) = g.
Proof.
  revert r b. induction g as [| y g IH]; intros [| x r] [| z b]; cbn; intros Hr Hb;
    try reflexivity; try discriminate.
  f_equal. apply IH; congruence.
Qed.

Lemma stack_row_blue (r g b : list Z) :
  length r = length b -> length g = length b ->
  map blue (stack_row r g b) = b.
Proof.
  revert r g. induction b as [| z b IH]; intros [| x r] [| y g]; cbn; intros Hr Hg;
    try reflexivity; try discriminate.
  f_equal. apply IH; congruence.
Qed.

Lemma astype_uint8_id (v : Z) : uint8 v -> Py.astype_uint8 v = v.
Proof. unfold uint8, Py.astype_uint8. intros H. now apply Z.mod_small. Qed.

(** The three channels of the aberration, row by row. *)
Lemma aberration_channels (img : frame) (level : string) :
  let s := ImageEffects.aberration_shift level in
  let out := ImageEffects.apply_chromatic_aberration img level in
  channel red out = map (fun row => map Py.astype_uint8 (Py.roll (- s) (map red row))) img
  /\ channel green out = map (fun row => map Py.astype_uint8 (map green row)) img
  /\ channel blue out = map (fun row => map Py.astype_uint8 (Py.roll s (map blue row))) img.
Proof.
  cbv zeta. unfold ImageEffects.apply_chromatic_aberration, channel, map_pixels, Py.roll_axis1.
  generalize (ImageEffects.aberration_shift level) as s. intros s.
  induction img as [| row img IH]; [cbn; auto |].
  destruct IH as (IHr & IHg & IHb).
  cbn [map stack3].
  repeat split; f_equal; auto.
  - rewrite map_map. cbn [pixel_astype_uint8 red].
    rewrite <- (map_map red Py.astype_uint8). f_equal.
    apply stack_row_red; rewrite ?roll_length, ?length_map; reflexivity.
  - rewrite map_map. cbn [pixel_astype_uint8 green].
    rewrite <- (map_map green Py.astype_uint8). f_equal.
    apply stack_row_green; rewrite ?roll_length, ?length_map; reflexivity.
  - rewrite map_map. cbn [pixel_astype_uint8 blue].
    rewrite <- (map_map blue Py.astype_uint8). f_equal.
    apply stack_row_blue; rewrite ?roll_length, ?length_map; reflexivity.
Qed.

Lemma map_id_on {A : Type} (f : A -> A) (l : list A) :
  Forall (fun x => f x = x) l -> map f l = l.
Proof.
  induction 1; cbn; congruence.
Qed.

Lemma uint8_row_channel (c : pixel -> Z) (row : list pixel) :
  (forall p, uint8_pixel p -> uint8 (c p)) ->
  Forall uint8_pixel row -> Forall uint8 (map c row).
Proof.
  intros Hc H. induction H; cbn; constructor; auto.
Qed.

(** C9. For every uint8 frame and every level string, the green channel
    of the result of the Chromatic Aberration effect is the green channel
    of the input, pixel for pixel: the effect touches the red and the blue
    channel only. *)
Theorem aberration_keeps_green (img : frame) (level : string) :
  uint8_frame img ->
  channel green (ImageEffects.apply_chromatic_aberration img level)
  = channel green img.
Proof.
  intros Hu.
  destruct (aberration_channels img level) as (_ & Hg & _).
  rewrite Hg. clear Hg. unfold channel.
  induction Hu as [| row img Hrow Himg IH]; [reflexivity |].
  cbn [map]. f_equal; [| exact IH].
  apply map_id_on.
  assert (Hc : Forall uint8 (map green row)).
  { apply uint8_row_channel; [| exact Hrow]. now intros p (_ & H & _). }
  eapply Forall_impl; [| exact Hc].
  intros v Hv. now apply astype_uint8_id.
Qed.

(** ** Shapes *)

Section Shapes.

Context {A B : Type}.

Lemma has_shape_map (F : list A -> list B) (h w : nat) (f : list (list A)) :
  (forall row, length (F row) = length row) ->
  has_shape h w f -> has_shape h w (map F f).
Proof.
  intros HF [Hh Hw]. split; [now rewrite length_map |].
  apply Forall_map. eapply Forall_impl; [| exact Hw].
  intros row Hrow. cbn. now rewrite HF.
Qed.

Lemma imap_from_length (F : nat -> A -> B) (l : list A) (i : nat) :
  length (Py.imap_from i F l) = length l.
Proof.
  revert i. induction l as [| x l IH]; intros i; cbn; [reflexivity | now rewrite IH].
Qed.

Lemma imap_length (F : nat -> A -> B) (l : list A) :
  length (Py.imap F l) = length l.
Proof. apply imap_from_length. Qed.

Lemma imap_from_Forall (P : A -> Prop) (R : B -> Prop) (F : nat -> A -> B)
      (l : list A) (i : nat) :
  (forall j x, P x -> R (F j x)) ->
  Forall P l -> Forall R (Py.imap_from i F l).
Proof.
  intros HF H. revert i. induction H; intros i; cbn; constructor; auto.
Qed.

End Shapes.

Lemma has_shape_imap {A B : Type} (F : nat -> list A -> list B) (h w : nat)
      (f : list (list A)) :
  (forall y row, length (F y row) = length row) ->
  has_shape h w f -> has_shape h w (Py.imap F f).
Proof.
  intros HF [Hh Hw]. split; [now rewrite imap_length |].
  unfold Py.imap. eapply imap_from_Forall; [| exact Hw].
  intros j row Hrow. cbn in *. now rewrite HF.
Qed.

Lemma map2_length {A B C : Type} (fn : A -> B -> C) (a : list A) (b : list B) :
  length b = length a -> length (map2 fn a b) = length a.
Proof.
  revert b. induction a as [| x a IH]; intros [| y b]; cbn; intros H;
    try reflexivity; try discriminate.
  f_equal. apply IH. congruence.
Qed.

Lemma has_shape_map2 (fn : pixel -> pixel -> pixel) (h w : nat) (a b : frame) :
  has_shape h w a -> has_shape h w b ->
  has_shape h w (map2 (map2 fn) a b).
Proof.
  intros [Ha Hra] [Hb Hrb]. split.
  - rewrite map2_length; congruence.
  - clear Ha Hb h. revert b Hrb.
    induction Hra as [| ra a Hlen _ IH]; intros b Hrb; [constructor |].
    destruct Hrb as [| rb b Hlenb Hrb]; [constructor |].
    cbn [map2]. constructor; [| now apply IH].
    rewrite map2_length; congruence.
Qed.

Lemma has_shape_blend (h w : nat) (a b : frame) (alpha : Q) :
  has_shape h w a -> has_shape h w b -> has_shape h w (Pillow.blend a b alpha).
Proof.
  intros Ha Hb. unfold Pillow.blend.
  destruct (Qeq_bool alpha 0); [exact Ha |].
  destruct (Qeq_bool alpha 1); [exact Hb |].
  now apply has_shape_map2.
Qed.

Lemma has_shape_map_pixels (fn : pixel -> pixel) (h w : nat) (f : frame) :
  has_shape h w f -> has_shape h w (map_pixels fn f).
Proof.
  apply has_shape_map. intros row. apply length_map.
Qed.

Lemma width_of_shape (h w : nat) (f : frame) :
  has_shape h w f -> (0 < h)%nat -> width f = Z.of_nat w /\ height f = Z.of_nat h.
Proof.
  intros [Hh Hw] Hpos. unfold width, height. split; [| now rewrite Hh].
  destruct f as [| row f]; [cbn in Hh; lia |].
  inversion Hw; subst. reflexivity.
Qed.

Lemma concat_nonempty {A : Type} (h w : nat) (f : list (list A)) :
  has_shape h w f -> (0 < h)%nat -> (0 < w)%nat -> concat f <> [].
Proof.
  intros [Hh Hw] Hh0 Hw0.
  destruct f as [| row f]; [cbn in Hh; lia |].
  inversion Hw as [| ? ? Hrow _]; subst.
  destruct row; [cbn in Hw0; lia | discriminate].
Qed.


Lemma uint8_nth (l : list Z) (i : nat) : Forall uint8 l -> uint8 (nth i l 0).
Proof.
  intros H. destruct (Nat.lt_ge_cases i (length l)) as [Hi | Hi].
  - rewrite Forall_forall in H. apply H. now apply nth_In.
  - rewrite nth_overflow by exact Hi. unfold uint8. lia.
Qed.

Lemma shape_row (h w : nat) (img : frame) (y : nat) :
  has_shape h w img -> (y < h)%nat -> length (nth y img []) = w.
Proof.
  intros [Hh Hw] Hy. rewrite Forall_forall in Hw. apply Hw.
  apply nth_In. lia.
Qed.

Lemma uint8_frame_row (img : frame) (y : nat) :
  uint8_frame img -> Forall uint8_pixel (nth y img []).
Proof.
  intros H. destruct (Nat.lt_ge_cases y (length img)) as [Hy | Hy].
  - unfold uint8_frame in H. rewrite Forall_forall in H. apply H. now apply nth_In.
  - rewrite nth_overflow by exact Hy. constructor.
Qed.

(** Reading a channel array that was built row by row. *)
Lemma value_at_rows (F : list pixel -> list Z) (img : frame) (y x : nat) :
  (y < length img)%nat ->
  value_at (map F img) y x = nth x (F (nth y img [])) 0.
Proof.
  intros Hy. unfold value_at.
  rewrite (nth_indep _ [] (F [])) by (rewrite length_map; exact Hy).
  now rewrite map_nth.
Qed.

Lemma nth_map_astype (l : list Z) (x : nat) :
  Forall uint8 l -> nth x (map Py.astype_uint8 l) 0 = nth x l 0.
Proof.
  intros H. change 0 with (Py.astype_uint8 0) at 1.
  rewrite map_nth. apply astype_uint8_id. now apply uint8_nth.
Qed.

Lemma Forall_roll {A : Type} (P : A -> Prop) (k : Z) (l : list A) :
  Forall P l -> Forall P (Py.roll k l).
Proof.
  intros H. unfold Py.roll.
  set (m := Z.to_nat _).
  rewrite <- (firstn_skipn m l) in H. apply Forall_app in H.
  apply Forall_app. tauto.
Qed.

Lemma aberration_shift_levels :
  ImageEffects.aberration_shift "low" = 3
  /\ ImageEffects.aberration_shift "medium" = 6
  /\ ImageEffects.aberration_shift "high" = 10.
Proof. repeat split. Qed.

(** C1, as the code has it. For every uint8 frame of [h] rows and [w]
    columns and every level (shift 3, 6 or 10 for low, medium, high), the
    Chromatic Aberration effect rotates the red channel [shift] columns to
    the left and the blue channel [shift] columns to the right, cyclically:
    red at column [x] of the result is red at column [(x + shift) mod w]
    of the input, blue at column [x] is blue at column [(x - shift) mod w].
    The columns shifted in wrap around from the opposite edge: when
    [shift <= w], each of the rightmost [shift] columns of the shifted red
    channel is the column [x - (w - shift)] of the input, one of its
    leftmost [shift] columns. *)
Theorem aberration_rolls_channels
  (img : frame) (level : string) (h w y x : nat) :
  has_shape h w img -> uint8_frame img ->
  (y < h)%nat -> (x < w)%nat ->
  let s := ImageEffects.aberration_shift level in
  let out := ImageEffects.apply_chromatic_aberration img level in
  (ImageEffects.aberration_shift "low" = 3
   /\ ImageEffects.aberration_shift "medium" = 6
   /\ ImageEffects.aberration_shift "high" = 10)
  /\ value_at (channel red out) y x
     = value_at (channel red img) y (Z.to_nat ((Z.of_nat x + s) mod Z.of_nat w))
  /\ value_at (channel blue out) y x
     = value_at (channel blue img) y (Z.to_nat ((Z.of_nat x - s) mod Z.of_nat w))
  /\ (0 <= s <= Z.of_nat w -> Z.of_nat w - s <= Z.of_nat x ->
      value_at (channel red out) y x
      = value_at (channel red img) y (x - (w - Z.to_nat s))).
Proof.
  intros Hshape Hu Hy Hx s out.
  split; [exact aberration_shift_levels |].
  destruct (aberration_channels img level) as (Hr & _ & Hb).
  fold s in Hr, Hb. fold out in Hr, Hb.
  pose proof (shape_row h w img y Hshape Hy) as Hlen.
  pose proof (uint8_frame_row img y Hu) as Hrow.
  assert (Hyl : (y < length img)%nat) by (destruct Hshape; lia).
  assert (Hred : value_at (channel red out) y x
                 = value_at (channel red img) y
                     (Z.to_nat ((Z.of_nat x + s) mod Z.of_nat w))).
  { rewrite Hr. unfold channel. rewrite !value_at_rows by exact Hyl.
    rewrite nth_map_astype.
    - rewrite roll_nth by (rewrite length_map; lia).
      rewrite length_map, Hlen.
      now replace (Z.of_nat x - - s) with (Z.of_nat x + s) by lia.
    - apply Forall_roll. apply uint8_row_channel; [| exact Hrow].
      now intros p (H & _). }
  split; [exact Hred |]. split.
  - rewrite Hb. unfold channel. rewrite !value_at_rows by exact Hyl.
    rewrite nth_map_astype.
    + rewrite roll_nth by (rewrite length_map; lia).
      now rewrite length_map, Hlen.
    + apply Forall_roll. apply uint8_row_channel; [| exact Hrow].
      now intros p (_ & _ & H).
  - intros Hs Hright. rewrite Hred. f_equal.
    assert (E : (Z.of_nat x + s) mod Z.of_nat w = Z.of_nat x + s - Z.of_nat w).
    { symmetry. apply Z.mod_unique with (q := 1); lia. }
    rewrite E. lia.
Qed.

Lemma ramp_frame_shape : has_shape 1 4 ramp_frame.
Proof. split; [reflexivity | repeat constructor]. Qed.

Lemma ramp_frame_uint8 : uint8_frame ramp_frame.
Proof. repeat constructor; unfold uint8; cbn; lia. Qed.

(** The theorem at the ramp frame, level low, last column: the red value
    there is the 3 of the input's third column. *)
Lemma aberration_rolls_channels_witness :
  value_at (channel red (ImageEffects.apply_chromatic_aberration ramp_frame "low")) 0 3
  = value_at (channel red ramp_frame) 0 2.
Proof.
  apply (aberration_rolls_channels ramp_frame "low" 1 4 0 3
           ramp_frame_shape ramp_frame_uint8); cbn; lia.
Defined.

(** C1, as stated, fails: on the ramp frame at level low the last column
    of the shifted red channel holds 3, the red of the input's third
    column, not black. *)
Lemma aberration_fills_black_fails : ~ aberration_fills_black.
Proof.
  intros H.
  specialize (H ramp_frame "low"%string 1%nat 4%nat 0%nat 3%nat
                ramp_frame_shape ramp_frame_uint8).
  assert (Hk : known_level "low") by (left; reflexivity).
  assert (Hy : (0 < 1)%nat) by lia.
  assert (Hx : (3 < 4)%nat) by lia.
  specialize (H Hk Hy Hx).
  assert (Hs : Z.of_nat 4 - ImageEffects.aberration_shift "low" <= Z.of_nat 3)
    by (change (ImageEffects.aberration_shift "low") with 3; lia).
  specialize (H Hs).
  discriminate H.
Qed.

(** ** Invert *)

Lemma invert_lut_nth (v : Z) :
  uint8 v -> nth (Z.to_nat v) Pillow.invert_lut 0 = 255 - v.
Proof.
  intros Hv. unfold uint8 in Hv. unfold Pillow.invert_lut.
  rewrite (nth_indep _ 0 ((fun i => 255 - Z.of_nat i) 0%nat))
    by (rewrite length_map, length_seq; lia).
  rewrite (map_nth (fun i => 255 - Z.of_nat i)).
  rewrite seq_nth by lia. lia.
Qed.

Lemma point_invert (p : pixel) :
  uint8_pixel p -> Pillow.point Pillow.invert_lut p = invert_pixel p.
Proof.
  intros (Hr & Hg & Hb). unfold Pillow.point, invert_pixel.
  now rewrite !invert_lut_nth.
Qed.

Lemma map_pixels_ext_on (P : pixel -> Prop) (f g : pixel -> pixel) (F : frame) :
  (forall p, P p -> f p = g p) ->
  Forall (Forall P) F -> map_pixels f F = map_pixels g F.
Proof.
  intros Hfg H. unfold map_pixels.
  induction H as [| row F Hrow _ IH]; [reflexivity |].
  cbn [map]. f_equal; [| exact IH].
  induction Hrow as [| p row Hp _ IHrow]; [reflexivity |].
  cbn [map]. f_equal; auto.
Qed.

Lemma invert_pixel_uint8 (p : pixel) : uint8_pixel p -> uint8_pixel (invert_pixel p).
Proof.
  destruct p as [r g b]. unfold uint8_pixel, uint8, invert_pixel.
  cbn [red green blue]. lia.
Qed.

Lemma uint8_frame_map (f : pixel -> pixel) (F : frame) :
  (forall p, uint8_pixel p -> uint8_pixel (f p)) ->
  uint8_frame F -> uint8_frame (map_pixels f F).
Proof.
  intros Hf H. unfold uint8_frame, map_pixels in *.
  induction H as [| row F Hrow _ IH]; cbn [map]; constructor; [| exact IH].
  induction Hrow; cbn [map]; constructor; auto.
Qed.

(** C7. On every uint8 frame the Invert effect maps each channel value
    [v] of each pixel to [255 - v], and applying it twice returns the
    frame itself. *)
Theorem invert_involution (F : frame) :
  uint8_frame F ->
  ImageEffects.apply_invert_colors F
  = map_pixels (fun p => mkPixel (255 - red p) (255 - green p) (255 - blue p)) F
  /\ ImageEffects.apply_invert_colors (ImageEffects.apply_invert_colors F) = F.
Proof.
  intros Hu.
  assert (Hone : forall G, uint8_frame G ->
                   ImageEffects.apply_invert_colors G = map_pixels invert_pixel G).
  { intros G HG. unfold ImageEffects.apply_invert_colors, Pillow.invert.
    apply map_pixels_ext_on with (P := uint8_pixel); [exact point_invert | exact HG]. }
  split; [now apply Hone |].
  rewrite (Hone F Hu).
  rewrite Hone by (apply uint8_frame_map; [exact invert_pixel_uint8 | exact Hu]).
  unfold map_pixels. rewrite map_map.
  rewrite <- (map_id F) at 2. apply map_ext. intros row.
  rewrite map_map. rewrite <- (map_id row) at 2. apply map_ext.
  intros [r g b]. unfold invert_pixel. cbn [red green blue]. f_equal; lia.
Qed.

(** The theorem at the ramp frame. *)
Lemma invert_involution_witness :
  ImageEffects.apply_invert_colors ramp_frame
  = map_pixels (fun p => mkPixel (255 - red p) (255 - green p) (255 - blue p)) ramp_frame
  /\ ImageEffects.apply_invert_colors (ImageEffects.apply_invert_colors ramp_frame)
     = ramp_frame.
Proof.
  apply (invert_involution ramp_frame ramp_frame_uint8).
Defined.

(** The theorem on the green channel at the ramp frame. *)
Lemma aberration_keeps_green_witness :
  channel green (ImageEffects.apply_chromatic_aberration ramp_frame "high")
  = channel green ramp_frame.
Proof.
  apply (aberration_keeps_green ramp_frame "high" ramp_frame_uint8).
Defined.

(** ** The interpolator at the nodes of the grid *)

Section GridNodes.

Variable n : Z.
Hypothesis size_ok : 2 <= n.

Lemma grid_point_eq (i : Z) :
  Cube.grid_point n i = (inject_Z i / inject_Z (n - 1))%Q.
Proof.
  unfold Cube.grid_point. destruct (Z.eqb_spec n 1); [lia | reflexivity].
Qed.

Lemma step_nonzero : ~ (inject_Z (n - 1) == 0)%Q.
Proof.
  intros H. unfold Qeq in H. cbn in H. lia.
Qed.

(** The nodes are ordered as their indices. *)
Lemma grid_point_ltb (a b : Z) :
  Py.Qltb (Cube.grid_point n a) (Cube.grid_point n b) = (a <? b).
Proof.
  rewrite !grid_point_eq. unfold Py.Qltb.
  assert (Hpos : (0 < inject_Z (n - 1))%Q) by (unfold Qlt; cbn; lia).
  destruct (Z.ltb_spec a b) as [Hab | Hab].
  - apply negb_true_iff. apply not_true_is_false. intros H.
    apply Qle_bool_iff in H.
    apply (Qmult_le_r _ _ (inject_Z (n - 1)) Hpos) in H.
    unfold Qdiv in H. rewrite <- !Qmult_assoc in H.
    rewrite !(Qmult_comm (/ _)), !Qmult_inv_r, !Qmult_1_r in H by exact step_nonzero.
    rewrite <- Zle_Qle in H. lia.
  - apply negb_false_iff. apply Qle_bool_iff.
    apply (Qmult_le_r _ _ (inject_Z (n - 1)) Hpos).
    unfold Qdiv. rewrite <- !Qmult_assoc.
    rewrite !(Qmult_comm (/ _)), !Qmult_inv_r, !Qmult_1_r by exact step_nonzero.
    rewrite <- Zle_Qle. lia.
Qed.

Lemma count_below (i : Z) (m : nat) :
  0 <= i ->
  length (filter (fun a => Z.of_nat a <? i) (seq 0 m)) = Nat.min (Z.to_nat i) m.
Proof.
  intros Hi. induction m as [| m IH]; [now rewrite Nat.min_0_r |].
  rewrite seq_S, filter_app, length_app, IH. cbn [Nat.add filter].
  destruct (Z.ltb_spec (Z.of_nat m) i); cbn [length]; lia.
Qed.

(** [searchsorted] at a node finds the index of the node. *)
Lemma searchsorted_node (i : Z) :
  0 <= i < n -> Cube.searchsorted n (Cube.grid_point n i) = i.
Proof.
  intros Hi. unfold Cube.searchsorted.
  rewrite (filter_ext _ (fun a => Z.of_nat a <? i))
    by (intros a; apply grid_point_ltb).
  rewrite count_below by lia. lia.
Qed.

(** At node 0 the cell is the first one and the distance is 0; at a
    later node [i] the cell is the one below and the distance is 1. *)
Lemma axis_at_node (i : Z) :
  0 <= i < n ->
  (i = 0 /\ Cube.find_index n (Cube.grid_point n i) = 0
   /\ (Cube.norm_distance n (Cube.grid_point n i) == 0)%Q)
  \/ (0 < i /\ Cube.find_index n (Cube.grid_point n i) = i - 1
      /\ (Cube.norm_distance n (Cube.grid_point n i) == 1)%Q).
Proof.
  intros Hi.
  assert (Hidx : Cube.find_index n (Cube.grid_point n i) = if i =? 0 then 0 else i - 1).
  { unfold Cube.find_index. rewrite searchsorted_node by exact Hi.
    destruct (Z.eqb_spec i 0) as [-> | Hne].
    - cbn. destruct (Z.ltb_spec (n - 2) 0); [lia | reflexivity].
    - destruct (Z.ltb_spec (i - 1) 0); [lia |].
      destruct (Z.ltb_spec (n - 2) (i - 1)); [lia | reflexivity]. }
  unfold Cube.norm_distance. rewrite Hidx.
  destruct (Z.eqb_spec i 0) as [-> | Hne].
  - left. repeat split. unfold Qdiv. ring.
  - right. split; [lia |]. split; [reflexivity |].
    replace (i - 1 + 1) with i by lia.
    rewrite !grid_point_eq.
    replace (inject_Z i) with (inject_Z (i - 1) + 1)%Q.
    + field. split; [exact step_nonzero |].
      intros H.
      assert (E : (inject_Z (i - 1) + 1 - inject_Z (i - 1) == 1)%Q) by ring.
      rewrite E in H. unfold Qeq in H. cbn in H. lia.
    + replace i with (i - 1 + 1) at 2 by lia. now rewrite inject_Z_plus.
Qed.

End GridNodes.

(** C8. For every table of size [N >= 2], whose grid nodes are the [N]
    evenly spaced points [i / (N - 1)] of [0, 1] on each axis, the
    trilinear interpolator evaluated at a node [(i, j, k)] returns, in
    every channel, the value the table stores at that node. (The
    arithmetic of the model is exact, so the equality is exact.) *)
Theorem interpolate_at_node (t : Cube.lut_table) (i j k c : Z) :
  let n := Cube.lut_size t in
  2 <= n -> 0 <= i < n -> 0 <= j < n -> 0 <= k < n ->
  (Cube.interpolate t (Cube.grid_point n i) (Cube.grid_point n j)
     (Cube.grid_point n k) c
   == Cube.table_at t i j k c)%Q.
Proof.
  intros n Hn Hi Hj Hk. unfold Cube.interpolate. fold n. cbv zeta.
  destruct (axis_at_node n Hn i Hi) as [(Ei & Ii & Ti) | (Ei & Ii & Ti)];
  destruct (axis_at_node n Hn j Hj) as [(Ej & Ij & Tj) | (Ej & Ij & Tj)];
  destruct (axis_at_node n Hn k Hk) as [(Ek & Ik & Tk) | (Ek & Ik & Tk)];
  rewrite Ii, Ij, Ik, Ti, Tj, Tk; cbv beta iota;
  replace (i - 1 + 1) with i by lia;
  replace (j - 1 + 1) with j by lia;
  replace (k - 1 + 1) with k by lia;
  subst; ring.
Qed.

(** The theorem at the node (1, 0, 1) of [cube2], red channel. *)
Lemma interpolate_at_node_witness :
  (Cube.interpolate cube2 (Cube.grid_point 2 1) (Cube.grid_point 2 0)
     (Cube.grid_point 2 1) 0
   == Cube.table_at cube2 1 0 1 0)%Q.
Proof.
  apply (interpolate_at_node cube2 1 0 1 0); cbn; lia.
Defined.

(** On [cube2] the interpolator returns at each of the eight grid
    coordinates the triple of that node. *)
Example cube2_nodes :
  forallb (fun '(i, j, k) =>
    forallb (fun '(a, b) => Qeq_bool a b)
      (combine (interpolate_rgb cube2 (inject_Z i) (inject_Z j) (inject_Z k))
               (node_rgb cube2 i j k)))
    [(0,0,0); (0,0,1); (0,1,0); (0,1,1); (1,0,0); (1,0,1); (1,1,0); (1,1,1)]
  = true.
Proof. vm_compute. reflexivity. Qed.

(** ** The .cube parser *)

Lemma nonempty_false_iff {A : Type} (l : list A) :
  Cube.nonempty l = false <-> l = [].
Proof. destruct l; cbn; split; congruence. Qed.

(** Rows of one length [m], concatenated, are read at [r * m + c]. *)
Lemma nth_concat_uniform {A : Type} (m : nat) (rows : list (list A)) (r c : nat) (d : A) :
  Forall (fun row => length row = m) rows -> (c < m)%nat ->
  nth (r * m + c) (concat rows) d = nth c (nth r rows []) d.
Proof.
  intros H Hc. revert r.
  induction H as [| row rows Hrow _ IH]; intros r.
  - assert (N : forall (B : Type) (x : B) (q : nat), nth q [] x = x)
      by (intros B x [| q]; reflexivity).
    cbn [concat]. now rewrite !N.
  - cbn [concat]. destruct r as [| r].
    + cbn [Nat.mul Nat.add nth]. apply app_nth1. lia.
    + rewrite app_nth2 by (rewrite Hrow; cbn; lia).
      cbn [nth]. rewrite <- IH. f_equal. rewrite Hrow. cbn. lia.
Qed.

(** What [reshape] accepts. *)
Lemma reshape_ok (size : Z) (rows : list (list Cube.pyfloat)) (t : Cube.lut_array) :
  Cube.reshape size rows = Ok t <->
  Cube.homogeneous rows = true /\ 0 <= size
  /\ Z.of_nat (length (concat rows)) = size * size * size * 3
  /\ t = Cube.mkArray size (concat rows).
Proof.
  unfold Cube.reshape.
  destruct (Cube.homogeneous rows); cbn [negb].
  - destruct (Z.ltb_spec size 0).
    + split; [discriminate | intros (_ & ? & _); lia].
    + destruct (Z.eqb_spec (Z.of_nat (length (concat rows))) (size * size * size * 3)).
      * split; [intros [= <-]; auto | intros (_ & _ & _ & ->); reflexivity].
      * split; [discriminate | intros (_ & _ & ? & _); contradiction].
  - split; [discriminate | intros (? & _); discriminate].
Qed.

Lemma result_cases {A : Type} (r : result A) : (exists a, r = Ok a) \/ raises r.
Proof. destruct r as [a | e]; [left | right]; eexists; reflexivity. Qed.

Lemma raises_not_ok {A : Type} (r : result A) (a : A) : raises r -> r <> Ok a.
Proof. intros [e ->]. discriminate. Qed.

(** *** The loop over the lines, line kind by line kind *)

Lemma floats_of_traverse (I : Cube.interpreter) (toks : list Cube.str) :
  Cube.floats_of I toks = traverse (Cube.py_float I) toks.
Proof.
  induction toks as [| t toks IH]; [reflexivity |].
  cbn [Cube.floats_of traverse]. now rewrite IH.
Qed.

(** One turn of the loop does what the kind of its line says. *)
Lemma scan_line_classify (I : Cube.interpreter) (st : Z * list (list Cube.pyfloat))
      (raw : Cube.str) :
  Cube.scan_line I st raw
  = match classify raw with
    | Ignored => Ok st
    | SizeLine tok =>
        match Cube.py_int I tok with
        | Some n => Ok (n, snd st)
        | None => Raise (ValueError "invalid literal for int() with base 10")
        end
    | DataRow toks =>
        match traverse (Cube.py_float I) toks with
        | Some row => Ok (fst st, snd st ++ [row])
        | None => Raise (ValueError "could not convert string to float")
        end
    end.
Proof.
  unfold Cube.scan_line, classify. cbv zeta.
  destruct (Cube.strip raw) as [| c rest]; [reflexivity |].
  cbn [Cube.nonempty negb orb].
  destruct (Cube.startswith (c :: rest) (Cube.text "#")); [reflexivity |].
  destruct (Cube.startswith (c :: rest) (Cube.text "LUT_3D_SIZE")); [reflexivity |].
  destruct (Cube.re_match_row (c :: rest)); [| reflexivity].
  now rewrite floats_of_traverse.
Qed.

Lemma last_after {A : Type} (l : list A) (a d : A) : last (a :: l) d = last l a.
Proof.
  revert a d. induction l as [| b l IH]; intros a d; [reflexivity |].
  change (last (a :: b :: l) d) with (last (b :: l) d).
  now rewrite !IH.
Qed.

Lemma size_tokens_cons (raw : Cube.str) (lines : list Cube.str) :
  size_tokens (raw :: lines)
  = match classify raw with SizeLine t => [t] | _ => [] end ++ size_tokens lines.
Proof. reflexivity. Qed.

Lemma data_rows_cons (raw : Cube.str) (lines : list Cube.str) :
  data_rows (raw :: lines)
  = match classify raw with DataRow ts => [ts] | _ => [] end ++ data_rows lines.
Proof. reflexivity. Qed.

(** The loop returns the last size and the rows in file order when every
    token converts, and raises as soon as one does not. *)
Lemma scan_from_spec (I : Cube.interpreter) (lines : list Cube.str) :
  forall st : Z * list (list Cube.pyfloat),
    match traverse (Cube.py_int I) (size_tokens lines),
          traverse (traverse (Cube.py_float I)) (data_rows lines) with
    | Some sizes, Some rows =>
        Cube.scan_from I st lines = Ok (last sizes (fst st), snd st ++ rows)
    | _, _ => raises (Cube.scan_from I st lines)
    end.
Proof.
  induction lines as [| raw lines IH]; intros st.
  - cbn. destruct st as [n data]. cbn. now rewrite app_nil_r.
  - rewrite size_tokens_cons, data_rows_cons.
    cbn [Cube.scan_from]. rewrite scan_line_classify.
    destruct (classify raw) as [| tok | toks]; cbn [app].
    + apply IH.
    + cbn [traverse]. destruct (Cube.py_int I tok) as [n |].
      * specialize (IH (n, snd st)). cbn [fst snd] in IH.
        destruct (traverse (Cube.py_int I) (size_tokens lines)) as [sizes |];
          [| exact IH].
        destruct (traverse (traverse (Cube.py_float I)) (data_rows lines))
          as [rows |]; [| exact IH].
        now rewrite last_after.
      * eexists. reflexivity.
    + cbn [traverse]. destruct (traverse (Cube.py_float I) toks) as [row |].
      * specialize (IH (fst st, snd st ++ [row])). cbn [fst snd] in IH.
        destruct (traverse (Cube.py_int I) (size_tokens lines)) as [sizes |];
          [| exact IH].
        destruct (traverse (traverse (Cube.py_float I)) (data_rows lines))
          as [rows |]; [| exact IH].
        rewrite IH. now rewrite <- app_assoc.
      * destruct (traverse (Cube.py_int I) (size_tokens lines));
          eexists; reflexivity.
Qed.

(** The parser returns the array the file denotes, and raises when the
    file denotes none. *)
Lemma parse_table_of_lines (I : Cube.interpreter) (lines : list Cube.str) :
  match table_of_lines I lines with
  | Some t => Cube.parse_cube_file I lines = Ok t
  | None => raises (Cube.parse_cube_file I lines)
  end.
Proof.
  unfold Cube.parse_cube_file, Cube.scan, table_of_lines.
  pose proof (scan_from_spec I lines (0, [])) as H.
  destruct (traverse (Cube.py_int I) (size_tokens lines)) as [sizes |];
    [| destruct H as [e ->]; eexists; reflexivity].
  destruct (traverse (traverse (Cube.py_float I)) (data_rows lines)) as [rows |];
    [| destruct H as [e ->]; eexists; reflexivity].
  cbn [fst snd app] in H. rewrite H. cbv zeta.
  set (n := last sizes 0).
  destruct (Z.eqb_spec n 0) as [E | E]; cbn [orb].
  - destruct (Z.ltb_spec 0 n); [lia |]. cbn [andb]. eexists. reflexivity.
  - destruct (Cube.nonempty rows); cbn [negb];
      [| rewrite andb_false_r; cbn [andb]; eexists; reflexivity].
    rewrite andb_true_r. unfold Cube.reshape.
    destruct (Cube.homogeneous rows); cbn [negb];
      [| rewrite andb_false_r; cbn [andb]; eexists; reflexivity].
    rewrite andb_true_r.
    destruct (Z.ltb_spec n 0); destruct (Z.ltb_spec 0 n); try lia; cbn [andb];
      [eexists; reflexivity |].
    destruct (Z.of_nat (length (concat rows)) =? n * n * n * 3);
      [reflexivity | eexists; reflexivity].
Qed.

Lemma traverse_length {A B : Type} (f : A -> option B) (l : list A) (l' : list B) :
  traverse f l = Some l' -> length l' = length l.
Proof.
  revert l'. induction l as [| x l IH]; intros l' H; cbn in H.
  - now injection H as <-.
  - destruct (f x); [| discriminate]. destruct (traverse f l); [| discriminate].
    injection H as <-. cbn. now rewrite (IH l0).
Qed.

Lemma traverse_nth {A B : Type} (f : A -> option B) (l : list A) (l' : list B)
      (n : nat) (d : A) (d' : B) :
  traverse f l = Some l' -> (n < length l)%nat ->
  f (nth n l d) = Some (nth n l' d').
Proof.
  revert l' n. induction l as [| x l IH]; intros l' n H Hn; cbn in H, Hn; [lia |].
  destruct (f x) as [y |] eqn:Ex; [| discriminate].
  destruct (traverse f l) as [ys |]; [| discriminate].
  injection H as <-. destruct n as [| n]; [exact Ex |].
  cbn [nth]. apply IH; [reflexivity | lia].
Qed.

Lemma traverse_last {A B : Type} (f : A -> option B) (l : list A) (l' : list B)
      (d : A) (d' : B) :
  traverse f l = Some l' -> l <> [] -> f (last l d) = Some (last l' d').
Proof.
  revert l'. induction l as [| x l IH]; intros l' H Hne; [contradiction |].
  cbn in H. destruct (f x) as [y |] eqn:Ex; [| discriminate].
  destruct (traverse f l) as [ys |] eqn:El; [| discriminate].
  injection H as <-. destruct l as [| x2 l].
  - cbn in El. injection El as <-. exact Ex.
  - destruct ys as [| y2 ys]; [apply traverse_length in El; discriminate El |].
    change (f (last (x2 :: l) d) = Some (last (y2 :: ys) d')).
    apply IH; [reflexivity | discriminate].
Qed.

Lemma traverse_rows_shape {A B : Type} (f : A -> option B) (m : nat)
      (l : list (list A)) (l' : list (list B)) :
  traverse (traverse f) l = Some l' ->
  Forall (fun row => length row = m) l -> Forall (fun row => length row = m) l'.
Proof.
  revert l'. induction l as [| x l IH]; intros l' H Hl; cbn in H.
  - injection H as <-. constructor.
  - destruct (traverse f x) as [y |] eqn:Ex; [| discriminate].
    destruct (traverse (traverse f) l) as [ys |]; [| discriminate].
    injection H as <-. inversion Hl; subst. constructor.
    + now rewrite (traverse_length f x y Ex).
    + now apply IH.
Qed.

(** What it takes for a file to denote an array. *)
Lemma table_of_lines_some (I : Cube.interpreter) (lines : list Cube.str)
      (t : Cube.lut_array) :
  table_of_lines I lines = Some t ->
  exists sizes rows,
    traverse (Cube.py_int I) (size_tokens lines) = Some sizes
    /\ traverse (traverse (Cube.py_float I)) (data_rows lines) = Some rows
    /\ 0 < last sizes 0 /\ rows <> [] /\ Cube.homogeneous rows = true
    /\ Z.of_nat (length (concat rows)) = last sizes 0 * last sizes 0 * last sizes 0 * 3
    /\ t = Cube.mkArray (last sizes 0) (concat rows).
Proof.
  unfold table_of_lines.
  destruct (traverse (Cube.py_int I) (size_tokens lines)) as [sizes |];
    [| discriminate].
  destruct (traverse (traverse (Cube.py_float I)) (data_rows lines)) as [rows |];
    [| discriminate].
  cbv zeta.
  destruct (Z.ltb_spec 0 (last sizes 0)); cbn [andb]; [| discriminate].
  destruct rows as [| row rows]; cbn [Cube.nonempty andb]; [discriminate |].
  destruct (Cube.homogeneous (row :: rows)) eqn:Hh; cbn [andb]; [| discriminate].
  destruct (Z.eqb_spec (Z.of_nat (length (concat (row :: rows))))
              (last sizes 0 * last sizes 0 * last sizes 0 * 3)); [| discriminate].
  intros [= <-]. exists sizes, (row :: rows).
  split; [reflexivity |]. split; [reflexivity |]. split; [assumption |].
  split; [discriminate |]. split; [exact Hh |]. split; [assumption | reflexivity].
Qed.

(** C5, as the code has it. The lines are read by their kinds: blank
    lines, comments and lines that are neither a size line nor a data row
    are ignored; a line that starts with [LUT_3D_SIZE] gives a size
    token, its last token; a line that starts with three runs of the
    characters [0-9 e E . + -] separated by white space gives a data row,
    all its tokens. [parse_cube_file] returns an array exactly when the
    file denotes one ([table_of_lines]): every size token converts by
    [int] and every token of every data row by [float], the size [N] of
    the last size line is positive, there is a data row, the rows have
    one length and hold [N * N * N * 3] values in all; the array is then
    the values in file order with the size [N]. It raises in every other
    case: a token that does not convert, [N] zero (or unset) or negative,
    no row, rows of unequal length, or a number of values other than
    [N * N * N * 3]. On success the size is the [int] of the last size
    token of the file, and with rows of three tokens entry [(i, j, k, c)]
    of the array is the [float] of token [c] of data row
    [(i * N + j) * N + k]. A result is a whole array or an exception,
    never a part of an array. *)
Theorem parse_cube_file_spec (I : Cube.interpreter) (lines : list Cube.str) :
  (forall t, Cube.parse_cube_file I lines = Ok t <-> table_of_lines I lines = Some t)
  /\ (raises (Cube.parse_cube_file I lines) <-> table_of_lines I lines = None)
  /\ (forall t,
        Cube.parse_cube_file I lines = Ok t ->
        Cube.py_int I (last (size_tokens lines) []) = Some (Cube.array_size t))
  /\ (forall t i j k c,
        Cube.parse_cube_file I lines = Ok t ->
        Forall (fun row => length row = 3%nat) (data_rows lines) ->
        0 <= i < Cube.array_size t -> 0 <= j < Cube.array_size t ->
        0 <= k < Cube.array_size t -> 0 <= c < 3 ->
        Cube.py_float I
          (nth (Z.to_nat c)
               (nth (Z.to_nat ((i * Cube.array_size t + j) * Cube.array_size t + k))
                    (data_rows lines) [])
               [])
        = Some (array_at t i j k c)).
Proof.
  pose proof (parse_table_of_lines I lines) as H.
  assert (Hiff : forall t, Cube.parse_cube_file I lines = Ok t
                           <-> table_of_lines I lines = Some t).
  { intros t. destruct (table_of_lines I lines) as [t' |].
    - rewrite H. split; intros [= ->]; reflexivity.
    - split; [| discriminate]. intros E. now apply raises_not_ok with (a := t) in H. }
  split; [exact Hiff |]. split; [| split].
  - destruct (table_of_lines I lines) as [t' |].
    + split; [| discriminate]. intros Hr.
      now apply raises_not_ok with (a := t') in Hr.
    + split; [reflexivity | intros _; exact H].
  - intros t Hparse. apply Hiff in Hparse.
    apply table_of_lines_some in Hparse.
    destruct Hparse as (sizes & rows & Hs & _ & Hpos & _ & _ & _ & ->).
    cbn [Cube.array_size].
    apply traverse_last; [exact Hs |].
    intros E. rewrite E in Hs. cbn in Hs. injection Hs as <-. cbn in Hpos. lia.
  - intros t i j k c Hparse Hrows Hi Hj Hk Hc. apply Hiff in Hparse.
    apply table_of_lines_some in Hparse.
    destruct Hparse as (sizes & rows & _ & Hr & Hpos & _ & _ & Hlen & ->).
    cbn [Cube.array_size] in *. set (n := last sizes 0) in *.
    pose proof (traverse_rows_shape _ 3%nat _ _ Hr Hrows) as Hrows'.
    assert (Hcount : Z.of_nat (length rows) = n * n * n).
    { assert (L : length (concat rows) = (length rows * 3)%nat).
      { clear - Hrows'. induction Hrows' as [| row rows Hrow _ IH]; [reflexivity |].
        cbn [concat length]. rewrite length_app, IH, Hrow. lia. }
      rewrite L in Hlen. lia. }
    unfold array_at. cbn [Cube.array_size Cube.array_flat]. fold n.
    set (r := (i * n + j) * n + k).
    assert (Hrange : 0 <= r < n * n * n) by (unfold r; nia).
    assert (Hr_lt : (Z.to_nat r < length (data_rows lines))%nat).
    { rewrite <- (traverse_length _ _ _ Hr). lia. }
    replace (Z.to_nat (r * 3 + c)) with (Z.to_nat r * 3 + Z.to_nat c)%nat by lia.
    rewrite (nth_concat_uniform 3) by (assumption || lia).
    apply traverse_nth.
    + apply (traverse_nth _ _ _ _ [] [] Hr Hr_lt).
    + rewrite Forall_forall in Hrows. rewrite (Hrows _ (nth_In _ _ Hr_lt)). lia.
Qed.

Lemma short_cube_scan :
  Cube.scan plain_python short_cube
  = Ok (2, [[Cube.Finite (0 # 10); Cube.Finite (5 # 10); Cube.Finite (10 # 10)]]).
Proof. vm_compute. reflexivity. Qed.

(** C5, as stated, fails: a file that declares size 2 and holds one data
    row passes the final check (the size is not zero, a row was
    collected) and still fails, in the reshape. *)
Lemma fails_exactly_on_final_check_fails : ~ fails_exactly_on_final_check.
Proof.
  intros H.
  destruct (H plain_python short_cube 2 _ short_cube_scan) as [Hfail _].
  destruct Hfail as [E | E]; [| discriminate E | discriminate E].
  exists (ValueError "cannot reshape array"). vm_compute. reflexivity.
Qed.

(** The parser on four files: a whole cube; a size line without a number;
    a data row with a token that is no number; and a file with two size
    lines, no-break spaces, an Arabic-Indic digit, a literal beyond the
    doubles and an infinity. *)
Example parse_unit_cube : Cube.parse_cube_file plain_python unit_cube = Ok unit_array.
Proof. vm_compute. reflexivity. Qed.

Example parse_size_without_number :
  Cube.parse_cube_file plain_python (map Cube.text ["LUT_3D_SIZE"; "0 0 0"]%string)
  = Raise (ValueError "invalid literal for int() with base 10").
Proof. vm_compute. reflexivity. Qed.

Example parse_malformed_token :
  Cube.parse_cube_file plain_python (map Cube.text ["LUT_3D_SIZE 1"; "0 0 0x"]%string)
  = Raise (ValueError "could not convert string to float").
Proof. vm_compute. reflexivity. Qed.

Example parse_odd_cube :
  Cube.parse_cube_file plain_python odd_cube
  = Ok (Cube.mkArray 1 [Cube.Finite 0; Cube.Infinite false; Cube.Infinite true]).
Proof. vm_compute. reflexivity. Qed.

(** The theorem on [odd_cube] and on [unit_cube]: the size of the first
    is the [int] of its last size token, and entry (1, 0, 1, 2) of the
    second is the [float] of token 2 of data row 5. *)
Lemma parse_cube_file_spec_witness :
  Cube.py_int plain_python (last (size_tokens odd_cube) []) = Some 1
  /\ Cube.py_float plain_python (nth 2 (nth 5 (data_rows unit_cube) []) [])
     = Some (array_at unit_array 1 0 1 2).
Proof.
  split.
  - refine (proj1 (proj2 (proj2 (parse_cube_file_spec plain_python odd_cube)))
              (Cube.mkArray 1 [Cube.Finite 0; Cube.Infinite false; Cube.Infinite true])
              _).
    vm_compute. reflexivity.
  - refine (proj2 (proj2 (proj2 (parse_cube_file_spec plain_python unit_cube)))
              unit_array 1 0 1 2 _ _ _ _ _ _); try (cbn; lia).
    + vm_compute. reflexivity.
    + repeat constructor.
Defined.

(** ** Vignette *)

Lemma square_nonneg (a : Q) : (0 <= a * a)%Q.
Proof.
  unfold Qle, Qmult. cbn. rewrite Z.mul_1_r. apply Z.square_nonneg.
Qed.

(** Inside the frame the normalised distance is at most 1. *)
Lemma radial_grad_sq_bounds (w h y x : Z) :
  0 < w -> 0 < h -> 0 <= x <= w -> 0 <= y <= h ->
  (0 <= ImageEffects.radial_grad_sq w h y x <= 1)%Q.
Proof.
  intros Hw Hh Hx Hy. unfold ImageEffects.radial_grad_sq. cbv zeta.
  assert (HW : (0 < inject_Z w)%Q) by (rewrite Zlt_Qlt in Hw; exact Hw).
  assert (HH : (0 < inject_Z h)%Q) by (rewrite Zlt_Qlt in Hh; exact Hh).
  assert (HX : (0 <= inject_Z x <= inject_Z w)%Q) by (rewrite !Zle_Qle in Hx; exact Hx).
  assert (HY : (0 <= inject_Z y <= inject_Z h)%Q) by (rewrite !Zle_Qle in Hy; exact Hy).
  set (W := inject_Z w) in *. set (H := inject_Z h) in *.
  set (X := inject_Z x) in *. set (Y := inject_Z y) in *.
  change (W / 2)%Q with (W * (1 # 2))%Q. change (H / 2)%Q with (H * (1 # 2))%Q.
  assert (HD : (0 < W * (1 # 2) * (W * (1 # 2)) + H * (1 # 2) * (H * (1 # 2)))%Q) by nra.
  pose proof (square_nonneg (X - W * (1 # 2))) as S1.
  pose proof (square_nonneg (Y - H * (1 # 2))) as S2.
  split.
  - apply Qle_shift_div_l; [exact HD |]. lra.
  - apply Qle_shift_div_r; [exact HD |].
    assert (P1 : (0 <= X * (W - X))%Q) by (apply Qmult_le_0_compat; lra).
    assert (P2 : (0 <= Y * (H - Y))%Q) by (apply Qmult_le_0_compat; lra).
    lra.
Qed.

(** At the corner (0, 0) of any frame the normalised distance is 1. *)
Lemma radial_grad_sq_corner (w h : Z) :
  0 < w -> 0 < h -> (ImageEffects.radial_grad_sq w h 0 0 == 1)%Q.
Proof.
  intros Hw Hh. unfold ImageEffects.radial_grad_sq. cbv zeta.
  field.
  rewrite <- !inject_Z_mult, <- inject_Z_plus.
  intros H. unfold Qeq in H. cbn in H. nia.
Qed.

(** The mask at the corner is [1 - strength]; at level high it is the
    negative [-1/2]. *)
Lemma vignette_mask_corner (level : string) (w h : Z) :
  0 < w -> 0 < h ->
  (ImageEffects.vignette_mask (ImageEffects.vignette_strength level) w h 0 0
   == 1 - ImageEffects.vignette_strength level)%Q.
Proof.
  intros Hw Hh. unfold ImageEffects.vignette_mask.
  rewrite radial_grad_sq_corner by assumption. ring.
Qed.

(** With a strength of at most 1, as at the levels low and medium, the
    mask stays within [0, 1] over the whole frame. *)
Lemma vignette_mask_bounds (s : Q) (w h y x : Z) :
  (0 <= s <= 1)%Q -> 0 < w -> 0 < h -> 0 <= x <= w -> 0 <= y <= h ->
  (0 <= ImageEffects.vignette_mask s w h y x <= 1)%Q.
Proof.
  intros Hs Hw Hh Hx Hy. unfold ImageEffects.vignette_mask.
  pose proof (radial_grad_sq_bounds w h y x Hw Hh Hx Hy) as Hr.
  set (r := ImageEffects.radial_grad_sq w h y x) in *.
  assert (P1 : (0 <= r * s)%Q) by (apply Qmult_le_0_compat; lra).
  assert (P2 : (0 <= (1 - r) * s)%Q) by (apply Qmult_le_0_compat; lra).
  split; lra.
Qed.

(** On a float that is not negative the cast truncates as the floor. *)
Lemma trunc_nonneg (q : Q) : (0 <= q)%Q -> Py.trunc q = Qfloor q.
Proof.
  destruct q as [n d]. unfold Qle, Py.trunc, Qfloor. cbn. intros H.
  apply Z.quot_div_nonneg; lia.
Qed.

(** A uint8 value scaled by a factor of [0, 1] is cast without wrapping
    and does not grow. *)
Lemma scaled_value_darkens (v : Z) (m : Q) :
  uint8 v -> (0 <= m <= 1)%Q ->
  0 <= Py.float_astype_uint8 (inject_Z v * m) <= v.
Proof.
  intros [Hv0 Hv1] Hm.
  assert (HV : (0 <= inject_Z v)%Q) by (rewrite Zle_Qle in Hv0; exact Hv0).
  assert (Hq0 : (0 <= inject_Z v * m)%Q) by (apply Qmult_le_0_compat; lra).
  assert (Hq1 : (inject_Z v * m <= inject_Z v)%Q).
  { assert (P : (0 <= inject_Z v * (1 - m))%Q) by (apply Qmult_le_0_compat; lra). lra. }
  unfold Py.float_astype_uint8. rewrite trunc_nonneg by exact Hq0.
  pose proof (Qfloor_resp_le _ _ Hq0) as F0.
  pose proof (Qfloor_resp_le _ _ Hq1) as F1.
  rewrite Qfloor_Z in F1. change (Qfloor 0) with 0 in F0.
  unfold Py.astype_uint8. rewrite Z.mod_small; lia.
Qed.

Lemma nth_imap_from {A B : Type} (f : nat -> A -> B) (l : list A) (k i : nat) (d : A) (d' : B) :
  (i < length l)%nat ->
  nth i (Py.imap_from k f l) d' = f (k + i)%nat (nth i l d).
Proof.
  revert k i. induction l as [| a l IH]; intros k i Hi; cbn in Hi; [lia |].
  destruct i as [| i]; cbn [Py.imap_from nth].
  - now rewrite Nat.add_0_r.
  - rewrite IH by lia. f_equal. lia.
Qed.

(** A pixel of the result of [apply_vignette] is the pixel of the input
    scaled by the mask at its place. *)
Lemma vignette_pixel (img : frame) (level : string) (h w y x : nat) :
  has_shape h w img -> (y < h)%nat -> (x < w)%nat ->
  pixel_at (ImageEffects.apply_vignette img level) y x
  = ImageEffects.scale_pixel
      (ImageEffects.vignette_mask (ImageEffects.vignette_strength level)
         (Z.of_nat w) (Z.of_nat h) (Z.of_nat y) (Z.of_nat x))
      (pixel_at img y x).
Proof.
  intros H Hy Hx.
  assert (Hh : (0 < h)%nat) by lia.
  destruct (width_of_shape h w img H Hh) as [Ew Eh].
  pose proof (shape_row h w img y H Hy) as Hrow.
  unfold ImageEffects.apply_vignette, pixel_at, Py.imap. cbv zeta.
  rewrite Ew, Eh.
  rewrite (nth_imap_from _ img 0 y [] []) by (destruct H; lia).
  rewrite (nth_imap_from _ (nth y img []) 0 x black black) by lia.
  reflexivity.
Qed.

(** At the levels low and medium the effect darkens without wrapping:
    every channel of every pixel of the result lies between 0 and its
    value in the input. *)
Lemma vignette_low_medium_darkens (img : frame) (level : string) (h w y x : nat) :
  has_shape h w img -> uint8_frame img ->
  level = "low"%string \/ level = "medium"%string ->
  (y < h)%nat -> (x < w)%nat ->
  let p := pixel_at img y x in
  let p' := pixel_at (ImageEffects.apply_vignette img level) y x in
  0 <= red p' <= red p /\ 0 <= green p' <= green p /\ 0 <= blue p' <= blue p.
Proof.
  intros H Hu Hlevel Hy Hx p p'. unfold p'.
  rewrite (vignette_pixel img level h w y x H Hy Hx). fold p.
  assert (Hp : uint8_pixel p).
  { unfold p, pixel_at. pose proof (uint8_frame_row img y Hu) as Hrow.
    rewrite Forall_forall in Hrow. apply Hrow. apply nth_In.
    rewrite (shape_row h w img y H Hy). exact Hx. }
  assert (Hs : (0 <= ImageEffects.vignette_strength level <= 1)%Q).
  { destruct Hlevel as [-> | ->]; split; unfold Qle; cbn; lia. }
  pose proof (vignette_mask_bounds _ (Z.of_nat w) (Z.of_nat h) (Z.of_nat y) (Z.of_nat x)
                Hs ltac:(lia) ltac:(lia) ltac:(lia) ltac:(lia)) as Hm.
  destruct Hp as (Hr & Hg & Hb).
  unfold ImageEffects.scale_pixel. cbn [red green blue].
  repeat split; now apply scaled_value_darkens.
Qed.

(** C2, the code at a failing input. At level high the mask of
    [apply_vignette] is not clamped: at the corner (0, 0) of a frame of
    any size it is [-1/2], and on the 2 by 2 frame of value 10 the corner
    pixel, multiplied by it and cast to uint8, wraps around to 251, while
    the centre pixel (1, 1) keeps its value. *)
Theorem vignette_high_wraps_at_corner :
  (forall w h, 0 < w -> 0 < h ->
     (ImageEffects.vignette_mask (ImageEffects.vignette_strength "high") w h 0 0
      == - (1 # 2))%Q)
  /\ pixel_at (ImageEffects.apply_vignette dark_frame "high") 0 0
     = mkPixel 251 251 251
  /\ pixel_at (ImageEffects.apply_vignette dark_frame "high") 1 1
     = mkPixel 10 10 10.
Proof.
  split; [| split; vm_compute; reflexivity].
  intros w h Hw Hh. rewrite vignette_mask_corner by assumption.
  vm_compute. reflexivity.
Qed.

(** The theorem at the 2 by 2 frame. *)
Lemma vignette_high_wraps_at_corner_witness :
  (ImageEffects.vignette_mask (ImageEffects.vignette_strength "high") 2 2 0 0
   == - (1 # 2))%Q.
Proof.
  apply (proj1 vignette_high_wraps_at_corner 2 2); lia.
Defined.

(** ** Glitch *)

Lemma glitch_probability_values (level : string) :
  ImageEffects.glitch_probability level = 30%Q
  \/ ImageEffects.glitch_probability level = 50%Q
  \/ ImageEffects.glitch_probability level = 70%Q.
Proof.
  unfold ImageEffects.glitch_probability. cbn.
  destruct (String.eqb level "low"); [auto |].
  destruct (String.eqb level "medium"); [auto |].
  destruct (String.eqb level "high"); auto.
Qed.

(** C3, the code on every draw. In the image engine the probability a
    level selects is 30, 50 or 70, not 0.3, 0.5 or 0.7, and the test
    [random.random() < probability] of an attempt holds for every draw [u]
    of [0, 1): at every level every attempt triggers, that is, from a
    state whose next draw is [u] an attempt is its draw followed by the
    glitch of a strip. *)
Theorem glitch_attempt_always_triggers (level : string) (u : Q) :
  (0 <= u)%Q -> (u < 1)%Q ->
  ImageEffects.glitch_triggers (ImageEffects.glitch_probability level) u = true
  /\ (forall (fr : frame) (g : state),
        tape g (pos g) = u ->
        ImageEffects.glitch_attempt (ImageEffects.glitch_probability level) fr g
        = bind Random.random (fun _ => ImageEffects.glitch_once fr) g).
Proof.
  intros H0 H1.
  assert (Ht : ImageEffects.glitch_triggers (ImageEffects.glitch_probability level) u
               = true).
  { unfold ImageEffects.glitch_triggers, Py.Qltb.
    apply negb_true_iff. apply not_true_is_false. intros H.
    apply Qle_bool_iff in H.
    assert (Hlt : (u < ImageEffects.glitch_probability level)%Q).
    { apply Qlt_trans with (y := 1%Q); [exact H1 |].
      destruct (glitch_probability_values level) as [-> | [-> | ->]]; reflexivity. }
    exact (Qlt_not_le _ _ Hlt H). }
  split; [exact Ht |].
  intros fr g Hg. unfold ImageEffects.glitch_attempt, bind, Random.random, Random.draw.
  rewrite Hg, Ht. reflexivity.
Qed.

(** The theorem at level low and the draw 1/2, which is not below 0.3. *)
Lemma glitch_attempt_always_triggers_witness :
  ImageEffects.glitch_triggers (ImageEffects.glitch_probability "low") (1 # 2) = true
  /\ Py.Qltb (1 # 2) (3 # 10) = false.
Proof.
  split.
  - apply (glitch_attempt_always_triggers "low" (1 # 2)).
    + unfold Qle. cbn. lia.
    + unfold Qlt. cbn. lia.
  - reflexivity.
Defined.

(** [random.randint(a, b)] on a draw of [0, 1) returns an integer of
    [a .. b]; the number of attempts of [apply_glitch] is one of 1 .. 5. *)
Lemma randint_in_range (a b : Z) (g : state) :
  a <= b -> (0 <= tape g (pos g))%Q -> (tape g (pos g) < 1)%Q ->
  exists n, Random.randint a b g = Ok (n, mkState (tape g) (S (pos g)) (stdout g))
            /\ a <= n <= b.
Proof.
  intros Hab H0 H1. unfold Random.randint.
  destruct (Z.ltb_spec b a); [lia |].
  unfold bind, Random.draw, ret. eexists. split; [reflexivity |].
  set (u := tape g (pos g)) in *. set (k := b - a + 1).
  assert (Hk : (0 < inject_Z k)%Q).
  { change 0%Q with (inject_Z 0). rewrite <- Zlt_Qlt. unfold k. lia. }
  assert (Hlo : (0 <= u * inject_Z k)%Q) by (apply Qmult_le_0_compat; lra).
  assert (Hhi : (u * inject_Z k < inject_Z k)%Q).
  { assert (P : (0 < (1 - u) * inject_Z k)%Q) by (apply Qmult_lt_0_compat; lra). lra. }
  pose proof (Qfloor_resp_le _ _ Hlo) as F0. change (Qfloor 0) with 0 in F0.
  pose proof (Qfloor_le (u * inject_Z k)) as F1.
  assert (F2 : (inject_Z (Qfloor (u * inject_Z k)) < inject_Z k)%Q) by lra.
  rewrite <- Zlt_Qlt in F2. unfold k in *. lia.
Qed.

(** The video engine selects the probabilities 0.1, 0.2, 0.3. *)
Example video_glitch_probabilities :
  map (VideoEffects.level_param VideoEffects.Glitch) ["low"; "medium"; "high"]%string
  = [1 # 10; 2 # 10; 3 # 10]%Q.
Proof. reflexivity. Qed.

(** On a frame five pixels wide the lowest displacement is
    [-5 // 4 = -2], more than a quarter of the width: with every draw at 0
    the strip is rolled two columns to the left. *)
Example glitch_displacement_on_five :
  ImageEffects.apply_glitch five_frame "low" (constant_tape 0)
  = Ok ([map (fun v => mkPixel v v v) [3; 4; 5; 0; 0]],
        mkState (fun _ => 0%Q) 4 []).
Proof. vm_compute. reflexivity. Qed.

(** A displacement of 0 takes the branch [strip[:, displacement:] = 0],
    which blanks the whole strip. *)
Example glitch_zero_displacement :
  ImageEffects.glitch_strip ramp_frame 1 0 0
  = [[black; black; black; black]].
Proof. vm_compute. reflexivity. Qed.

(** ** The chain executors *)

Section UnknownName.

Variable W : ImageEffects.world.
Variable clip : Type.
Variable call : string -> clip -> list string -> M clip.

(** C6, the two executors at a name that is in neither registry. Both
    skip the element and go on with the rest of the chain on the same
    medium. The video engine prints its warning first; the image engine
    goes on in the state it was in, with nothing printed. *)
Theorem unknown_name_is_skipped
  (name : string) (rest : list chain_element) (img : frame) (c : clip) (g : state) :
  Py.dict_lookup ImageEffects.effects_map name = None ->
  VideoEffects.known name = false ->
  ImageEffects.apply_effects_in_sequence W img (EString name :: rest) g
  = ImageEffects.apply_effects_in_sequence W img rest g
  /\ VideoEffects.apply_effects_in_sequence clip call c (EString name :: rest) g
     = VideoEffects.apply_effects_in_sequence clip call c rest
         (printing g ("Warning: Effect '" ++ name ++ "' not found.")).
Proof.
  intros Himg Hvid. split.
  - cbn [ImageEffects.apply_effects_in_sequence]. unfold bind, ImageEffects.step.
    rewrite Himg. reflexivity.
  - cbn [VideoEffects.apply_effects_in_sequence]. unfold bind, VideoEffects.step.
    rewrite Hvid. reflexivity.
Qed.

End UnknownName.

(** A chain runs as its first part followed by its second part. *)
Lemma image_chain_app (W : ImageEffects.world) (pre rest : list chain_element)
      (img : frame) (g : state) :
  ImageEffects.apply_effects_in_sequence W img (pre ++ rest) g
  = bind (ImageEffects.apply_effects_in_sequence W img pre)
         (fun img' => ImageEffects.apply_effects_in_sequence W img' rest) g.
Proof.
  revert img g. induction pre as [| e pre IH]; intros img g; [reflexivity |].
  cbn [app ImageEffects.apply_effects_in_sequence]. unfold bind.
  destruct (ImageEffects.step W img e g) as [[img1 g1] | err]; [| reflexivity].
  rewrite IH. reflexivity.
Qed.

Lemma video_chain_app (clip : Type) (call : string -> clip -> list string -> M clip)
      (pre rest : list chain_element) (c : clip) (g : state) :
  VideoEffects.apply_effects_in_sequence clip call c (pre ++ rest) g
  = bind (VideoEffects.apply_effects_in_sequence clip call c pre)
         (fun c' => VideoEffects.apply_effects_in_sequence clip call c' rest) g.
Proof.
  revert c g. induction pre as [| e pre IH]; intros c g; [reflexivity |].
  cbn [app VideoEffects.apply_effects_in_sequence]. unfold bind.
  destruct (VideoEffects.step clip call c e g) as [[c1 g1] | err]; [| reflexivity].
  rewrite IH. reflexivity.
Qed.

(** Wherever the unknown name stands in a chain of the image engine, the
    chain runs as the chain without it. *)
Lemma image_chain_drops_unknown (W : ImageEffects.world) (name : string)
      (pre rest : list chain_element) (img : frame) (g : state) :
  Py.dict_lookup ImageEffects.effects_map name = None ->
  ImageEffects.apply_effects_in_sequence W img (pre ++ EString name :: rest) g
  = ImageEffects.apply_effects_in_sequence W img (pre ++ rest) g.
Proof.
  intros Hname. rewrite !image_chain_app. unfold bind.
  destruct (ImageEffects.apply_effects_in_sequence W img pre g) as [[img1 g1] | err];
    [| reflexivity].
  cbn [ImageEffects.apply_effects_in_sequence]. unfold bind, ImageEffects.step.
  now rewrite Hname.
Qed.

(** In the video engine the chain runs as the chain without the unknown
    name, after the warning is printed at the place of the name. *)
Lemma video_chain_warns_unknown (clip : Type)
      (call : string -> clip -> list string -> M clip) (name : string)
      (pre rest : list chain_element) (c : clip) (g : state) :
  VideoEffects.known name = false ->
  VideoEffects.apply_effects_in_sequence clip call c (pre ++ EString name :: rest) g
  = bind (VideoEffects.apply_effects_in_sequence clip call c pre)
         (fun c' g' =>
            VideoEffects.apply_effects_in_sequence clip call c' rest
              (printing g' ("Warning: Effect '" ++ name ++ "' not found."))) g.
Proof.
  intros Hname. rewrite video_chain_app. unfold bind.
  destruct (VideoEffects.apply_effects_in_sequence clip call c pre g)
    as [[c1 g1] | err]; [| reflexivity].
  cbn [VideoEffects.apply_effects_in_sequence]. unfold bind, VideoEffects.step.
  now rewrite Hname.
Qed.

(** The theorem at the name Sepia, followed by Invert Colors, on the
    ramp frame. *)
Lemma unknown_name_is_skipped_witness :
  ImageEffects.apply_effects_in_sequence plain_world ramp_frame
    [EString "Sepia"; EString "Invert Colors"] (constant_tape 0)
  = Ok (ImageEffects.apply_invert_colors ramp_frame, constant_tape 0).
Proof.
  rewrite (proj1 (unknown_name_is_skipped plain_world unit (fun _ c _ => ret c)
                    "Sepia" [EString "Invert Colors"] ramp_frame tt (constant_tape 0)
                    eq_refl eq_refl)).
  reflexivity.
Defined.

(** ** Levels outside low, medium, high *)

Section UnknownLevel.

Variable s : string.
Hypothesis unknown : ~ known_level s.

Lemma unknown_eqb :
  String.eqb s "low" = false /\ String.eqb s "medium" = false
  /\ String.eqb s "high" = false.
Proof.
  repeat split; apply String.eqb_neq; intros E; apply unknown; unfold known_level; auto.
Qed.

(** [level_map.get(s, default)] is the default. *)
Lemma dict_get_unknown {V : Type} (a b c d : V) :
  Py.dict_get [("low"%string, a); ("medium"%string, b); ("high"%string, c)] s d = d.
Proof.
  destruct unknown_eqb as (Hl & Hm & Hh).
  cbn [Py.dict_get]. now rewrite Hl, Hm, Hh.
Qed.

Lemma image_params_unknown :
  ImageEffects.saturation_factor s = ImageEffects.saturation_factor "medium"
  /\ ImageEffects.contrast_factor s = ImageEffects.contrast_factor "medium"
  /\ ImageEffects.aberration_shift s = ImageEffects.aberration_shift "medium"
  /\ ImageEffects.pixel_size s = ImageEffects.pixel_size "medium"
  /\ ImageEffects.grain_strength s = ImageEffects.grain_strength "medium"
  /\ ImageEffects.neon_threshold s = ImageEffects.neon_threshold "medium"
  /\ ImageEffects.cartoon_filter_size s = ImageEffects.cartoon_filter_size "medium"
  /\ ImageEffects.vignette_strength s = ImageEffects.vignette_strength "medium"
  /\ ImageEffects.glitch_probability s = ImageEffects.glitch_probability "medium"
  /\ ImageEffects.rotate_angle s = ImageEffects.rotate_angle "high".
Proof.
  unfold ImageEffects.saturation_factor, ImageEffects.contrast_factor,
    ImageEffects.aberration_shift, ImageEffects.pixel_size,
    ImageEffects.grain_strength, ImageEffects.neon_threshold,
    ImageEffects.cartoon_filter_size, ImageEffects.vignette_strength,
    ImageEffects.glitch_probability, ImageEffects.rotate_angle.
  cbv zeta. rewrite !dict_get_unknown. repeat split.
Qed.

Lemma video_params_unknown (e : VideoEffects.leveled) :
  VideoEffects.level_param e s
  = VideoEffects.level_param e (VideoEffects.default_level e).
Proof.
  destruct e; unfold VideoEffects.level_param; rewrite dict_get_unknown; reflexivity.
Qed.

End UnknownLevel.

(** C10. A level string outside low, medium, high makes every effect
    that takes a level behave exactly as at its default level, medium, or
    high (90 degrees) for Rotate: on every frame and in every state the
    effects of the image engine return the same result, an exception
    included, as at the default, and the parameter every effect of the
    video engine selects is the one of its default level. The lookup
    itself is total. *)
Theorem unknown_level_is_default (s : string) :
  ~ known_level s ->
  (forall (W : ImageEffects.world) (k : ImageEffects.effect_kind) (d : string)
          (img : frame) (g : state),
     ImageEffects.default_level k = Some d ->
     ImageEffects.apply_leveled W k img s g = ImageEffects.apply_leveled W k img d g)
  /\ (forall e : VideoEffects.leveled,
        VideoEffects.level_param e s
        = VideoEffects.level_param e (VideoEffects.default_level e))
  /\ (forall (fr : frame) (g : state),
        VideoEffects.glitch_frame s fr g = VideoEffects.glitch_frame "medium" fr g).
Proof.
  intros Hs.
  destruct (image_params_unknown s Hs)
    as (Hsat & Hcon & Hab & Hpix & Hgr & Hneon & Hcar & Hvig & Hgl & Hrot).
  split; [| split].
  - intros W k d img g Hd.
    destruct k; cbn in Hd; inversion Hd; subst d; clear Hd;
      cbn [ImageEffects.apply_leveled].
    + unfold ImageEffects.apply_color_saturation. now rewrite Hsat.
    + unfold ImageEffects.apply_contrast_brightness. now rewrite Hcon.
    + unfold ImageEffects.apply_chromatic_aberration. now rewrite Hab.
    + unfold ImageEffects.apply_pixelated. now rewrite Hpix.
    + unfold ImageEffects.apply_film_grain. now rewrite Hgr.
    + unfold ImageEffects.apply_glitch. now rewrite Hgl.
    + unfold ImageEffects.apply_neon_glow, ImageEffects.neon_from_edges. now rewrite Hneon.
    + unfold ImageEffects.apply_cartoon_painterly. now rewrite Hcar.
    + unfold ImageEffects.apply_vignette. now rewrite Hvig.
    + unfold ImageEffects.apply_rotate. now rewrite Hrot.
  - exact (video_params_unknown s Hs).
  - intros fr g. unfold VideoEffects.glitch_frame.
    now rewrite (video_params_unknown s Hs VideoEffects.Glitch).
Qed.

(** The theorem at the level string extreme, on the video engine's
    glitch probability. *)
Lemma unknown_level_is_default_witness :
  VideoEffects.level_param VideoEffects.Glitch "extreme" = (2 # 10)%Q.
Proof.
  refine (proj1 (proj2 (unknown_level_is_default "extreme" _)) VideoEffects.Glitch).
  intros [H | [H | H]]; discriminate H.
Defined.

(** ** Shapes of the results *)

(** *** The pure effects *)

Lemma stack3_rows (f1 f2 f3 : list pixel -> list Z) (img : frame) :
  stack3 (map f1 img) (map f2 img) (map f3 img)
  = map (fun row => stack_row (f1 row) (f2 row) (f3 row)) img.
Proof.
  induction img as [| row img IH]; cbn; [reflexivity | now rewrite IH].
Qed.

Lemma stack_row_length (r g b : list Z) :
  length g = length r -> length b = length r ->
  length (stack_row r g b) = length r.
Proof.
  intros Hg Hb. rewrite <- (stack_row_red r g b Hg Hb) at 2.
  now rewrite length_map.
Qed.

Lemma shape_chromatic_aberration (img : frame) (level : string) (h w : nat) :
  has_shape h w img ->
  has_shape h w (ImageEffects.apply_chromatic_aberration img level).
Proof.
  intros H. unfold ImageEffects.apply_chromatic_aberration, channel, Py.roll_axis1.
  cbv zeta. rewrite !map_map. rewrite stack3_rows.
  apply has_shape_map_pixels. revert H. apply has_shape_map.
  intros row. rewrite stack_row_length; rewrite ?roll_length, ?length_map; reflexivity.
Qed.

Lemma shape_color_saturation (img : frame) (level : string) (h w : nat) :
  has_shape h w img ->
  has_shape h w (ImageEffects.apply_color_saturation img level).
Proof.
  intros H. unfold ImageEffects.apply_color_saturation. cbv zeta.
  apply has_shape_blend; [| exact H].
  unfold Pillow.grayscale_rgb. now apply has_shape_map_pixels.
Qed.

Lemma shape_vignette (img : frame) (level : string) (h w : nat) :
  has_shape h w img ->
  has_shape h w (ImageEffects.apply_vignette img level).
Proof.
  unfold ImageEffects.apply_vignette. cbv zeta.
  apply has_shape_imap. intros y row. apply imap_length.
Qed.

(** A quarter turn swaps the two dimensions. *)
Lemma shape_transpose_rotate_90 (img : frame) (h w : nat) :
  has_shape h w img -> (0 < h)%nat ->
  has_shape w h (Pillow.transpose_rotate_90 img).
Proof.
  intros H Hh. destruct (width_of_shape h w img H Hh) as [Hw _].
  unfold Pillow.transpose_rotate_90. rewrite Hw, Nat2Z.id.
  destruct H as [Hlen _]. split.
  - now rewrite length_map, length_seq.
  - apply Forall_map. apply Forall_forall. intros yo _.
    now rewrite length_map.
Qed.

Lemma shape_rotate_high (W : ImageEffects.world) (img : frame) (h w : nat) :
  has_shape h w img -> (0 < h)%nat ->
  has_shape w h (ImageEffects.apply_rotate W img "high").
Proof.
  intros H Hh. unfold ImageEffects.apply_rotate.
  change (ImageEffects.rotate_angle "high") with 90.
  unfold Pillow.rotate. change (90 mod 360) with 90. cbn [Z.eqb Pos.eqb].
  now apply shape_transpose_rotate_90.
Qed.

(** *** The effects that sample or may raise *)

Lemma returns_ret {A : Type} (a : A) (P : A -> Prop) : P a -> returns (ret a) P.
Proof. intros H g. exists a, g. auto. Qed.

Lemma returns_bind {A B : Type} (m : M A) (k : A -> M B) (P : A -> Prop) (R : B -> Prop) :
  returns m P -> (forall a, P a -> returns (k a) R) -> returns (bind m k) R.
Proof.
  intros Hm Hk g. destruct (Hm g) as (a & g1 & E & Ha).
  unfold bind. rewrite E. apply Hk, Ha.
Qed.

Lemma returns_draw : returns Random.draw (fun _ => True).
Proof. intros g. eexists. eexists. split; [reflexivity | exact I]. Qed.

Lemma returns_randint (a b : Z) :
  a <= b -> returns (Random.randint a b) (fun _ => True).
Proof.
  intros H. unfold Random.randint.
  destruct (Z.ltb_spec b a); [lia |].
  eapply returns_bind; [exact returns_draw |].
  intros u _. now apply returns_ret.
Qed.

Lemma returns_np_randint (a b : Z) :
  a < b -> returns (Random.np_randint a b) (fun _ => True).
Proof.
  intros H. unfold Random.np_randint.
  destruct (Z.leb_spec b a); [lia |].
  eapply returns_bind; [exact returns_draw |].
  intros u _. now apply returns_ret.
Qed.

Lemma returns_mapM {A B : Type} (f : A -> M B) (R : A -> B -> Prop) (l : list A) :
  (forall x, returns (f x) (R x)) ->
  returns (mapM f l) (Forall2 R l).
Proof.
  intros Hf. induction l as [| x l IH]; cbn [mapM].
  - apply returns_ret. constructor.
  - eapply returns_bind; [apply Hf |]. intros y Hy.
    eapply returns_bind; [exact IH |]. intros ys Hys.
    apply returns_ret. now constructor.
Qed.

Lemma returns_repeatM {A : Type} (body : A -> M A) (P : A -> Prop) (n : nat) (a : A) :
  (forall x, P x -> returns (body x) P) ->
  P a -> returns (ImageEffects.repeatM n body a) P.
Proof.
  intros Hb. revert a. induction n as [| n IH]; intros a Ha; cbn [ImageEffects.repeatM].
  - now apply returns_ret.
  - eapply returns_bind; [now apply Hb |]. intros x Hx. now apply IH.
Qed.

Lemma Forall2_length_shape (h w : nat) (img out : frame) :
  has_shape h w img ->
  Forall2 (fun row row' => length row' = length row) img out ->
  has_shape h w out.
Proof.
  intros [Hh Hw] H2. split.
  - rewrite <- Hh. symmetry. eapply Forall2_length. exact H2.
  - clear Hh. induction H2 as [| row row' img out Hlen _ IH]; [constructor |].
    inversion Hw; subst. constructor; [congruence | now apply IH].
Qed.

Lemma shape_film_grain (img : frame) (level : string) (h w : nat) :
  has_shape h w img ->
  returns (ImageEffects.apply_film_grain img level) (has_shape h w).
Proof.
  intros H. unfold ImageEffects.apply_film_grain. cbv zeta.
  intros g.
  destruct (returns_mapM
              (mapM (ImageEffects.grain_pixel (ImageEffects.grain_strength level)))
              (fun row row' => length row' = length row) img) with (g := g)
    as (out & g' & E & Hout).
  - intros row g0.
    destruct (returns_mapM
                (ImageEffects.grain_pixel (ImageEffects.grain_strength level))
                (fun _ _ => True) row) with (g := g0) as (row' & g1 & E1 & H1).
    + intros p. unfold ImageEffects.grain_pixel.
      repeat (eapply returns_bind; [apply returns_np_randint; lia | intros ? _]).
      now apply returns_ret.
    + exists row', g1. split; [exact E1 |].
      symmetry. eapply Forall2_length. exact H1.
  - exists out, g'. split; [exact E |].
    eapply Forall2_length_shape; eauto.
Qed.

Lemma shape_contrast (img : frame) (level : string) (h w : nat) :
  has_shape h w img -> (0 < h)%nat -> (0 < w)%nat ->
  returns (ImageEffects.apply_contrast_brightness img level) (has_shape h w).
Proof.
  intros H Hh Hw. unfold ImageEffects.apply_contrast_brightness. cbv zeta.
  unfold Pillow.mean_luma.
  pose proof (concat_nonempty h w img H Hh Hw) as Hne.
  destruct (concat img) as [| p ps]; [contradiction |]. cbn [map].
  apply returns_ret. apply has_shape_blend; [| exact H].
  now apply has_shape_map_pixels.
Qed.

Lemma shape_neon_glow (img : frame) (level : string) (h w : nat) :
  has_shape h w img -> (0 < h)%nat -> (0 < w)%nat ->
  returns (ImageEffects.apply_neon_glow img level) (has_shape h w).
Proof.
  intros H Hh Hw. unfold ImageEffects.apply_neon_glow, ImageEffects.neon_from_edges. cbv zeta.
  set (gray := map (map ImageEffects.neon_gray) img).
  set (edges := Py.imap _ img).
  assert (He : has_shape h w edges).
  { unfold edges. revert H. apply has_shape_imap. intros y row. apply imap_length. }
  pose proof (concat_nonempty h w edges He Hh Hw) as Hne.
  destruct (concat edges) as [| e es] eqn:Ec; [contradiction |].
  apply returns_ret. revert He. apply has_shape_map.
  intros row. apply length_map.
Qed.

(** *** Cartoon *)

Lemma cartoon_filter_size_values (level : string) :
  ImageEffects.cartoon_filter_size level = 5
  \/ ImageEffects.cartoon_filter_size level = 15
  \/ ImageEffects.cartoon_filter_size level = 25.
Proof.
  unfold ImageEffects.cartoon_filter_size. cbn.
  destruct (String.eqb level "low"); [auto |].
  destruct (String.eqb level "medium"); [auto |].
  destruct (String.eqb level "high"); auto.
Qed.

(** The median filter writes one pixel for each pixel of its input. *)
Lemma shape_median_filter (size : Z) (img out : frame) (h w : nat) :
  has_shape h w img -> Pillow.median_filter size img = Ok out -> has_shape h w out.
Proof.
  intros H. unfold Pillow.median_filter.
  destruct (Z.even size || (size <? 1)); [discriminate |].
  cbv zeta. intros [= <-].
  apply has_shape_imap; [| exact H]. intros y row. apply imap_length.
Qed.

Lemma shape_cartoon (W : ImageEffects.world) (img : frame) (level : string) (h w : nat) :
  has_shape h w img ->
  returns (ImageEffects.apply_cartoon_painterly W img level) (has_shape h w).
Proof.
  intros H. unfold ImageEffects.apply_cartoon_painterly. cbv zeta.
  destruct (Pillow.median_filter (ImageEffects.cartoon_filter_size level) img)
    as [filtered | e] eqn:E.
  - apply returns_ret. apply has_shape_map_pixels.
    exact (shape_median_filter _ _ _ _ _ H E).
  - exfalso. unfold Pillow.median_filter in E.
    destruct (cartoon_filter_size_values level) as [V | [V | V]];
      rewrite V in E; discriminate E.
Qed.

Lemma shape_resize_nearest (img : frame) (h w : nat) :
  (0 < h)%nat -> (0 < w)%nat ->
  exists out, Pillow.resize_nearest img (Z.of_nat w) (Z.of_nat h) = Ok out
              /\ has_shape h w out.
Proof.
  intros Hh Hw. unfold Pillow.resize_nearest.
  destruct (Z.ltb_spec (Z.of_nat w) 1); [lia |].
  destruct (Z.ltb_spec (Z.of_nat h) 1); [lia |].
  cbn [orb]. eexists. split; [reflexivity |].
  rewrite !Nat2Z.id. split.
  - now rewrite length_map, length_seq.
  - apply Forall_map. apply Forall_forall. intros y _.
    now rewrite length_map, length_seq.
Qed.

(** [int(a / b)] for integers [a >= b > 0] is at least 1. *)
Lemma trunc_quotient_pos (a b : Z) :
  0 < b -> b <= a -> 1 <= Py.trunc (inject_Z a / inject_Z b)%Q.
Proof.
  intros Hb Hab. destruct b as [| p | p]; try lia.
  unfold Py.trunc, Qdiv, Qinv, Qmult, inject_Z. cbn [Qnum Qden].
  rewrite Z.mul_1_r, Pos.mul_1_l.
  apply Z.quot_le_lower_bound; lia.
Qed.

Lemma pixel_size_values (level : string) :
  ImageEffects.pixel_size level = 95 \/ ImageEffects.pixel_size level = 85
  \/ ImageEffects.pixel_size level = 75.
Proof.
  unfold ImageEffects.pixel_size. cbn.
  destruct (String.eqb level "low"); [auto |].
  destruct (String.eqb level "medium"); [auto |].
  destruct (String.eqb level "high"); auto.
Qed.

Lemma shape_pixelated (W : ImageEffects.world) (img : frame) (level : string) (h w : nat) :
  has_shape h w img -> (0 < h)%nat -> (0 < w)%nat ->
  Z.of_nat w <= ImageEffects.pixel_size level * Z.of_nat h ->
  returns (ImageEffects.apply_pixelated W img level) (has_shape h w).
Proof.
  intros H Hh Hw Hfit. unfold ImageEffects.apply_pixelated. cbv zeta.
  destruct (width_of_shape h w img H Hh) as [Ew Eh]. rewrite Ew, Eh.
  destruct (Z.eqb_spec (Z.of_nat w) 0); [lia |].
  unfold Pillow.resize_bilinear_checked.
  pose proof (trunc_quotient_pos
                (ImageEffects.pixel_size level * Z.of_nat h) (Z.of_nat w)
                ltac:(lia) Hfit) as Hsmall.
  destruct (Z.ltb_spec (ImageEffects.pixel_size level) 1) as [Hp | _];
    [destruct (pixel_size_values level) as [E | [E | E]]; rewrite E in Hp; lia |].
  destruct (Z.ltb_spec
              (Py.trunc (inject_Z (ImageEffects.pixel_size level * Z.of_nat h)
                         / inject_Z (Z.of_nat w))) 1) as [Hq | _]; [lia |].
  cbn [orb].
  destruct (shape_resize_nearest
              (Pillow.resize_bilinear (ImageEffects.pil W) img
                 (ImageEffects.pixel_size level)
                 (Py.trunc (inject_Z (ImageEffects.pixel_size level * Z.of_nat h)
                            / inject_Z (Z.of_nat w))))
              h w Hh Hw) as (out & E & Hout).
  rewrite E. now apply returns_ret.
Qed.

(** *** Glitch *)

Lemma slice_bound_le (n : nat) (i : Z) : (Py.slice_bound (Z.of_nat n) i <= n)%nat.
Proof.
  unfold Py.slice_bound. destruct (Z.ltb_spec i 0); lia.
Qed.

Lemma fill_slice_length {A : Type} (a : list A) (start stop : nat) (v : A) :
  (stop <= length a)%nat -> length (Py.fill_slice a start stop v) = length a.
Proof.
  intros H. unfold Py.fill_slice.
  destruct (Nat.ltb_spec start stop); [| reflexivity].
  rewrite !length_app, length_firstn, repeat_length, length_skipn. lia.
Qed.

Lemma blank_rolled_length (d : Z) (row : list pixel) :
  length (ImageEffects.blank_rolled d row) = length row.
Proof.
  unfold ImageEffects.blank_rolled. cbv zeta.
  destruct (0 <? d); apply fill_slice_length; [apply slice_bound_le | lia].
Qed.

Lemma Forall_firstn_skipn {A : Type} (P : A -> Prop) (n : nat) (l : list A) :
  Forall P l -> Forall P (firstn n l) /\ Forall P (skipn n l).
Proof.
  intros H. rewrite <- (firstn_skipn n l) in H. now apply Forall_app in H.
Qed.

Lemma shape_glitch_strip (fr : frame) (gh y d : Z) (h w : nat) :
  has_shape h w fr ->
  has_shape h w (ImageEffects.glitch_strip fr gh y d).
Proof.
  intros [Hh Hw]. unfold ImageEffects.glitch_strip, height. cbv zeta.
  rewrite Hh.
  pose proof (slice_bound_le h y) as Hlo.
  pose proof (slice_bound_le h (y + gh)) as Hhi.
  set (lo := Py.slice_bound (Z.of_nat h) y) in *.
  set (hi := Py.slice_bound (Z.of_nat h) (y + gh)) in *.
  unfold Py.set_slice, Py.get_slice.
  destruct (Nat.ltb_spec lo hi) as [Hlt | Hge]; [| now split].
  split.
  - rewrite !length_app, !length_map, !length_firstn, !length_skipn. lia.
  - destruct (Forall_firstn_skipn _ lo fr Hw) as [Hfirst Hrest].
    destruct (Forall_firstn_skipn _ (hi - lo) _ Hrest) as [Hmid _].
    destruct (Forall_firstn_skipn _ hi fr Hw) as [_ Hlast].
    apply Forall_app. split; [exact Hfirst |].
    apply Forall_app. split; [| exact Hlast].
    apply Forall_map. apply Forall_map.
    eapply Forall_impl; [| exact Hmid].
    intros row Hrow. cbn. now rewrite blank_rolled_length, roll_length.
Qed.

Lemma shape_glitch_once (fr : frame) (h w : nat) :
  has_shape h w fr -> (0 < h)%nat ->
  returns (ImageEffects.glitch_once fr) (has_shape h w).
Proof.
  intros H Hh. unfold ImageEffects.glitch_once. cbv zeta.
  destruct (width_of_shape h w fr H Hh) as [Ew Eh]. rewrite Ew, Eh.
  eapply returns_bind.
  - apply returns_randint.
    assert (Z.of_nat h / 20 <= Z.of_nat h) by (apply Z.div_le_upper_bound; lia).
    lia.
  - intros y _. eapply returns_bind.
    + apply returns_randint.
      assert (- Z.of_nat w / 4 <= 0) by (apply Z.div_le_upper_bound; lia).
      assert (0 <= Z.of_nat w / 4) by (apply Z.div_pos; lia).
      lia.
    + intros d _. apply returns_ret. now apply shape_glitch_strip.
Qed.

Lemma shape_glitch_attempt (p : Q) (fr : frame) (h w : nat) :
  has_shape h w fr -> (0 < h)%nat ->
  returns (ImageEffects.glitch_attempt p fr) (has_shape h w).
Proof.
  intros H Hh. unfold ImageEffects.glitch_attempt.
  eapply returns_bind; [exact returns_draw |]. intros u _.
  destruct (ImageEffects.glitch_triggers p u);
    [now apply shape_glitch_once | now apply returns_ret].
Qed.

Lemma shape_glitch (img : frame) (level : string) (h w : nat) :
  has_shape h w img -> (0 < h)%nat ->
  returns (ImageEffects.apply_glitch img level) (has_shape h w).
Proof.
  intros H Hh. unfold ImageEffects.apply_glitch. cbv zeta.
  eapply returns_bind; [apply returns_randint; lia |].
  intros attempts _. apply returns_repeatM; [| exact H].
  intros fr Hfr. now apply shape_glitch_attempt.
Qed.

(** *** The look-up table *)

(** A normalised uint8 value lies within the grid of a table of size at
    least 2. *)
Lemma uint8_in_bounds (n v : Z) :
  2 <= n -> uint8 v -> Cube.in_bounds n (inject_Z v / 255)%Q = true.
Proof.
  intros Hn [Hv0 Hv1]. unfold Cube.in_bounds.
  rewrite !grid_point_eq by exact Hn.
  destruct (n - 1) as [| p | p] eqn:Ep; try lia.
  apply andb_true_iff. split; apply Qle_bool_iff; unfold Qle; cbn; nia.
Qed.

Lemma uint8_frame_in_bounds (n : Z) (img : frame) :
  2 <= n -> uint8_frame img ->
  forallb (forallb (Cube.pixel_in_bounds n)) img = true.
Proof.
  intros Hn Hu. apply forallb_forall. intros row Hrow.
  apply forallb_forall. intros p Hp.
  unfold uint8_frame in Hu. rewrite Forall_forall in Hu.
  specialize (Hu row Hrow). rewrite Forall_forall in Hu.
  destruct (Hu p Hp) as (Hr & Hg & Hb).
  unfold Cube.pixel_in_bounds. now rewrite !uint8_in_bounds.
Qed.

Lemma shape_lut (W : ImageEffects.world) (img : frame) (path : string) (h w : nat)
      (lines : list Cube.str) (a : Cube.lut_array) :
  has_shape h w img -> uint8_frame img ->
  ImageEffects.read_lines W path = Some lines ->
  Cube.parse_cube_file (ImageEffects.python W) lines = Ok a ->
  2 <= Cube.array_size a ->
  returns (ImageEffects.apply_lut W img path) (has_shape h w).
Proof.
  intros H Hu Hfile Hparse Hn g.
  unfold ImageEffects.apply_lut. rewrite Hfile, Hparse.
  unfold Cube.apply_lut_to_frame. rewrite uint8_frame_in_bounds by assumption.
  destruct (Cube.finite_table a); eexists; eexists;
    (split; [reflexivity |]); now apply has_shape_map_pixels.
Qed.

(** C4, as stated, fails at Rotate: at level high the ramp frame, one row
    of four pixels, comes back as four rows of one pixel. *)
Lemma every_effect_keeps_shape_fails : ~ every_effect_keeps_shape.
Proof.
  intros H.
  specialize (H plain_world ImageEffects.Rotate "high"%string ramp_frame
                1%nat 4%nat (constant_tape 0)
                (ImageEffects.apply_rotate plain_world ramp_frame "high")
                (constant_tape 0) ramp_frame_shape eq_refl).
  destruct H as [Hlen _]. vm_compute in Hlen. discriminate Hlen.
Qed.

(** * Further properties of the engines *)

(** ** Glitch: the strip *)

Lemma nth_fill_slice {A : Type} (a : list A) (start stop : nat) (v d : A) (i : nat) :
  (stop <= length a)%nat -> (i < length a)%nat ->
  nth i (Py.fill_slice a start stop v) d
  = if ((start <=? i) && (i <? stop) && (start <? stop))%nat then v else nth i a d.
Proof.
  intros Hstop Hi. unfold Py.fill_slice.
  destruct (Nat.ltb_spec start stop) as [Hlt | Hge].
  - rewrite andb_true_r.
    destruct (Nat.leb_spec start i) as [Hsi | Hsi]; cbn [andb].
    + rewrite app_nth2 by (rewrite length_firstn; lia).
      rewrite length_firstn, Nat.min_l by lia.
      destruct (Nat.ltb_spec i stop) as [His | His].
      * rewrite app_nth1 by (rewrite repeat_length; lia).
        apply nth_repeat_lt. lia.
      * rewrite app_nth2 by (rewrite repeat_length; lia).
        rewrite repeat_length, nth_skipn. f_equal. lia.
    + rewrite app_nth1 by (rewrite length_firstn; lia).
      rewrite nth_firstn.
      destruct (Nat.ltb_spec i start); [reflexivity | lia].
  - rewrite andb_false_r. reflexivity.
Qed.

Lemma nth_set_slice {A : Type} (a b : list A) (start stop : nat) (d : A) (i : nat) :
  (start <= stop)%nat -> (stop <= length a)%nat -> length b = (stop - start)%nat ->
  nth i (Py.set_slice a start stop b) d
  = if ((start <=? i) && (i <? stop))%nat then nth (i - start) b d else nth i a d.
Proof.
  intros Hss Hstop Hb. unfold Py.set_slice.
  destruct (Nat.ltb_spec start stop) as [Hlt | Hge].
  - destruct (Nat.leb_spec start i) as [Hsi | Hsi]; cbn [andb].
    + rewrite app_nth2 by (rewrite length_firstn; lia).
      rewrite length_firstn, Nat.min_l by lia.
      destruct (Nat.ltb_spec i stop) as [His | His].
      * apply app_nth1. lia.
      * rewrite app_nth2 by lia.
        rewrite nth_skipn. f_equal. lia.
    + rewrite app_nth1 by (rewrite length_firstn; lia).
      rewrite nth_firstn.
      destruct (Nat.ltb_spec i start); [reflexivity | lia].
  - destruct (Nat.leb_spec start i); destruct (Nat.ltb_spec i stop);
      cbn [andb]; try reflexivity; lia.
Qed.

Lemma nth_get_slice {A : Type} (a : list A) (start stop : nat) (d : A) (i : nat) :
  (i < stop - start)%nat ->
  nth i (Py.get_slice a start stop) d = nth (start + i) a d.
Proof.
  intros Hi. unfold Py.get_slice. rewrite nth_firstn.
  destruct (Nat.ltb_spec i (stop - start)); [| lia].
  apply nth_skipn.
Qed.

Lemma get_slice_length {A : Type} (a : list A) (start stop : nat) :
  (stop <= length a)%nat ->
  length (Py.get_slice a start stop) = (stop - start)%nat.
Proof.
  intros H. unfold Py.get_slice. rewrite length_firstn, length_skipn. lia.
Qed.

Lemma slice_bound_inside (n : nat) (i : Z) :
  0 <= i <= Z.of_nat n -> Py.slice_bound (Z.of_nat n) i = Z.to_nat i.
Proof.
  intros H. unfold Py.slice_bound.
  destruct (Z.ltb_spec i 0); [lia |]. f_equal. lia.
Qed.

(** A row rolled by [d] and blanked: the row moved by [d] columns, black
    where no pixel of the row arrives; black everywhere for [d = 0]. *)
Lemma blank_rolled_nth (d : Z) (row : list pixel) (x : nat) :
  (x < length row)%nat ->
  nth x (ImageEffects.blank_rolled d (Py.roll d row)) black
  = if (d =? 0) then black
    else if (0 <=? Z.of_nat x - d) && (Z.of_nat x - d <? Z.of_nat (length row))
         then nth (Z.to_nat (Z.of_nat x - d)) row black
         else black.
Proof.
  intros Hx. unfold ImageEffects.blank_rolled. cbv zeta.
  rewrite roll_length.
  set (n := length row) in *.
  assert (Hroll : nth x (Py.roll d row) black
                  = nth (Z.to_nat ((Z.of_nat x - d) mod Z.of_nat n)) row black)
    by (apply roll_nth; exact Hx).
  unfold Py.slice_bound.
  destruct (Z.ltb_spec 0 d) as [Hpos | Hnonpos].
  - destruct (Z.ltb_spec d 0); [lia |].
    rewrite nth_fill_slice by (rewrite ?roll_length; fold n; lia).
    destruct (Z.eqb_spec d 0); [lia |].
    cbn [Nat.leb andb].
    destruct (Nat.ltb_spec x (Z.to_nat (Z.min d (Z.of_nat n)))) as [Hin | Hout].
    + destruct (Nat.ltb_spec 0 (Z.to_nat (Z.min d (Z.of_nat n)))); [| lia].
      cbn [andb].
      destruct (Z.leb_spec 0 (Z.of_nat x - d)); [lia | reflexivity].
    + cbn [andb]. rewrite Hroll.
      destruct (Z.leb_spec 0 (Z.of_nat x - d)); [| lia].
      destruct (Z.ltb_spec (Z.of_nat x - d) (Z.of_nat n)); [| lia].
      cbn [andb]. now rewrite Z.mod_small by lia.
  - rewrite nth_fill_slice by (rewrite ?roll_length; fold n; lia).
    destruct (Z.eqb_spec d 0) as [-> | Hne].
    + destruct (Z.ltb_spec 0 0); [lia |].
      rewrite Z.min_l by lia. cbn [Z.to_nat Nat.leb andb].
      destruct (Nat.ltb_spec x n); [| lia].
      destruct (Nat.ltb_spec 0 n); [| lia]. reflexivity.
    + destruct (Z.ltb_spec d 0); [| lia].
      destruct (Z.leb_spec 0 (Z.of_nat x - d)); [| lia]. cbn [andb].
      destruct (Nat.ltb_spec x n); [| lia]. rewrite andb_true_r.
      destruct (Nat.leb_spec (Z.to_nat (Z.max (Z.of_nat n + d) 0)) x) as [Hin | Hout].
      * destruct (Nat.ltb_spec (Z.to_nat (Z.max (Z.of_nat n + d) 0)) n); [| lia].
        cbn [andb].
        destruct (Z.ltb_spec (Z.of_nat x - d) (Z.of_nat n)); [lia | reflexivity].
      * cbn [andb]. rewrite Hroll.
        destruct (Z.ltb_spec (Z.of_nat x - d) (Z.of_nat n)); [| lia].
        now rewrite Z.mod_small by lia.
Qed.

(** A row of the result of [glitch_strip], for a strip that lies inside
    the frame. *)
Lemma glitch_strip_row (fr : frame) (gh y d : Z) (h : nat) (yy : nat) :
  length fr = h -> 0 <= y -> 0 <= gh -> y + gh <= Z.of_nat h -> (yy < h)%nat ->
  nth yy (ImageEffects.glitch_strip fr gh y d) []
  = if (y <=? Z.of_nat yy) && (Z.of_nat yy <? y + gh)
    then ImageEffects.blank_rolled d (Py.roll d (nth yy fr []))
    else nth yy fr [].
Proof.
  intros Hh Hy Hgh Hin Hyy. unfold ImageEffects.glitch_strip, height. cbv zeta.
  rewrite Hh. rewrite !slice_bound_inside by lia.
  rewrite nth_set_slice;
    [| lia | lia | rewrite !length_map, get_slice_length by lia; reflexivity ].
  destruct (Nat.leb_spec (Z.to_nat y) yy) as [H1 | H1];
    destruct (Nat.ltb_spec yy (Z.to_nat (y + gh))) as [H2 | H2]; cbn [andb].
  - destruct (Z.leb_spec y (Z.of_nat yy)); [| lia].
    destruct (Z.ltb_spec (Z.of_nat yy) (y + gh)); [| lia]. cbn [andb].
    rewrite (nth_indep _ [] (ImageEffects.blank_rolled d (Py.roll d [])))
      by (rewrite !length_map, get_slice_length by lia; lia).
    rewrite (map_nth (ImageEffects.blank_rolled d)).
    rewrite (map_nth (Py.roll d)).
    rewrite nth_get_slice by lia.
    do 3 f_equal. lia.
  - destruct (Z.ltb_spec (Z.of_nat yy) (y + gh)); [lia |].
    now rewrite andb_false_r.
  - destruct (Z.leb_spec y (Z.of_nat yy)); [lia | reflexivity].
  - destruct (Z.leb_spec y (Z.of_nat yy)); [lia | reflexivity].
Qed.

Lemma glitch_strip_pixel (fr : frame) (gh y d : Z) (h w yy x : nat) :
  has_shape h w fr -> 0 <= y -> 0 <= gh -> y + gh <= Z.of_nat h ->
  (yy < h)%nat -> (x < w)%nat ->
  pixel_at (ImageEffects.glitch_strip fr gh y d) yy x
  = if (y <=? Z.of_nat yy) && (Z.of_nat yy <? y + gh)
    then if d =? 0 then black
         else if (0 <=? Z.of_nat x - d) && (Z.of_nat x - d <? Z.of_nat w)
              then pixel_at fr yy (Z.to_nat (Z.of_nat x - d))
              else black
    else pixel_at fr yy x.
Proof.
  intros Hs Hy Hgh Hin Hyy Hx. unfold pixel_at.
  pose proof (shape_row h w fr yy Hs Hyy) as Hrow.
  destruct Hs as [Hh _].
  rewrite (glitch_strip_row fr gh y d h yy Hh Hy Hgh Hin Hyy).
  destruct ((y <=? Z.of_nat yy) && (Z.of_nat yy <? y + gh)); [| reflexivity].
  rewrite blank_rolled_nth by lia. now rewrite Hrow.
Qed.

(** X1. A glitch with a displacement [d] other than 0 moves the rows of
    its strip by [d] columns without wrapping: inside the strip, column
    [x] of the result is column [x - d] of the input when that column
    exists and black otherwise; every row outside the strip is left as it
    was. *)
Theorem glitch_moves_strip_without_wrap
  (fr : frame) (gh y d : Z) (h w yy x : nat) :
  has_shape h w fr -> 0 <= y -> 0 <= gh -> y + gh <= Z.of_nat h ->
  d <> 0 -> (yy < h)%nat -> (x < w)%nat ->
  pixel_at (ImageEffects.glitch_strip fr gh y d) yy x
  = if (y <=? Z.of_nat yy) && (Z.of_nat yy <? y + gh)
    then if (0 <=? Z.of_nat x - d) && (Z.of_nat x - d <? Z.of_nat w)
         then pixel_at fr yy (Z.to_nat (Z.of_nat x - d))
         else black
    else pixel_at fr yy x.
Proof.
  intros Hs Hy Hgh Hin Hd Hyy Hx.
  rewrite (glitch_strip_pixel fr gh y d h w yy x) by assumption.
  destruct (Z.eqb_spec d 0); [contradiction | reflexivity].
Qed.

(** The theorem on the five-pixel frame, strip row 0, displacement 2:
    column 3 of the result is column 1 of the input. *)
Lemma glitch_moves_strip_without_wrap_witness :
  pixel_at (ImageEffects.glitch_strip five_frame 1 0 2) 0 3 = mkPixel 2 2 2.
Proof.
  rewrite (glitch_moves_strip_without_wrap five_frame 1 0 2 1 5 0 3);
    try lia; try reflexivity.
  split; [reflexivity | repeat constructor].
Defined.

(** X2. A displacement of 0 blanks the strip: the branch
    [strip[:, displacement:] = 0] then covers every column, and every
    pixel of every row of the strip comes out black. *)
Theorem glitch_zero_displacement_blanks_strip
  (fr : frame) (gh y : Z) (h w yy x : nat) :
  has_shape h w fr -> 0 <= y -> y + gh <= Z.of_nat h ->
  y <= Z.of_nat yy < y + gh -> (x < w)%nat ->
  pixel_at (ImageEffects.glitch_strip fr gh y 0) yy x = black.
Proof.
  intros Hs Hy Hin Hyy Hx.
  rewrite (glitch_strip_pixel fr gh y 0 h w yy x) by (assumption || lia).
  destruct (Z.leb_spec y (Z.of_nat yy)); [| lia].
  destruct (Z.ltb_spec (Z.of_nat yy) (y + gh)); [| lia]. reflexivity.
Qed.

(** The theorem on the five-pixel frame. *)
Lemma glitch_zero_displacement_blanks_strip_witness :
  pixel_at (ImageEffects.glitch_strip five_frame 1 0 0) 0 3 = black.
Proof.
  apply (glitch_zero_displacement_blanks_strip five_frame 1 0 1 5 0 3); try lia.
  split; [reflexivity | repeat constructor].
Defined.

(** ** Glitch: what a triggered attempt draws *)

Lemma valid_after_draws (n : nat) (g : state) :
  valid_tape g -> valid_tape (after_draws n g).
Proof. intros H k. exact (H k). Qed.

Lemma after_draws_add (n m : nat) (g : state) :
  after_draws n (after_draws m g) = after_draws (n + m) g.
Proof. unfold after_draws. cbn. f_equal. lia. Qed.

Lemma randint_valid (a b : Z) (g : state) :
  a <= b -> valid_tape g ->
  exists n, Random.randint a b g = Ok (n, after_draws 1 g) /\ a <= n <= b.
Proof.
  intros Hab Hg. destruct (Hg (pos g)) as [H0 H1].
  destruct (randint_in_range a b g Hab H0 H1) as (n & E & Hn).
  exists n. split; [exact E | exact Hn].
Qed.

(** X3. From a state with a valid tape, the triggered branch of an
    attempt on a frame of [h >= 1] rows and [w] columns takes two draws
    and glitches a strip of [max(1, h // 20)] rows that lies wholly inside
    the frame, from a row [y] with [0 <= y <= h - glitch_height], by a
    displacement [d] with [-w // 4 <= d <= w // 4] in the floor division
    of Python. The lower bound is a quarter of the width rounded up, so
    that [d] can exceed a quarter of the width to the left, by less than
    one column: [4 * |d| < w + 4] (at [w = 5] the bounds are -2 and 1). *)
Theorem glitch_once_draws_inside (fr : frame) (h w : nat) (g : state) :
  has_shape h w fr -> (0 < h)%nat -> valid_tape g ->
  let glitch_height := Z.max 1 (Z.of_nat h / 20) in
  exists y d,
    ImageEffects.glitch_once fr g
    = Ok (ImageEffects.glitch_strip fr glitch_height y d, after_draws 2 g)
    /\ 0 <= y /\ y + glitch_height <= Z.of_nat h
    /\ - Z.of_nat w / 4 <= d <= Z.of_nat w / 4
    /\ 4 * Z.abs d < Z.of_nat w + 4.
Proof.
  intros Hs Hh Hg gh.
  destruct (width_of_shape h w fr Hs Hh) as [Ew Eh].
  unfold ImageEffects.glitch_once. cbv zeta. rewrite Ew, Eh. fold gh.
  assert (Hgh : gh <= Z.of_nat h).
  { unfold gh. assert (Z.of_nat h / 20 <= Z.of_nat h)
      by (apply Z.div_le_upper_bound; lia). lia. }
  destruct (randint_valid 0 (Z.of_nat h - gh) g ltac:(lia) Hg) as (y & Ey & Hy).
  assert (Hlo : - Z.of_nat w / 4 <= 0) by (apply Z.div_le_upper_bound; lia).
  assert (Hhi : 0 <= Z.of_nat w / 4) by (apply Z.div_pos; lia).
  destruct (randint_valid (- Z.of_nat w / 4) (Z.of_nat w / 4) (after_draws 1 g)
              ltac:(lia) (valid_after_draws 1 g Hg)) as (d & Ed & Hd).
  exists y, d. unfold bind at 1. rewrite Ey. unfold bind at 1. rewrite Ed.
  rewrite after_draws_add. split; [reflexivity |].
  repeat split; try lia.
  pose proof (Z.div_mod (- Z.of_nat w) 4 ltac:(lia)) as D1.
  pose proof (Z.mod_pos_bound (- Z.of_nat w) 4 ltac:(lia)) as D2.
  pose proof (Z.div_mod (Z.of_nat w) 4 ltac:(lia)) as D3.
  pose proof (Z.mod_pos_bound (Z.of_nat w) 4 ltac:(lia)) as D4.
  lia.
Qed.

(** The theorem on the five-pixel frame with every draw at 0. *)
Lemma glitch_once_draws_inside_witness :
  exists y d,
    ImageEffects.glitch_once five_frame (constant_tape 0)
    = Ok (ImageEffects.glitch_strip five_frame (Z.max 1 (Z.of_nat 1 / 20)) y d,
          after_draws 2 (constant_tape 0))
    /\ 0 <= y /\ y + Z.max 1 (Z.of_nat 1 / 20) <= Z.of_nat 1
    /\ - Z.of_nat 5 / 4 <= d <= Z.of_nat 5 / 4
    /\ 4 * Z.abs d < Z.of_nat 5 + 4.
Proof.
  apply (glitch_once_draws_inside five_frame 1 5 (constant_tape 0)).
  - split; [reflexivity | repeat constructor].
  - lia.
  - intros n. cbn. split; [unfold Qle | unfold Qlt]; cbn; lia.
Defined.

(** ** Film grain *)

Lemma returns_after_ret {A : Type} (a : A) (P : A -> Prop) :
  P a -> returns_after 0 (ret a) P.
Proof. intros H g _. exists a. split; [destruct g; reflexivity | exact H]. Qed.

Lemma returns_after_bind {A B : Type} (n n' : nat) (m : M A) (k : A -> M B)
      (P : A -> Prop) (R : B -> Prop) :
  returns_after n m P -> (forall a, P a -> returns_after n' (k a) R) ->
  returns_after (n' + n) (bind m k) R.
Proof.
  intros Hm Hk g Hg. destruct (Hm g Hg) as (a & E & Ha).
  destruct (Hk a Ha (after_draws n g) (valid_after_draws n g Hg)) as (b & E' & Hb).
  exists b. unfold bind. rewrite E, E', after_draws_add.
  split; [reflexivity | exact Hb].
Qed.

Lemma np_randint_valid (low high : Z) :
  low < high -> returns_after 1 (Random.np_randint low high) (fun n => low <= n < high).
Proof.
  intros Hlh g Hg. destruct (Hg (pos g)) as [H0 H1].
  unfold Random.np_randint. destruct (Z.leb_spec high low); [lia |].
  unfold bind, Random.draw, ret. eexists. split; [reflexivity |].
  set (u := tape g (pos g)) in *. set (k := high - low).
  assert (Hk : (0 < inject_Z k)%Q).
  { change 0%Q with (inject_Z 0). rewrite <- Zlt_Qlt. unfold k. lia. }
  assert (Hlo : (0 <= u * inject_Z k)%Q) by (apply Qmult_le_0_compat; lra).
  assert (Hhi : (u * inject_Z k < inject_Z k)%Q).
  { assert (P : (0 < (1 - u) * inject_Z k)%Q) by (apply Qmult_lt_0_compat; lra). lra. }
  pose proof (Qfloor_resp_le _ _ Hlo) as F0. change (Qfloor 0) with 0 in F0.
  pose proof (Qfloor_le (u * inject_Z k)) as F1.
  assert (F2 : (inject_Z (Qfloor (u * inject_Z k)) < inject_Z k)%Q) by lra.
  rewrite <- Zlt_Qlt in F2. unfold k in *. lia.
Qed.

Lemma returns_after_mapM {A B : Type} (c : nat) (f : A -> M B) (R : A -> B -> Prop)
      (l : list A) :
  (forall x, In x l -> returns_after c (f x) (R x)) ->
  returns_after (length l * c) (mapM f l) (Forall2 R l).
Proof.
  induction l as [| x l IH]; intros Hf; cbn [mapM length].
  - apply returns_after_ret. constructor.
  - replace (S (length l) * c)%nat with (0 + length l * c + c)%nat by lia.
    eapply returns_after_bind; [apply Hf; now left |]. intros y Hy.
    eapply returns_after_bind; [apply IH; intros; apply Hf; now right |]. intros ys Hys.
    apply returns_after_ret. now constructor.
Qed.

Lemma Forall2_nth_rel {A B : Type} (R : A -> B -> Prop) (l : list A) (l' : list B)
      (d : A) (d' : B) (i : nat) :
  Forall2 R l l' -> (i < length l)%nat -> R (nth i l d) (nth i l' d').
Proof.
  intros H. revert i. induction H; intros [| i] Hi; cbn in *; try lia; auto.
  apply IHForall2. lia.
Qed.

Lemma Forall2_shape {A B : Type} (R : A -> B -> Prop) (h w : nat)
      (f : list (list A)) (f' : list (list B)) :
  Forall2 (Forall2 R) f f' -> has_shape h w f -> has_shape h w f'.
Proof.
  intros H [Hh Hw]. split.
  - rewrite <- Hh. symmetry. eapply Forall2_length; exact H.
  - clear Hh. induction H; constructor; inversion Hw; subst; auto.
    symmetry. eapply Forall2_length; eassumption.
Qed.

Lemma grain_strength_values (level : string) :
  ImageEffects.grain_strength level = 1%Q
  \/ ImageEffects.grain_strength level = (15 # 10)%Q
  \/ ImageEffects.grain_strength level = 2%Q.
Proof.
  unfold ImageEffects.grain_strength. cbn.
  destruct (String.eqb level "low"); [auto |].
  destruct (String.eqb level "medium"); [auto |].
  destruct (String.eqb level "high"); auto.
Qed.

Lemma clip_bounds (x lo hi : Q) :
  (lo <= hi)%Q -> (lo <= Py.clip x lo hi <= hi)%Q.
Proof.
  intros H. unfold Py.clip, Py.Qltb. cbv zeta.
  destruct (Qle_bool lo x) eqn:E1; cbn [negb].
  - apply Qle_bool_iff in E1.
    destruct (Qle_bool x hi) eqn:E2; cbn [negb].
    + apply Qle_bool_iff in E2. split; assumption.
    + split; [exact H | apply Qle_refl].
  - destruct (Qle_bool lo hi) eqn:E2; cbn [negb].
    + split; [apply Qle_refl | exact H].
    + split; [exact H | apply Qle_refl].
Qed.

Lemma clip_inside (x lo hi : Q) :
  (lo <= x <= hi)%Q -> Py.clip x lo hi = x.
Proof.
  intros [H1 H2]. unfold Py.clip, Py.Qltb. cbv zeta.
  apply Qle_bool_iff in H1. apply Qle_bool_iff in H2.
  rewrite H1. cbn [negb]. now rewrite H2.
Qed.

(** The cast of a float of [0, 255] is its floor, a uint8 value. *)
Lemma cast_in_range (x : Q) :
  (0 <= x <= 255)%Q ->
  Py.float_astype_uint8 x = Qfloor x /\ uint8 (Qfloor x).
Proof.
  intros [H0 H1]. unfold Py.float_astype_uint8.
  rewrite trunc_nonneg by exact H0.
  pose proof (Qfloor_resp_le _ _ H0) as F0. change (Qfloor 0) with 0 in F0.
  pose proof (Qfloor_resp_le _ _ H1) as F1. change (Qfloor 255) with 255 in F1.
  unfold Py.astype_uint8, uint8. rewrite Z.mod_small by lia. lia.
Qed.

(** One channel with its noise draw: the result is a uint8 value no
    further from [v] than the noise reaches. *)
Lemma grain_value_bounds (s : Q) (v n : Z) :
  (0 < s)%Q -> uint8 v -> -25 <= n < 25 ->
  let out := ImageEffects.grain_value s v n in
  uint8 out
  /\ (inject_Z v - 25 * s - 1 < inject_Z out)%Q
  /\ (inject_Z out <= inject_Z v + 24 * s)%Q.
Proof.
  intros Hs [Hv0 Hv1] [Hn0 Hn1] out. unfold out, ImageEffects.grain_value.
  set (x := (inject_Z v + inject_Z n * s)%Q).
  assert (HV0 : (0 <= inject_Z v)%Q) by (rewrite Zle_Qle in Hv0; exact Hv0).
  assert (HV1 : (inject_Z v <= 255)%Q).
  { assert (H : v <= 255) by lia. rewrite Zle_Qle in H. exact H. }
  assert (HN0 : (-25 <= inject_Z n)%Q) by (rewrite Zle_Qle in Hn0; exact Hn0).
  assert (HN1 : (inject_Z n <= 24)%Q).
  { assert (H : n <= 24) by lia. rewrite Zle_Qle in H. exact H. }
  assert (Hx0 : (inject_Z v - 25 * s <= x)%Q).
  { unfold x. assert (P : (0 <= (inject_Z n + 25) * s)%Q)
      by (apply Qmult_le_0_compat; lra). lra. }
  assert (Hx1 : (x <= inject_Z v + 24 * s)%Q).
  { unfold x. assert (P : (0 <= (24 - inject_Z n) * s)%Q)
      by (apply Qmult_le_0_compat; lra). lra. }
  pose proof (clip_bounds x 0 255 ltac:(lra)) as Hc.
  destruct (cast_in_range (Py.clip x 0 255) Hc) as [E Hu].
  rewrite E. split; [exact Hu |].
  pose proof (Qfloor_le (Py.clip x 0 255)) as F1.
  pose proof (Qlt_floor (Py.clip x 0 255)) as F2.
  rewrite inject_Z_plus in F2. change (inject_Z 1) with 1%Q in F2.
  assert (Hcx : (Py.clip x 0 255 <= x \/ Py.clip x 0 255 == 0)%Q
                /\ (x <= Py.clip x 0 255 \/ Py.clip x 0 255 == 255)%Q).
  { unfold Py.clip, Py.Qltb. cbv zeta.
    destruct (Qle_bool 0 x) eqn:E1; cbn [negb].
    - apply Qle_bool_iff in E1.
      destruct (Qle_bool x 255) eqn:E2; cbn [negb].
      + split; left; apply Qle_refl.
      + split; [left | right; reflexivity].
        destruct (Qlt_le_dec 255 x) as [L | L]; [lra |].
        apply Qle_bool_iff in L. congruence.
    - cbn. split; [right; reflexivity | left].
      destruct (Qlt_le_dec x 0) as [L | L]; [lra |].
      apply Qle_bool_iff in L. congruence. }
  destruct Hcx as [[Hup | Hup] [Hdn | Hdn]]; split; lra.
Qed.

Lemma grain_pixel_near (s : Q) (p : pixel) :
  (0 < s)%Q -> uint8_pixel p ->
  returns_after 3 (ImageEffects.grain_pixel s p) (channelwise (grain_near s) p).
Proof.
  intros Hs (Hr & Hg & Hb). unfold ImageEffects.grain_pixel.
  change 3%nat with (0 + 1 + 1 + 1)%nat.
  eapply returns_after_bind; [apply np_randint_valid; lia |]. intros nr Hnr.
  eapply returns_after_bind; [apply np_randint_valid; lia |]. intros ng Hng.
  eapply returns_after_bind; [apply np_randint_valid; lia |]. intros nb Hnb.
  apply returns_after_ret.
  repeat split; cbn [red green blue]; apply grain_value_bounds; assumption.
Qed.

(** X4. Film grain on an image of 8-bit pixels, from a valid tape:
    three draws per pixel, a result of the shape of the input, and every
    channel an 8-bit value [out] with
    [v - 25 * strength - 1 < out <= v + 24 * strength] around the input
    value [v]: the noise never wraps around 0 or 255. *)
Theorem film_grain_stays_near (img : frame) (level : string) (h w : nat) (g : state) :
  has_shape h w img -> uint8_frame img -> valid_tape g ->
  exists out,
    ImageEffects.apply_film_grain img level g = Ok (out, after_draws (h * (w * 3)) g)
    /\ has_shape h w out
    /\ forall y x, (y < h)%nat -> (x < w)%nat ->
         channelwise (grain_near (ImageEffects.grain_strength level))
                     (pixel_at img y x) (pixel_at out y x).
Proof.
  intros Hs Hu Hg. unfold ImageEffects.apply_film_grain.
  set (s := ImageEffects.grain_strength level).
  assert (Hpos : (0 < s)%Q).
  { unfold s. destruct (grain_strength_values level) as [E | [E | E]]; rewrite E; lra. }
  assert (Hrow : forall row, In row img ->
            returns_after (w * 3) (mapM (ImageEffects.grain_pixel s) row)
                          (Forall2 (channelwise (grain_near s)) row)).
  { intros row Hin. destruct Hs as [_ Hw].
    rewrite Forall_forall in Hw. rewrite <- (Hw row Hin).
    apply returns_after_mapM. intros p Hp. apply grain_pixel_near; [exact Hpos |].
    unfold uint8_frame in Hu. rewrite Forall_forall in Hu.
    specialize (Hu row Hin). rewrite Forall_forall in Hu. now apply Hu. }
  pose proof (returns_after_mapM (w * 3) _ _ img Hrow) as H.
  destruct (H g Hg) as (out & E & Hout).
  exists out. destruct Hs as [Hh Hw]. rewrite Hh in E.
  split; [exact E |]. split; [eapply Forall2_shape; [exact Hout | now split] |].
  intros y x Hy Hx. unfold pixel_at.
  assert (Hrows : Forall2 (channelwise (grain_near s)) (nth y img []) (nth y out [])).
  { apply Forall2_nth_rel; [exact Hout | lia]. }
  apply Forall2_nth_rel; [exact Hrows |].
  rewrite Forall_forall in Hw. rewrite (Hw (nth y img [])); [exact Hx |].
  apply nth_In. lia.
Qed.

(** The theorem on the dark 2 by 2 frame with every draw at 0: the noise
    is -25 everywhere and the value 10 is clipped to 0. *)
Lemma film_grain_stays_near_witness :
  exists out,
    ImageEffects.apply_film_grain dark_frame "medium" (constant_tape 0)
    = Ok (out, after_draws (2 * (2 * 3)) (constant_tape 0))
    /\ has_shape 2 2 out
    /\ forall y x, (y < 2)%nat -> (x < 2)%nat ->
         channelwise (grain_near (ImageEffects.grain_strength "medium"))
                     (pixel_at dark_frame y x) (pixel_at out y x).
Proof.
  apply (film_grain_stays_near dark_frame "medium" 2 2 (constant_tape 0)).
  - split; [reflexivity | repeat constructor].
  - repeat constructor; cbn; lia.
  - intros n. cbn. split; lra.
Defined.

(** ** Black & White, saturation and contrast *)

Lemma pixel_at_map_pixels (fn : pixel -> pixel) (f : frame) (h w y x : nat) :
  has_shape h w f -> (y < h)%nat -> (x < w)%nat ->
  pixel_at (map_pixels fn f) y x = fn (pixel_at f y x).
Proof.
  intros [Hh Hw] Hy Hx. unfold pixel_at, map_pixels.
  rewrite (nth_indep _ [] (map fn [])) by (rewrite length_map; lia).
  rewrite map_nth.
  assert (Hrow : length (nth y f []) = w).
  { rewrite Forall_forall in Hw. apply Hw, nth_In. lia. }
  rewrite (nth_indep _ black (fn black)) by (rewrite length_map; lia).
  now rewrite map_nth.
Qed.

Lemma nth_map2 {A B C : Type} (fn : A -> B -> C) (a : list A) (b : list B)
      (da : A) (db : B) (dc : C) (i : nat) :
  (i < length a)%nat -> (i < length b)%nat ->
  nth i (map2 fn a b) dc = fn (nth i a da) (nth i b db).
Proof.
  revert b i. induction a as [| x a IH]; intros [| y b] [| i] Ha Hb; cbn in *; try lia.
  - reflexivity.
  - apply IH; lia.
Qed.

Lemma pixel_at_map2 (fn : pixel -> pixel -> pixel) (a b : frame) (h w y x : nat) :
  has_shape h w a -> has_shape h w b -> (y < h)%nat -> (x < w)%nat ->
  pixel_at (map2 (map2 fn) a b) y x = fn (pixel_at a y x) (pixel_at b y x).
Proof.
  intros [Ha Hwa] [Hb Hwb] Hy Hx. unfold pixel_at.
  rewrite (nth_map2 _ a b [] [] []) by lia.
  assert (Hra : length (nth y a []) = w).
  { rewrite Forall_forall in Hwa. apply Hwa, nth_In. lia. }
  assert (Hrb : length (nth y b []) = w).
  { rewrite Forall_forall in Hwb. apply Hwb, nth_In. lia. }
  apply nth_map2; lia.
Qed.

(** The luma of a pixel without colour is its value, and the luma of an
    8-bit pixel is an 8-bit value. *)
Lemma luma_gray (v : Z) : Pillow.luma (mkPixel v v v) = v.
Proof.
  unfold Pillow.luma. cbn [red green blue]. rewrite Z.shiftr_div_pow2 by lia.
  change (2 ^ 16) with 65536. symmetry. apply (Z.div_unique _ _ _ 32768); lia.
Qed.

Lemma luma_uint8 (p : pixel) : uint8_pixel p -> uint8 (Pillow.luma p).
Proof.
  intros (Hr & Hg & Hb). unfold uint8 in *. unfold Pillow.luma.
  rewrite Z.shiftr_div_pow2 by lia. change (2 ^ 16) with 65536.
  split.
  - apply Z.div_pos; lia.
  - apply Z.div_lt_upper_bound; lia.
Qed.

(** X5. Black & White is idempotent: the luma of a pixel without colour
    is its own value, so a second pass changes nothing, whatever the
    frame holds. *)
Theorem black_and_white_idempotent (img : frame) :
  ImageEffects.apply_black_and_white (ImageEffects.apply_black_and_white img)
  = ImageEffects.apply_black_and_white img.
Proof.
  unfold ImageEffects.apply_black_and_white, Pillow.grayscale_rgb, map_pixels.
  rewrite map_map. apply map_ext. intros row. rewrite map_map. apply map_ext.
  intros p. cbv zeta. now rewrite luma_gray.
Qed.

(** [Image.blend] with a factor above 1 extrapolates and clips. *)
Lemma blend_value_pushes (alpha : Q) (v1 v2 : Z) :
  (1 < alpha)%Q -> uint8 v2 ->
  pushed_from v1 v2 (Pillow.blend_value alpha v1 v2).
Proof.
  intros Ha [H0 H1]. unfold Pillow.blend_value. cbv zeta.
  set (temp := (inject_Z v1 + alpha * inject_Z (v2 - v1))%Q).
  assert (E1 : Qle_bool alpha 1 = false).
  { destruct (Qle_bool alpha 1) eqn:E; [| reflexivity].
    apply Qle_bool_iff in E. lra. }
  rewrite E1, andb_false_r.
  assert (HV0 : (0 <= inject_Z v2)%Q) by (rewrite Zle_Qle in H0; exact H0).
  assert (HV1 : (inject_Z v2 <= 255)%Q).
  { assert (H : v2 <= 255) by lia. rewrite Zle_Qle in H. exact H. }
  assert (Hup : v1 <= v2 -> (inject_Z v2 <= temp)%Q).
  { intros H. unfold temp. rewrite Zle_Qle in H.
    unfold Zminus. rewrite inject_Z_plus, inject_Z_opp.
    assert (P : (0 <= (alpha - 1) * (inject_Z v2 - inject_Z v1))%Q)
      by (apply Qmult_le_0_compat; lra). lra. }
  assert (Hdn : v2 <= v1 -> (temp <= inject_Z v2)%Q).
  { intros H. unfold temp. rewrite Zle_Qle in H.
    unfold Zminus. rewrite inject_Z_plus, inject_Z_opp.
    assert (P : (0 <= (alpha - 1) * (inject_Z v1 - inject_Z v2))%Q)
      by (apply Qmult_le_0_compat; lra). lra. }
  unfold pushed_from, uint8.
  destruct (Qle_bool temp 0) eqn:E2.
  { apply Qle_bool_iff in E2. repeat split; try lia.
    intros H. specialize (Hup H).
    assert (L : (inject_Z v2 <= inject_Z 0)%Q) by (change (inject_Z 0) with 0%Q; lra).
    rewrite <- Zle_Qle in L. lia. }
  destruct (Qle_bool 255 temp) eqn:E3.
  { apply Qle_bool_iff in E3. repeat split; try lia.
    intros H. specialize (Hdn H).
    assert (L : (inject_Z 255 <= inject_Z v2)%Q) by (change (inject_Z 255) with 255%Q; lra).
    rewrite <- Zle_Qle in L. lia. }
  assert (T0 : (0 < temp)%Q).
  { destruct (Qlt_le_dec 0 temp) as [L | L]; [exact L |].
    apply Qle_bool_iff in L. congruence. }
  assert (T1 : (temp < 255)%Q).
  { destruct (Qlt_le_dec temp 255) as [L | L]; [exact L |].
    apply Qle_bool_iff in L. congruence. }
  rewrite trunc_nonneg by lra.
  pose proof (Qfloor_le temp) as F1.
  assert (F0 : 0 <= Qfloor temp).
  { assert (L : (0 <= temp)%Q) by lra.
    apply Qfloor_resp_le in L. exact L. }
  assert (F2 : Qfloor temp < 255).
  { rewrite Zlt_Qlt. change (inject_Z 255) with 255%Q. lra. }
  repeat split; try lia.
  - intros H. specialize (Hup H). apply Qfloor_resp_le in Hup.
    rewrite Qfloor_Z in Hup. exact Hup.
  - intros H. specialize (Hdn H).
    assert (L : (inject_Z (Qfloor temp) <= inject_Z v2)%Q) by lra.
    rewrite <- Zle_Qle in L. exact L.
Qed.

Lemma blend_above_one (a b : frame) (alpha : Q) :
  (1 < alpha)%Q ->
  Pillow.blend a b alpha = map2 (map2 (Pillow.blend_pixel alpha)) a b.
Proof.
  intros H. unfold Pillow.blend.
  destruct (Qeq_bool alpha 0) eqn:E0; [apply Qeq_bool_iff in E0; lra |].
  destruct (Qeq_bool alpha 1) eqn:E1; [apply Qeq_bool_iff in E1; lra |].
  reflexivity.
Qed.

Lemma saturation_factor_values (level : string) :
  (1 < ImageEffects.saturation_factor level)%Q.
Proof.
  unfold ImageEffects.saturation_factor. cbn.
  destruct (String.eqb level "low"); [reflexivity |].
  destruct (String.eqb level "medium"); [reflexivity |].
  destruct (String.eqb level "high"); reflexivity.
Qed.

Lemma contrast_factor_values (level : string) :
  (1 < ImageEffects.contrast_factor level)%Q.
Proof.
  unfold ImageEffects.contrast_factor. cbn.
  destruct (String.eqb level "low"); [reflexivity |].
  destruct (String.eqb level "medium"); [reflexivity |].
  destruct (String.eqb level "high"); reflexivity.
Qed.

Lemma uint8_pixel_at (f : frame) (h w y x : nat) :
  has_shape h w f -> uint8_frame f -> (y < h)%nat -> (x < w)%nat ->
  uint8_pixel (pixel_at f y x).
Proof.
  intros [Hh Hw] Hu Hy Hx. unfold pixel_at.
  unfold uint8_frame in Hu. rewrite Forall_forall in Hu, Hw.
  assert (Hin : In (nth y f []) f) by (apply nth_In; lia).
  specialize (Hu _ Hin). rewrite Forall_forall in Hu.
  apply Hu, nth_In. rewrite (Hw _ Hin). exact Hx.
Qed.

(** X6. Colour saturation on an image of 8-bit pixels, at every level:
    each channel of each pixel is moved away from the luma of that pixel,
    or kept, and stays an 8-bit value: the enhancement clips and never
    wraps. *)
Theorem saturation_pushes_from_luma (img : frame) (level : string) (h w y x : nat) :
  has_shape h w img -> uint8_frame img -> (y < h)%nat -> (x < w)%nat ->
  channelwise (pushed_from (Pillow.luma (pixel_at img y x)))
              (pixel_at img y x)
              (pixel_at (ImageEffects.apply_color_saturation img level) y x).
Proof.
  intros Hs Hu Hy Hx. unfold ImageEffects.apply_color_saturation. cbv zeta.
  pose proof (saturation_factor_values level) as Hf.
  rewrite blend_above_one by exact Hf.
  rewrite (pixel_at_map2 _ _ _ h w) by
    (try apply has_shape_map_pixels; assumption).
  unfold Pillow.grayscale_rgb. rewrite (pixel_at_map_pixels _ _ h w) by assumption.
  cbv zeta. destruct (uint8_pixel_at img h w y x Hs Hu Hy Hx) as (Hr & Hg & Hb).
  unfold channelwise, Pillow.blend_pixel. cbn [red green blue].
  repeat split; apply blend_value_pushes; assumption.
Qed.

(** The theorem on a pixel of the one-row ramp: red 2 above the luma 1
    goes up, green and blue below go to 0. *)
Lemma saturation_pushes_from_luma_witness :
  channelwise (pushed_from (Pillow.luma (pixel_at ramp_frame 0 1)))
              (pixel_at ramp_frame 0 1)
              (pixel_at (ImageEffects.apply_color_saturation ramp_frame "high") 0 1).
Proof.
  apply (saturation_pushes_from_luma ramp_frame "high" 1 4 0 1); try lia.
  - split; [reflexivity | repeat constructor].
  - repeat constructor; cbn; lia.
Defined.

(** A pixel without colour is kept by the blend with its own grey. *)
Lemma blend_value_same (alpha : Q) (v : Z) :
  uint8 v -> Pillow.blend_value alpha v v = v.
Proof.
  intros [H0 H1]. unfold Pillow.blend_value. cbv zeta. rewrite Z.sub_diag.
  assert (E : (inject_Z v + alpha * inject_Z 0 == inject_Z v)%Q).
  { change (inject_Z 0) with 0%Q. ring. }
  assert (HV0 : (0 <= inject_Z v)%Q) by (rewrite Zle_Qle in H0; exact H0).
  assert (Tr : Py.trunc (inject_Z v + alpha * inject_Z 0) = v).
  { rewrite trunc_nonneg by (rewrite E; exact HV0).
    rewrite (Qfloor_comp _ _ E). apply Qfloor_Z. }
  destruct (Qle_bool 0 alpha && Qle_bool alpha 1).
  - unfold Py.float_astype_uint8. rewrite Tr. apply astype_uint8_id. split; lia.
  - destruct (Qle_bool _ 0) eqn:E2.
    { apply Qle_bool_iff in E2. rewrite E in E2.
      assert (L : (inject_Z v <= inject_Z 0)%Q) by (change (inject_Z 0) with 0%Q; lra).
      rewrite <- Zle_Qle in L. lia. }
    destruct (Qle_bool 255 _) eqn:E3.
    { apply Qle_bool_iff in E3. rewrite E in E3.
      assert (L : (inject_Z 255 <= inject_Z v)%Q) by (change (inject_Z 255) with 255%Q; lra).
      rewrite <- Zle_Qle in L. lia. }
    exact Tr.
Qed.

Lemma map2_map_map {A B C D : Type} (fn : B -> C -> D) (g : A -> B) (k : A -> C)
      (l : list A) :
  map2 fn (map g l) (map k l) = map (fun x => fn (g x) (k x)) l.
Proof. induction l as [| x l IH]; cbn; [reflexivity | now rewrite IH]. Qed.

(** X7. Colour saturation after Black & White changes nothing: on an
    image of 8-bit pixels the chain of the two effects gives the
    black-and-white image itself, at every level. *)
Theorem saturation_keeps_black_and_white (img : frame) (level : string) :
  uint8_frame img ->
  ImageEffects.apply_color_saturation (ImageEffects.apply_black_and_white img) level
  = ImageEffects.apply_black_and_white img.
Proof.
  intros Hu. unfold ImageEffects.apply_color_saturation. cbv zeta.
  rewrite blend_above_one by apply saturation_factor_values.
  unfold ImageEffects.apply_black_and_white, Pillow.grayscale_rgb, map_pixels.
  rewrite map_map, map2_map_map.
  unfold uint8_frame in Hu. induction Hu as [| row img Hrow _ IH];
    cbn [map]; [reflexivity |].
  rewrite IH. f_equal. rewrite map_map, map2_map_map.
  induction Hrow as [| p row Hp _ IHrow]; cbn [map]; [reflexivity |].
  rewrite IHrow. f_equal. cbv zeta. rewrite luma_gray.
  unfold Pillow.blend_pixel. cbn [red green blue].
  pose proof (luma_uint8 p Hp) as Hl.
  now rewrite !blend_value_same by exact Hl.
Qed.

(** The theorem on the dark frame. *)
Lemma saturation_keeps_black_and_white_witness :
  ImageEffects.apply_color_saturation (ImageEffects.apply_black_and_white dark_frame) "low"
  = ImageEffects.apply_black_and_white dark_frame.
Proof.
  apply (saturation_keeps_black_and_white dark_frame "low").
  repeat constructor; cbn; lia.
Defined.

(** ** Contrast *)

Lemma sum_bounds (ls : list Z) :
  Forall uint8 ls ->
  0 <= fold_right Z.add 0 ls <= 255 * Z.of_nat (length ls).
Proof.
  induction 1 as [| v ls Hv _ IH]; cbn [fold_right length]; [lia |].
  unfold uint8 in Hv. lia.
Qed.

Lemma luma_all_uint8 (img : frame) :
  uint8_frame img -> Forall uint8 (map Pillow.luma (concat img)).
Proof.
  intros Hu. apply Forall_map. apply Forall_concat.
  unfold uint8_frame in Hu. eapply Forall_impl; [| exact Hu].
  intros row Hrow. eapply Forall_impl; [| exact Hrow].
  intros p. apply luma_uint8.
Qed.

(** The mean luma of an image of 8-bit pixels with a pixel at least is
    an 8-bit value. *)
Lemma mean_luma_uint8 (img : frame) (h w : nat) :
  has_shape h w img -> (0 < h)%nat -> (0 < w)%nat -> uint8_frame img ->
  exists mean, Pillow.mean_luma img = Ok mean /\ uint8 mean.
Proof.
  intros Hs Hh Hw Hu. unfold Pillow.mean_luma. cbv zeta.
  pose proof (concat_nonempty h w img Hs Hh Hw) as Hne.
  pose proof (luma_all_uint8 img Hu) as Hall.
  pose proof (sum_bounds _ Hall) as Hsum.
  destruct (map Pillow.luma (concat img)) as [| l ls] eqn:E.
  { destruct (concat img); [congruence | discriminate]. }
  eexists. split; [reflexivity |].
  set (total := fold_right Z.add 0 (l :: ls)) in *.
  set (count := Z.of_nat (length (l :: ls))) in *.
  assert (Hc : 0 < count) by (unfold count; cbn [length]; lia).
  assert (HC : (0 < inject_Z count)%Q).
  { change 0%Q with (inject_Z 0). now rewrite <- Zlt_Qlt. }
  assert (Q0 : (0 <= inject_Z total / inject_Z count)%Q).
  { apply Qle_shift_div_l; [exact HC |]. rewrite Qmult_0_l.
    change 0%Q with (inject_Z 0). rewrite <- Zle_Qle. lia. }
  assert (Q1 : (inject_Z total / inject_Z count <= 255)%Q).
  { apply Qle_shift_div_r; [exact HC |].
    change 255%Q with (inject_Z 255). rewrite <- inject_Z_mult, <- Zle_Qle. lia. }
  rewrite trunc_nonneg by lra. unfold uint8.
  assert (L0 : (0 <= inject_Z total / inject_Z count + (1 # 2))%Q) by lra.
  assert (L1 : (inject_Z total / inject_Z count + (1 # 2) <= 255 + (1 # 2))%Q) by lra.
  apply Qfloor_resp_le in L0. apply Qfloor_resp_le in L1.
  change (Qfloor 0) with 0 in L0. change (Qfloor (255 + (1 # 2))) with 255 in L1.
  lia.
Qed.

(** X8. Contrast on an image of 8-bit pixels with a pixel at least, at
    every level: the effect returns, its pivot is the rounded mean luma
    of the image, an 8-bit value, and each channel of each pixel is moved
    away from that mean, or kept, and stays an 8-bit value. *)
Theorem contrast_pushes_from_mean (img : frame) (level : string) (h w : nat) (g : state) :
  has_shape h w img -> (0 < h)%nat -> (0 < w)%nat -> uint8_frame img ->
  exists mean out,
    Pillow.mean_luma img = Ok mean /\ uint8 mean
    /\ ImageEffects.apply_contrast_brightness img level g = Ok (out, g)
    /\ has_shape h w out
    /\ forall y x, (y < h)%nat -> (x < w)%nat ->
         channelwise (pushed_from mean) (pixel_at img y x) (pixel_at out y x).
Proof.
  intros Hs Hh Hw Hu.
  destruct (mean_luma_uint8 img h w Hs Hh Hw Hu) as (mean & Em & Hm).
  exists mean. eexists. split; [exact Em |]. split; [exact Hm |].
  unfold ImageEffects.apply_contrast_brightness. cbv zeta. rewrite Em.
  split; [reflexivity |].
  pose proof (contrast_factor_values level) as Hf.
  rewrite blend_above_one by exact Hf.
  assert (Hd : has_shape h w (map_pixels (fun _ => mkPixel mean mean mean) img))
    by now apply has_shape_map_pixels.
  split; [now apply has_shape_map2 |].
  intros y x Hy Hx.
  rewrite (pixel_at_map2 _ _ _ h w) by assumption.
  rewrite (pixel_at_map_pixels _ _ h w) by assumption.
  destruct (uint8_pixel_at img h w y x Hs Hu Hy Hx) as (Hr & Hg & Hb).
  unfold channelwise, Pillow.blend_pixel. cbn [red green blue].
  repeat split; apply blend_value_pushes; assumption.
Qed.

(** The theorem on the one-row ramp. *)
Lemma contrast_pushes_from_mean_witness :
  exists mean out,
    Pillow.mean_luma ramp_frame = Ok mean /\ uint8 mean
    /\ ImageEffects.apply_contrast_brightness ramp_frame "low" (constant_tape 0)
       = Ok (out, constant_tape 0)
    /\ has_shape 1 4 out
    /\ forall y x, (y < 1)%nat -> (x < 4)%nat ->
         channelwise (pushed_from mean) (pixel_at ramp_frame y x) (pixel_at out y x).
Proof.
  apply (contrast_pushes_from_mean ramp_frame "low" 1 4 (constant_tape 0)); try lia.
  - split; [reflexivity | repeat constructor].
  - repeat constructor; cbn; lia.
Defined.

(** ** The look-up table *)





(** ** Pixelated *)

Lemma trunc_quotient_small (a b : Z) :
  0 <= a -> a < b -> Py.trunc (inject_Z a / inject_Z b)%Q = 0.
Proof.
  intros Ha Hab. destruct b as [| p | p]; try lia.
  unfold Py.trunc, Qdiv, Qinv, Qmult, inject_Z. cbn [Qnum Qden].
  rewrite Z.mul_1_r, Pos.mul_1_l. apply Z.quot_small. lia.
Qed.

(** X10. Pixelated on an image of [h >= 1] rows and [w >= 1] columns
    raises exactly when the image is more than [pixel_size] times wider
    than high: the height [int(pixel_size * h / w)] of the small image is
    then 0, which the resize refuses. *)
Theorem pixelated_fails_on_wide_image
        (W : ImageEffects.world) (img : frame) (level : string) (h w : nat) (g : state) :
  has_shape h w img -> (0 < h)%nat -> (0 < w)%nat ->
  (raises_in (ImageEffects.apply_pixelated W img level) g
   <-> ImageEffects.pixel_size level * Z.of_nat h < Z.of_nat w).
Proof.
  intros Hs Hh Hw. split.
  - intros [e E].
    destruct (Z.lt_ge_cases (ImageEffects.pixel_size level * Z.of_nat h) (Z.of_nat w))
      as [L | L]; [exact L |].
    destruct (shape_pixelated W img level h w Hs Hh Hw L g) as (a & g' & E' & _).
    congruence.
  - intros L. unfold raises_in, ImageEffects.apply_pixelated. cbv zeta.
    destruct (width_of_shape h w img Hs Hh) as [Ew Eh]. rewrite Ew, Eh.
    destruct (Z.eqb_spec (Z.of_nat w) 0); [lia |].
    rewrite trunc_quotient_small;
      [| destruct (pixel_size_values level) as [E | [E | E]]; rewrite E; lia | exact L].
    unfold Pillow.resize_bilinear_checked.
    change (0 <? 1) with true. rewrite orb_true_r. eexists. reflexivity.
Qed.

(** The theorem on a frame of one row and 200 columns. *)
Lemma pixelated_fails_on_wide_image_witness :
  raises_in (ImageEffects.apply_pixelated plain_world [repeat black 200] "low")
            (constant_tape 0)
  <-> ImageEffects.pixel_size "low" * Z.of_nat 1 < Z.of_nat 200.
Proof.
  apply (pixelated_fails_on_wide_image plain_world [repeat black 200] "low" 1 200
           (constant_tape 0)); try lia.
  split; [reflexivity | repeat constructor].
Defined.

(** ** Neon glow *)

Lemma Qmax_list_nonneg (l : list Q) : (0 <= ImageEffects.Qmax_list l)%Q.
Proof.
  induction l as [| a l IH]; cbn; [lra |].
  fold (ImageEffects.Qmax_list l). unfold Py.Qltb.
  destruct (Qle_bool (ImageEffects.Qmax_list l) a) eqn:E; cbn [negb].
  - apply Qle_bool_iff in E. lra.
  - exact IH.
Qed.

Lemma Qmax_list_upper (l : list Q) (e : Q) :
  In e l -> (e <= ImageEffects.Qmax_list l)%Q.
Proof.
  induction l as [| a l IH]; cbn; [tauto |].
  fold (ImageEffects.Qmax_list l). unfold Py.Qltb. intros [<- | Hin].
  - destruct (Qle_bool (ImageEffects.Qmax_list l) a) eqn:E; cbn [negb]; [lra |].
    destruct (Qlt_le_dec a (ImageEffects.Qmax_list l)) as [L | L]; [lra |].
    apply Qle_bool_iff in L. congruence.
  - specialize (IH Hin).
    destruct (Qle_bool (ImageEffects.Qmax_list l) a) eqn:E; cbn [negb]; [| exact IH].
    apply Qle_bool_iff in E. lra.
Qed.

Lemma Qmax_list_attained (l : list Q) :
  (0 < ImageEffects.Qmax_list l)%Q -> In (ImageEffects.Qmax_list l) l.
Proof.
  induction l as [| a l IH]; cbn; [lra |].
  fold (ImageEffects.Qmax_list l). unfold Py.Qltb.
  destruct (Qle_bool (ImageEffects.Qmax_list l) a); cbn [negb]; auto.
Qed.

Lemma neon_threshold_values (level : string) :
  ImageEffects.neon_threshold level = 80%Q
  \/ ImageEffects.neon_threshold level = 50%Q
  \/ ImageEffects.neon_threshold level = 30%Q.
Proof.
  unfold ImageEffects.neon_threshold. cbn.
  destruct (String.eqb level "low"); [auto |].
  destruct (String.eqb level "medium"); [auto |].
  destruct (String.eqb level "high"); auto.
Qed.

(** A pixel of a mapped array that is not the default lies inside. *)
Lemma pixel_at_map_inside {A : Type} (f : A -> pixel) (E : list (list A)) (d : A)
      (y x : nat) :
  pixel_at (map (map f) E) y x <> black ->
  (y < length E)%nat /\ (x < length (nth y E []))%nat
  /\ pixel_at (map (map f) E) y x = f (nth x (nth y E []) d).
Proof.
  unfold pixel_at. intros H.
  destruct (Nat.lt_ge_cases y (length E)) as [Hy | Hy].
  2:{ rewrite (nth_overflow (map (map f) E)) in H by (rewrite length_map; lia).
      destruct x; contradiction. }
  rewrite (nth_indep _ [] (map f [])) in * by (rewrite length_map; lia).
  rewrite map_nth in *.
  destruct (Nat.lt_ge_cases x (length (nth y E []))) as [Hx | Hx].
  2:{ rewrite nth_overflow in H by (rewrite length_map; lia). contradiction. }
  rewrite (nth_indep _ black (f d)) by (rewrite length_map; lia).
  rewrite map_nth. auto.
Qed.

Lemma cyan_not_black : cyan <> black.
Proof. discriminate. Qed.

(** The edges array of [apply_neon_glow], read inside. *)
Lemma neon_edges_nth (img : frame) (y x : nat) :
  (y < length img)%nat -> (x < length (nth y img []))%nat ->
  nth x (nth y (Py.imap (fun y row =>
           Py.imap (fun x (_ : pixel) =>
             ImageEffects.edge_sq (map (map ImageEffects.neon_gray) img)
                                  (Z.of_nat y) (Z.of_nat x)) row) img) []) 0%Q
  = neon_edge_sq img y x.
Proof.
  intros Hy Hx. unfold Py.imap.
  rewrite (nth_imap_from _ img 0 y [] []) by exact Hy.
  rewrite (nth_imap_from _ _ 0 x black 0%Q) by exact Hx.
  reflexivity.
Qed.

Lemma neon_edges_row_length (img : frame) (y : nat) :
  length (nth y (Py.imap (fun y row =>
           Py.imap (fun x (_ : pixel) =>
             ImageEffects.edge_sq (map (map ImageEffects.neon_gray) img)
                                  (Z.of_nat y) (Z.of_nat x)) row) img) [])
  = length (nth y img []).
Proof.
  destruct (Nat.lt_ge_cases y (length img)) as [Hy | Hy].
  - unfold Py.imap. rewrite (nth_imap_from _ img 0 y [] []) by exact Hy.
    apply imap_from_length.
  - rewrite !nth_overflow; [reflexivity | lia |].
    rewrite imap_length. lia.
Qed.

Lemma neon_edge_sq_nonneg (img : frame) (y x : nat) : (0 <= neon_edge_sq img y x)%Q.
Proof.
  unfold neon_edge_sq, ImageEffects.edge_sq. cbv zeta.
  set (a := ImageEffects.sobel_axis0 _ _ _). set (b := ImageEffects.sobel_axis1 _ _ _).
  pose proof (square_nonneg a). pose proof (square_nonneg b). lra.
Qed.

Lemma pixel_at_map_total {A : Type} (f : A -> pixel) (E : list (list A)) (d : A)
      (y x : nat) :
  pixel_at (map (map f) E) y x
  = if ((y <? length E) && (x <? length (nth y E [])))%nat
    then f (nth x (nth y E []) d) else black.
Proof.
  unfold pixel_at.
  destruct (Nat.ltb_spec y (length E)) as [Hy | Hy]; cbn [andb].
  2:{ rewrite (nth_overflow (map (map f) E)) by (rewrite length_map; lia).
      now destruct x. }
  rewrite (nth_indep _ [] (map f [])) by (rewrite length_map; lia).
  rewrite map_nth.
  destruct (Nat.ltb_spec x (length (nth y E []))) as [Hx | Hx].
  2:{ apply nth_overflow. rewrite length_map. lia. }
  rewrite (nth_indep _ black (f d)) by (rewrite length_map; lia).
  now rewrite map_nth.
Qed.

Lemma Qltb_true (a b : Q) : Py.Qltb a b = true <-> (a < b)%Q.
Proof.
  unfold Py.Qltb. split.
  - intros H. destruct (Qle_bool b a) eqn:E; [discriminate |].
    destruct (Qlt_le_dec a b) as [L | L]; [exact L |].
    apply Qle_bool_iff in L. congruence.
  - intros H. destruct (Qle_bool b a) eqn:E; [| reflexivity].
    apply Qle_bool_iff in E. lra.
Qed.

(** The result of [apply_neon_glow], pixel by pixel: one number, the
    greatest squared edge strength of the image, decides with the
    threshold of the level which pixels glow. *)
Lemma neon_glow_result (img : frame) :
  exists max_sq,
    (0 <= max_sq)%Q
    /\ (forall y x, (y < length img)%nat -> (x < length (nth y img []))%nat ->
          (neon_edge_sq img y x <= max_sq)%Q)
    /\ ((0 < max_sq)%Q ->
        exists y x, (y < length img)%nat /\ (x < length (nth y img []))%nat
                    /\ neon_edge_sq img y x = max_sq)
    /\ forall level g out g',
         ImageEffects.apply_neon_glow img level g = Ok (out, g') ->
         g' = g
         /\ forall y x,
              pixel_at out y x
              = if ((y <? length img) && (x <? length (nth y img [])))%nat
                then if Py.Qltb (ImageEffects.neon_threshold level
                                 * ImageEffects.neon_threshold level * max_sq)
                                (neon_edge_sq img y x * (255 * 255))
                     then cyan else black
                else black.
Proof.
  set (edges := Py.imap (fun y row =>
           Py.imap (fun x (_ : pixel) =>
             ImageEffects.edge_sq (map (map ImageEffects.neon_gray) img)
                                  (Z.of_nat y) (Z.of_nat x)) row) img).
  assert (Hlen : length edges = length img) by apply imap_length.
  exists (ImageEffects.Qmax_list (concat edges)).
  split; [apply Qmax_list_nonneg |]. split; [| split].
  - intros y x Hy Hx. apply Qmax_list_upper.
    rewrite <- (neon_edges_nth img y x Hy Hx). fold edges.
    apply in_concat. exists (nth y edges []). split.
    + apply nth_In. lia.
    + apply nth_In. unfold edges. now rewrite neon_edges_row_length.
  - intros Hpos. apply Qmax_list_attained in Hpos.
    apply in_concat in Hpos. destruct Hpos as (row & Hrow & Hin).
    destruct (In_nth _ _ [] Hrow) as (y & Hy & Ey).
    subst row. destruct (In_nth _ _ 0%Q Hin) as (x & Hx & Ex).
    unfold edges in Hx at 1. rewrite neon_edges_row_length in Hx.
    exists y, x. split; [lia |]. split; [exact Hx |].
    rewrite <- Ex. symmetry. apply neon_edges_nth; [lia | exact Hx].
  - intros level g out g'. unfold ImageEffects.apply_neon_glow, ImageEffects.neon_from_edges. cbv zeta.
    fold edges.
    destruct (concat edges) as [| e es] eqn:Ec; [discriminate |].
    rewrite <- Ec. unfold ret. intros E. inversion E; subst out g'. clear E.
    split; [reflexivity |]. intros y x.
    rewrite (pixel_at_map_total _ edges 0%Q). rewrite Hlen.
    unfold edges at 1. rewrite neon_edges_row_length.
    destruct (Nat.ltb_spec y (length img)) as [Hy | Hy]; cbn [andb]; [| reflexivity].
    destruct (Nat.ltb_spec x (length (nth y img []))) as [Hx | Hx]; [| reflexivity].
    unfold edges. rewrite (neon_edges_nth img y x Hy Hx). reflexivity.
Qed.

Lemma neon_threshold_range (level : string) :
  (0 <= ImageEffects.neon_threshold level <= 80)%Q.
Proof.
  destruct (neon_threshold_values level) as [E | [E | E]]; rewrite E; split; lra.
Qed.

(** X11. Neon glow grows with the level, as the comment of the source
    has it (a lower threshold gives more glow): on one image, a pixel
    that glows at a level glows at every level whose threshold is not
    higher, so the glow at low lies within the glow at medium, which
    lies within the glow at high. *)
Theorem neon_glow_grows_with_level
        (img : frame) (l1 l2 : string) (g : state) (out1 out2 : frame) (g1 g2 : state)
        (y x : nat) :
  (ImageEffects.neon_threshold l2 <= ImageEffects.neon_threshold l1)%Q ->
  ImageEffects.apply_neon_glow img l1 g = Ok (out1, g1) ->
  ImageEffects.apply_neon_glow img l2 g = Ok (out2, g2) ->
  pixel_at out1 y x = cyan -> pixel_at out2 y x = cyan.
Proof.
  intros Ht E1 E2.
  destruct (neon_glow_result img) as (m & Hm & _ & _ & Hres).
  destruct (Hres l1 g out1 g1 E1) as [_ P1].
  destruct (Hres l2 g out2 g2 E2) as [_ P2].
  rewrite P1, P2.
  destruct ((y <? length img) && (x <? length (nth y img [])))%nat;
    [| intros H; discriminate H].
  set (a := ImageEffects.neon_threshold l1) in *.
  set (b := ImageEffects.neon_threshold l2) in *.
  destruct (Py.Qltb (a * a * m) _) eqn:B1; [| intros H; discriminate H].
  intros _. apply Qltb_true in B1.
  assert (H2 : (0 <= b)%Q) by apply neon_threshold_range.
  assert (Hsq : (b * b <= a * a)%Q).
  { assert (P : (0 <= (a - b) * b)%Q) by (apply Qmult_le_0_compat; lra).
    assert (P' : (0 <= (a - b) * a)%Q) by (apply Qmult_le_0_compat; lra).
    lra. }
  assert (Hle : (b * b * m <= a * a * m)%Q) by (apply Qmult_le_compat_r; assumption).
  assert (B2 : Py.Qltb (b * b * m) (neon_edge_sq img y x * (255 * 255)) = true).
  { apply Qltb_true. lra. }
  now rewrite B2.
Qed.

(** X12. The end of neon glow, whatever edge strengths the Sobel step
    has computed: for every array of squared strengths (values that are
    not negative) with a pixel, the result has the shape of the array and
    some pixel glows exactly when some strength is other than zero. The
    greatest strength, normalised to 255, passes the threshold of every
    level, and an array of zeros comes out black. *)
Theorem neon_glows_iff_edge
        (edges : list (list Q)) (level : string) (h w : nat) (g : state) :
  has_shape h w edges -> (0 < h)%nat -> (0 < w)%nat ->
  Forall (Forall (fun e => (0 <= e)%Q)) edges ->
  exists out,
    ImageEffects.neon_from_edges (ImageEffects.neon_threshold level) edges g
    = Ok (out, g)
    /\ has_shape h w out
    /\ ((exists y x, pixel_at out y x = cyan)
        <-> (exists y x, (y < h)%nat /\ (x < w)%nat
                         /\ (0 < nth x (nth y edges []) 0)%Q)).
Proof.
  intros Hs Hh Hw Hpos.
  assert (Hrow : forall y, (y < h)%nat -> length (nth y edges []) = w).
  { intros y Hy. destruct Hs as [Hlen Hrows]. rewrite Forall_forall in Hrows.
    apply Hrows. apply nth_In. lia. }
  assert (Hin : forall y x, (y < h)%nat -> (x < w)%nat ->
                  In (nth x (nth y edges []) 0%Q) (concat edges)).
  { intros y x Hy Hx. apply in_concat. exists (nth y edges []). split.
    - apply nth_In. destruct Hs as [Hlen _]. lia.
    - apply nth_In. now rewrite Hrow. }
  unfold ImageEffects.neon_from_edges.
  destruct (concat edges) as [| e0 es] eqn:Ec.
  { exfalso. exact (Hin 0%nat 0%nat Hh Hw). }
  rewrite <- Ec in *. clear Ec e0 es. cbv zeta. unfold ret.
  set (m := ImageEffects.Qmax_list (concat edges)).
  pose proof (neon_threshold_range level) as Ht.
  set (t := ImageEffects.neon_threshold level) in *.
  assert (Htt : (0 <= t * t <= 6400)%Q).
  { assert (P : (0 <= t * t)%Q) by (apply Qmult_le_0_compat; lra).
    assert (P' : (0 <= (80 - t) * t)%Q) by (apply Qmult_le_0_compat; lra).
    lra. }
  pose proof (Qmax_list_nonneg (concat edges)) as Hm. fold m in Hm.
  eexists. split; [reflexivity |]. split.
  { apply has_shape_map; [| exact Hs]. intros row. apply length_map. }
  change (mkPixel 0 255 255) with cyan.
  destruct Hs as [Hlen _].
  split.
  - intros (y & x & Hc). rewrite (pixel_at_map_total _ edges 0%Q) in Hc.
    destruct (Nat.ltb_spec y (length edges)) as [Hy | Hy]; cbn [andb] in Hc;
      [| discriminate Hc].
    destruct (Nat.ltb_spec x (length (nth y edges []))) as [Hx | Hx];
      [| discriminate Hc].
    destruct (Py.Qltb _ _) eqn:B in Hc; [| discriminate Hc].
    apply Qltb_true in B.
    exists y, x. rewrite Hlen in Hy. rewrite (Hrow y Hy) in Hx.
    split; [exact Hy |]. split; [exact Hx |].
    assert (P : (0 <= t * t * m)%Q) by (apply Qmult_le_0_compat; lra).
    lra.
  - intros (y & x & Hy & Hx & He).
    assert (Hmpos : (0 < m)%Q).
    { pose proof (Qmax_list_upper _ _ (Hin y x Hy Hx)) as Hup. fold m in Hup. lra. }
    pose proof (Qmax_list_attained (concat edges) Hmpos) as Hatt. fold m in Hatt.
    apply in_concat in Hatt. destruct Hatt as (row & Hrow' & Hin').
    destruct (In_nth _ _ [] Hrow') as (y' & Hy' & Ey).
    subst row. destruct (In_nth _ _ 0%Q Hin') as (x' & Hx' & Ex).
    exists y', x'. rewrite (pixel_at_map_total _ edges 0%Q).
    apply Nat.ltb_lt in Hy', Hx'. rewrite Hy', Hx'. cbn [andb].
    rewrite Ex.
    assert (B : Py.Qltb (t * t * m) (m * (255 * 255)) = true).
    { apply Qltb_true.
      assert (P : (0 <= (6400 - t * t) * m)%Q) by (apply Qmult_le_0_compat; lra).
      lra. }
    now rewrite B.
Qed.

(** The theorem on the one-row ramp, whose every pixel glows at low and
    at high. *)
Lemma neon_glow_grows_with_level_witness : pixel_at glow_row 0 1 = cyan.
Proof.
  apply (neon_glow_grows_with_level ramp_frame "low" "high" (constant_tape 0)
           glow_row glow_row (constant_tape 0) (constant_tape 0) 0 1).
  - discriminate.
  - vm_compute. reflexivity.
  - vm_compute. reflexivity.
  - reflexivity.
Defined.

(** The theorem on a row of three strengths, the middle one the only
    one that is not zero, at level high. *)
Lemma neon_glows_iff_edge_witness :
  exists out,
    ImageEffects.neon_from_edges (ImageEffects.neon_threshold "high")
                                 [[0; 1 # 1000; 0]]%Q (constant_tape 0)
    = Ok (out, constant_tape 0)
    /\ has_shape 1 3 out
    /\ ((exists y x, pixel_at out y x = cyan)
        <-> (exists y x, (y < 1)%nat /\ (x < 3)%nat
                         /\ (0 < nth x (nth y [[0; 1 # 1000; 0]]%Q []) 0)%Q)).
Proof.
  apply (neon_glows_iff_edge [[0; 1 # 1000; 0]]%Q "high" 1 3 (constant_tape 0));
    try lia.
  - split; [reflexivity | repeat constructor].
  - repeat constructor; discriminate.
Defined.

(** The run of that witness: the middle pixel glows alone. *)
Example neon_from_edges_on_row :
  ImageEffects.neon_from_edges (ImageEffects.neon_threshold "high")
                               [[0; 1 # 1000; 0]]%Q (constant_tape 0)
  = Ok ([[black; cyan; black]], constant_tape 0).
Proof. vm_compute. reflexivity. Qed.

(** ** Rolling shutter *)

Lemma trunc_opp (q : Q) : Py.trunc (- q) = - Py.trunc q.
Proof. destruct q as [n d]. unfold Py.trunc. cbn. apply Z.quot_opp_l. lia. Qed.

(** The cast to int of a float of [-n, n] lies in [-n, n]. *)
Lemma trunc_abs_le (q n : Q) :
  (- n <= q)%Q -> (q <= n)%Q -> (inject_Z (Z.abs (Py.trunc q)) <= n)%Q.
Proof.
  intros Hlo Hhi. destruct (Qlt_le_dec q 0) as [Hneg | Hpos].
  - assert (Hq : (0 <= - q)%Q) by lra.
    replace (Py.trunc q) with (- Py.trunc (- q)) by (rewrite trunc_opp; lia).
    rewrite trunc_nonneg by exact Hq. rewrite Z.abs_opp.
    pose proof (Qfloor_resp_le _ _ Hq) as F0. change (Qfloor 0) with 0 in F0.
    rewrite Z.abs_eq by exact F0.
    pose proof (Qfloor_le (- q)). lra.
  - rewrite trunc_nonneg by exact Hpos.
    pose proof (Qfloor_resp_le _ _ Hpos) as F0. change (Qfloor 0) with 0 in F0.
    rewrite Z.abs_eq by exact F0.
    pose proof (Qfloor_le q). lra.
Qed.

Lemma shutter_intensity_values (level : string) :
  let i := VideoEffects.level_param VideoEffects.RollingShutter level in
  i = 5%Q \/ i = 12%Q \/ i = 20%Q.
Proof.
  cbn. unfold Py.dict_get. cbn.
  destruct (String.eqb level "low"); [auto |].
  destruct (String.eqb level "medium"); [auto |].
  destruct (String.eqb level "high"); auto.
Qed.

Lemma shutter_shift_bound (K : VideoFrames.kernels) (level : string) (freq t : Q)
      (h y : nat) :
  let i := VideoEffects.level_param VideoEffects.RollingShutter level in
  (inject_Z (Z.abs (VideoFrames.shutter_shift K i freq t h y)) <= i)%Q.
Proof.
  intros i. unfold VideoFrames.shutter_shift.
  pose proof (VideoFrames.wave_range K freq t h y) as [W0 W1].
  set (s := VideoFrames.wave K freq t h y) in *.
  assert (Hi : (0 <= i)%Q).
  { destruct (shutter_intensity_values level) as [E | [E | E]];
      fold i in E; rewrite E; lra. }
  assert (P0 : (0 <= i * (1 - s))%Q) by (apply Qmult_le_0_compat; lra).
  assert (P1 : (0 <= i * (s + 1))%Q) by (apply Qmult_le_0_compat; lra).
  apply trunc_abs_le; lra.
Qed.

(** X13. The rolling shutter keeps the shape of the frame, and each
    pixel of its result is a pixel of the same row of the input, at most
    [intensity] columns away: the column index is clamped to the frame,
    so nothing wraps around and nothing is blanked. *)
Theorem rolling_shutter_stays_in_row
        (K : VideoFrames.kernels) (level : string) (freq t : Q) (fr : frame)
        (h w y x : nat) :
  has_shape h w fr -> (y < h)%nat -> (x < w)%nat ->
  has_shape h w (VideoFrames.rolling_shutter_frame K level freq t fr)
  /\ exists x',
       (x' < w)%nat
       /\ (inject_Z (Z.abs (Z.of_nat x' - Z.of_nat x))
           <= VideoEffects.level_param VideoEffects.RollingShutter level)%Q
       /\ pixel_at (VideoFrames.rolling_shutter_frame K level freq t fr) y x
          = pixel_at fr y x'.
Proof.
  intros Hs Hy Hx. unfold VideoFrames.rolling_shutter_frame. cbv zeta. split.
  { revert Hs. apply has_shape_imap. intros y0 row. apply imap_length. }
  assert (Hh : (0 < h)%nat) by lia.
  destruct (width_of_shape h w fr Hs Hh) as [Ew _].
  pose proof (shape_row h w fr y Hs Hy) as Hrow.
  destruct Hs as [Hlen _].
  set (i := VideoEffects.level_param VideoEffects.RollingShutter level).
  pose proof (shutter_shift_bound K level freq t (length fr) y) as Hb.
  cbv zeta in Hb. fold i in Hb.
  set (s := VideoFrames.shutter_shift K i freq t (length fr) y) in *.
  exists (Z.to_nat (VideoFrames.shifted_col (width fr) s x)).
  rewrite Ew. unfold VideoFrames.shifted_col.
  split; [lia |]. split.
  - eapply Qle_trans; [| exact Hb]. rewrite <- Zle_Qle. lia.
  - unfold pixel_at, Py.imap.
    rewrite (nth_imap_from _ fr 0 y [] []) by lia.
    rewrite (nth_imap_from _ _ 0 x black black) by lia.
    cbn [Nat.add]. fold i. fold s. reflexivity.
Qed.

(** The theorem on the five-pixel frame with the wave at its crest. *)
Lemma rolling_shutter_stays_in_row_witness :
  has_shape 1 5 (VideoFrames.rolling_shutter_frame crest_kernels "low" 5 0 five_frame)
  /\ exists x',
       (x' < 5)%nat
       /\ (inject_Z (Z.abs (Z.of_nat x' - Z.of_nat 1))
           <= VideoEffects.level_param VideoEffects.RollingShutter "low")%Q
       /\ pixel_at (VideoFrames.rolling_shutter_frame crest_kernels "low" 5 0 five_frame) 0 1
          = pixel_at five_frame 0 x'.
Proof.
  apply (rolling_shutter_stays_in_row crest_kernels "low" 5 0 five_frame 1 5 0 1);
    try lia.
  split; [reflexivity | repeat constructor].
Defined.

(** ** Ken Burns *)

Lemma py_round_lower (x : Q) (n : Z) :
  (inject_Z n <= x)%Q -> n <= VideoFrames.py_round x.
Proof.
  intros H. apply Qfloor_resp_le in H. rewrite Qfloor_Z in H.
  unfold VideoFrames.py_round. cbv zeta.
  destruct (Py.Qltb _ _); [exact H |].
  destruct (Py.Qltb _ _); [lia |].
  destruct (Z.even _); lia.
Qed.

Lemma ken_burns_factor_values (level : string) :
  let f := VideoEffects.level_param VideoEffects.KenBurns level in
  f = 1%Q \/ f = (125 # 100)%Q \/ f = (15 # 10)%Q.
Proof.
  cbn. unfold Py.dict_get. cbn.
  destruct (String.eqb level "low"); [auto |].
  destruct (String.eqb level "medium"); [auto |].
  destruct (String.eqb level "high"); auto.
Qed.

Lemma In_get_slice {A : Type} (a : list A) (start stop : nat) (x : A) :
  In x (Py.get_slice a start stop) -> In x a.
Proof.
  unfold Py.get_slice. intros H.
  rewrite <- (firstn_skipn start a). apply in_or_app. right.
  rewrite <- (firstn_skipn (stop - start) (skipn start a)).
  apply in_or_app. now left.
Qed.

(** The centre crop of a frame that is at least as large as the window
    has the size of the window. *)
Lemma shape_crop_center (zoomed : frame) (zh zw h w : nat) :
  has_shape zh zw zoomed -> (0 < h)%nat -> (h <= zh)%nat -> (w <= zw)%nat ->
  has_shape h w (VideoFrames.crop_center zoomed (Z.of_nat w) (Z.of_nat h)).
Proof.
  intros Hs Hh Hle Hwle.
  destruct (width_of_shape zh zw zoomed Hs ltac:(lia)) as [Ew Eh].
  unfold VideoFrames.crop_center. cbv zeta. rewrite Ew, Eh.
  destruct Hs as [Hlen Hrows].
  assert (Hy0 : 0 <= (Z.of_nat zh - Z.of_nat h) / 2 <= Z.of_nat zh - Z.of_nat h).
  { split; [apply Z.div_pos; lia | apply Z.div_le_upper_bound; lia]. }
  assert (Hx0 : 0 <= (Z.of_nat zw - Z.of_nat w) / 2 <= Z.of_nat zw - Z.of_nat w).
  { split; [apply Z.div_pos; lia | apply Z.div_le_upper_bound; lia]. }
  rewrite !slice_bound_inside by lia.
  split.
  - rewrite length_map, get_slice_length by lia. lia.
  - apply Forall_map, Forall_forall. intros row Hin.
    apply In_get_slice in Hin. rewrite Forall_forall in Hrows.
    rewrite (Hrows row Hin). rewrite !slice_bound_inside by lia.
    rewrite get_slice_length by (rewrite (Hrows row Hin); lia). lia.
Qed.

(** The zoomed frame has the rounded scaled shape. *)
Lemma zoom_linear_shape (K : VideoFrames.kernels) (f : frame) (z : Q) (h w : nat) :
  has_shape h w f -> (0 < h)%nat ->
  has_shape (Z.to_nat (VideoFrames.py_round (inject_Z (Z.of_nat h) * z)))
            (Z.to_nat (VideoFrames.py_round (inject_Z (Z.of_nat w) * z)))
            (VideoFrames.zoom_linear K f z).
Proof.
  intros H Hh. unfold VideoFrames.zoom_linear. cbv zeta.
  destruct (width_of_shape h w f H Hh) as [Ew Eh]. rewrite Ew, Eh.
  split.
  - now rewrite length_map, length_seq.
  - apply Forall_map. apply Forall_forall. intros y _.
    now rewrite length_map, length_seq.
Qed.

(** From the start of the clip on, the zoom is at least 1. *)
Lemma current_zoom_grows (level : string) (duration t : Q) :
  (0 < duration)%Q -> (0 <= t)%Q ->
  exists z,
    VideoFrames.current_zoom (VideoEffects.level_param VideoEffects.KenBurns level)
                             t duration = Ok z
    /\ (1 <= z)%Q.
Proof.
  intros Hd Ht. unfold VideoFrames.current_zoom.
  set (f := VideoEffects.level_param VideoEffects.KenBurns level).
  destruct (Qeq_bool duration 0) eqn:E0; [apply Qeq_bool_iff in E0; lra |].
  eexists. split; [reflexivity |].
  assert (Hf : (0 <= f - 1)%Q).
  { destruct (ken_burns_factor_values level) as [E | [E | E]];
      fold f in E; rewrite E; lra. }
  assert (Hq : (0 <= t / duration)%Q).
  { apply Qle_shift_div_l; [exact Hd | lra]. }
  assert (P : (0 <= (f - 1) * (t / duration))%Q) by (apply Qmult_le_0_compat; assumption).
  lra.
Qed.

(** A frame zoomed by at least 1 and cropped at its centre has its size
    again. *)
Lemma shape_zoom_crop (K : VideoFrames.kernels) (fr : frame) (z : Q) (h w : nat) :
  has_shape h w fr -> (0 < h)%nat -> (1 <= z)%Q ->
  has_shape h w (VideoFrames.crop_center (VideoFrames.zoom_linear K fr z)
                                         (Z.of_nat w) (Z.of_nat h)).
Proof.
  intros Hs Hh Hz.
  pose proof (zoom_linear_shape K fr z h w Hs Hh) as Hzoom.
  assert (Hgrow : forall n : nat,
            (n <= Z.to_nat (VideoFrames.py_round (inject_Z (Z.of_nat n) * z)))%nat).
  { intros n.
    assert (L : (inject_Z (Z.of_nat n) <= inject_Z (Z.of_nat n) * z)%Q).
    { assert (N : (0 <= inject_Z (Z.of_nat n))%Q).
      { change 0%Q with (inject_Z 0). rewrite <- Zle_Qle. lia. }
      assert (P : (0 <= inject_Z (Z.of_nat n) * (z - 1))%Q)
        by (apply Qmult_le_0_compat; lra).
      lra. }
    apply py_round_lower in L. lia. }
  eapply shape_crop_center; [exact Hzoom | exact Hh | apply Hgrow | apply Hgrow].
Qed.

(** X14. Ken Burns keeps the frame size: on a clip of [w] by [h] pixels
    with a duration above 0, the frame at every time [t >= 0] is zoomed
    by a factor of 1 at least and cropped back to [h] rows of [w]
    pixels, at every level. *)
Theorem ken_burns_keeps_size
        (K : VideoFrames.kernels) (level : string) (fr : frame) (h w : nat)
        (duration t : Q) :
  has_shape h w fr -> (0 < h)%nat -> (0 < w)%nat ->
  (0 < duration)%Q -> (0 <= t)%Q ->
  exists out,
    VideoFrames.ken_burns_frame K level (Z.of_nat w) (Z.of_nat h) duration t fr = Ok out
    /\ has_shape h w out.
Proof.
  intros Hs Hh Hw Hd Ht. unfold VideoFrames.ken_burns_frame. cbv zeta.
  destruct (Qeq_bool _ 1); [exists fr; auto |].
  destruct (current_zoom_grows level duration t Hd Ht) as (z & -> & Hz).
  eexists. split; [reflexivity |]. now apply shape_zoom_crop.
Qed.

(** The theorem on the five-pixel frame, half way through a clip of two
    seconds. *)
Lemma ken_burns_keeps_size_witness :
  exists out,
    VideoFrames.ken_burns_frame crest_kernels "high" (Z.of_nat 5) (Z.of_nat 1) 2 1 five_frame
    = Ok out
    /\ has_shape 1 5 out.
Proof.
  apply (ken_burns_keeps_size crest_kernels "high" five_frame 1 5 2 1); try lia.
  - split; [reflexivity | repeat constructor].
  - reflexivity.
  - discriminate.
Defined.

(** ** VHS look *)

Lemma returns_after_drawM {A : Type} (n : nat) (draw : M A) (P : A -> Prop) :
  returns_after 1 draw P ->
  returns_after n (VideoFrames.drawM n draw) (fun l => length l = n /\ Forall P l).
Proof.
  intros Hd. induction n as [| n IH]; cbn [VideoFrames.drawM].
  - apply returns_after_ret. split; [reflexivity | constructor].
  - replace (S n) with (0 + n + 1)%nat by lia.
    eapply returns_after_bind; [exact Hd |]. intros x Hx.
    eapply returns_after_bind; [exact IH |]. intros xs [Hl Hxs].
    apply returns_after_ret. split; [cbn; lia | now constructor].
Qed.

Lemma darken_lines_row (lines : list Z) (fr : frame) (y : nat) :
  (y < length fr)%nat ->
  nth y (VideoFrames.darken_lines lines fr) []
  = if drawn lines y then map VideoFrames.halve_pixel (nth y fr []) else nth y fr [].
Proof.
  intros Hy. unfold VideoFrames.darken_lines, Py.imap.
  now rewrite (nth_imap_from _ fr 0 y [] []) by exact Hy.
Qed.

Lemma shape_darken_lines (lines : list Z) (fr : frame) (h w : nat) :
  has_shape h w fr -> has_shape h w (VideoFrames.darken_lines lines fr).
Proof.
  unfold VideoFrames.darken_lines. apply has_shape_imap. intros y row.
  destruct (existsb _ _); [apply length_map | reflexivity].
Qed.

Lemma shape_shift_blue (fr : frame) (h w : nat) :
  has_shape h w fr -> has_shape h w (VideoFrames.shift_blue fr).
Proof.
  unfold VideoFrames.shift_blue. apply has_shape_map. intros row.
  apply map2_length. now rewrite roll_length, length_map.
Qed.

Lemma shift_blue_pixel (fr : frame) (h w y x : nat) :
  has_shape h w fr -> (y < h)%nat -> (x < w)%nat ->
  pixel_at (VideoFrames.shift_blue fr) y x
  = mkPixel (red (pixel_at fr y x)) (green (pixel_at fr y x))
            (blue (pixel_at fr y (Z.to_nat ((Z.of_nat x - 2) mod Z.of_nat w)))).
Proof.
  intros Hs Hy Hx. pose proof (shape_row h w fr y Hs Hy) as Hrow.
  destruct Hs as [Hlen _]. unfold pixel_at, VideoFrames.shift_blue.
  set (F := fun row : list pixel => map2 _ row _).
  rewrite (nth_indep _ [] (F [])) by (rewrite length_map; lia).
  rewrite map_nth. unfold F.
  rewrite (nth_map2 _ _ _ black 0 black)
    by (rewrite ?roll_length, ?length_map; lia).
  rewrite roll_nth by (rewrite length_map; lia).
  rewrite length_map, Hrow.
  assert (Hm : 0 <= (Z.of_nat x - 2) mod Z.of_nat w < Z.of_nat w)
    by (apply Z.mod_pos_bound; lia).
  rewrite (nth_indep _ 0 (blue black)) by (rewrite length_map; lia).
  now rewrite map_nth.
Qed.

(** X15. The line noise and colour shift of the VHS look on a frame of
    [h >= 1] rows, from a valid tape: [h // 20] row indices are drawn,
    all inside the frame; the result has the shape of the input; a row
    whose index was drawn has its three channels halved, once however
    often it was drawn, and the other rows are kept; and the blue channel
    of every row is moved two columns to the right, the last two columns
    coming back in at the left. A frame of fewer than 20 rows gets no
    dark line. *)
Theorem vhs_effect_lines_and_shift (fr : frame) (h w : nat) (g : state) :
  has_shape h w fr -> (0 < h)%nat -> valid_tape g ->
  exists lines out,
    VideoFrames.vhs_effect fr g
    = Ok (out, after_draws (Z.to_nat (Z.of_nat h / 20)) g)
    /\ length lines = Z.to_nat (Z.of_nat h / 20)
    /\ Forall (fun l => 0 <= l < Z.of_nat h) lines
    /\ has_shape h w out
    /\ forall y x, (y < h)%nat -> (x < w)%nat ->
         let p := pixel_at fr y x in
         let p' := pixel_at fr y (Z.to_nat ((Z.of_nat x - 2) mod Z.of_nat w)) in
         pixel_at out y x
         = mkPixel (vhs_shade (drawn lines y) (red p))
                   (vhs_shade (drawn lines y) (green p))
                   (vhs_shade (drawn lines y) (blue p')).
Proof.
  intros Hs Hh Hg. unfold VideoFrames.vhs_effect. cbv zeta.
  destruct (width_of_shape h w fr Hs Hh) as [_ Eh]. rewrite Eh.
  set (n := Z.to_nat (Z.of_nat h / 20)).
  pose proof (returns_after_drawM n (Random.np_randint 0 (Z.of_nat h))
                (fun l => 0 <= l < Z.of_nat h)
                (np_randint_valid 0 (Z.of_nat h) ltac:(lia))) as Hdraw.
  destruct (Hdraw g Hg) as (lines & E & Hl & Hall).
  exists lines. eexists. unfold bind. rewrite E. unfold ret.
  split; [reflexivity |]. split; [exact Hl |]. split; [exact Hall |].
  pose proof (shape_darken_lines lines fr h w Hs) as Hd.
  split; [now apply shape_shift_blue |].
  intros y x Hy Hx. cbv zeta.
  rewrite (shift_blue_pixel _ h w y x Hd Hy Hx).
  assert (Hm : 0 <= (Z.of_nat x - 2) mod Z.of_nat w < Z.of_nat w)
    by (apply Z.mod_pos_bound; lia).
  pose proof (shape_row h w fr y Hs Hy) as Hrow.
  destruct Hs as [Hlen _].
  unfold pixel_at. rewrite darken_lines_row by lia.
  unfold vhs_shade. destruct (drawn lines y); [| reflexivity].
  rewrite (nth_indep (map VideoFrames.halve_pixel _) black
                     (VideoFrames.halve_pixel black) (n := x))
    by (rewrite length_map; lia).
  rewrite (nth_indep (map VideoFrames.halve_pixel _) black
                     (VideoFrames.halve_pixel black)
                     (n := Z.to_nat ((Z.of_nat x - 2) mod Z.of_nat w)))
    by (rewrite length_map; lia).
  rewrite !map_nth. reflexivity.
Qed.

(** The theorem on the frame of twenty rows with every draw at one half:
    one index is drawn, and it is row 10. *)
Lemma vhs_effect_lines_and_shift_witness :
  exists lines out,
    VideoFrames.vhs_effect tall_frame (constant_tape (1 # 2))
    = Ok (out, after_draws (Z.to_nat (Z.of_nat 20 / 20)) (constant_tape (1 # 2)))
    /\ length lines = Z.to_nat (Z.of_nat 20 / 20)
    /\ Forall (fun l => 0 <= l < Z.of_nat 20) lines
    /\ has_shape 20 3 out
    /\ forall y x, (y < 20)%nat -> (x < 3)%nat ->
         let p := pixel_at tall_frame y x in
         let p' := pixel_at tall_frame y (Z.to_nat ((Z.of_nat x - 2) mod Z.of_nat 3)) in
         pixel_at out y x
         = mkPixel (vhs_shade (drawn lines y) (red p))
                   (vhs_shade (drawn lines y) (green p))
                   (vhs_shade (drawn lines y) (blue p')).
Proof.
  apply (vhs_effect_lines_and_shift tall_frame 20 3 (constant_tape (1 # 2))); try lia.
  - split; [reflexivity | repeat constructor].
  - intros n. cbn. split; [discriminate | reflexivity].
Defined.

(** The run of that witness: row 10 comes out halved and row 9 is kept,
    both with the blue channel two columns to the right. *)
Example vhs_effect_on_tall_frame :
  exists out,
    VideoFrames.vhs_effect tall_frame (constant_tape (1 # 2))
    = Ok (out, after_draws 1 (constant_tape (1 # 2)))
    /\ nth 10 out [] = [mkPixel 50 0 55; mkPixel 50 0 60; mkPixel 50 1 50]
    /\ nth 9 out [] = [mkPixel 90 0 110; mkPixel 90 1 120; mkPixel 90 2 100].
Proof. eexists. split; [vm_compute; reflexivity | split; reflexivity]. Qed.

(** ** The interpolator inside the grid *)

Section GridCells.

Variable n : Z.
Hypothesis size_ok : 2 <= n.

Lemma span_pos : (0 < inject_Z (n - 1))%Q.
Proof. change 0%Q with (inject_Z 0). rewrite <- Zlt_Qlt. lia. Qed.

(** A node lies below [x] exactly when its index lies below the ceiling
    of [x * (n - 1)]. *)
Lemma node_below (a : Z) (x : Q) :
  Py.Qltb (Cube.grid_point n a) x = (a <? Qceiling (x * inject_Z (n - 1))).
Proof.
  pose proof span_pos as Hsp.
  rewrite (grid_point_eq n size_ok).
  set (X := (x * inject_Z (n - 1))%Q).
  pose proof (Qle_ceiling X) as C1. pose proof (Qceiling_lt X) as C2.
  destruct (Z.ltb_spec a (Qceiling X)) as [L | L].
  - apply Qltb_true. apply Qlt_shift_div_r; [exact span_pos |]. fold X.
    assert (L' : a <= Qceiling X - 1) by lia.
    rewrite Zle_Qle in L'. lra.
  - destruct (Py.Qltb _ x) eqn:B; [| reflexivity].
    apply Qltb_true in B. exfalso.
    assert (B' : (inject_Z a < X)%Q).
    { unfold X.
      assert (E : (inject_Z a == inject_Z a / inject_Z (n - 1) * inject_Z (n - 1))%Q)
        by (field; lra).
      rewrite E. apply Qmult_lt_r; [exact span_pos | exact B]. }
    rewrite Zle_Qle in L. lra.
Qed.

Lemma searchsorted_ceiling (x : Q) :
  (0 <= x)%Q -> (x <= 1)%Q ->
  Cube.searchsorted n x = Qceiling (x * inject_Z (n - 1))
  /\ 0 <= Qceiling (x * inject_Z (n - 1)) <= n - 1.
Proof.
  intros H0 H1. pose proof span_pos as Hsp.
  set (X := (x * inject_Z (n - 1))%Q).
  assert (HX0 : (0 <= X)%Q) by (apply Qmult_le_0_compat; lra).
  assert (HX1 : (X <= inject_Z (n - 1))%Q).
  { unfold X. assert (P : (0 <= (1 - x) * inject_Z (n - 1))%Q)
      by (apply Qmult_le_0_compat; lra). lra. }
  assert (Hc : 0 <= Qceiling X <= n - 1).
  { split.
    - apply Qceiling_resp_le in HX0. exact HX0.
    - apply Qceiling_resp_le in HX1. now rewrite Qceiling_Z in HX1. }
  split; [| exact Hc]. unfold Cube.searchsorted.
  rewrite (filter_ext _ (fun a => Z.of_nat a <? Qceiling X))
    by (intros a; apply node_below).
  rewrite count_below by lia. lia.
Qed.

(** The cell of a point of [0, 1] lies in the grid and holds the point. *)
Lemma cell_holds_point (x : Q) :
  (0 <= x)%Q -> (x <= 1)%Q ->
  let i := Cube.find_index n x in
  0 <= i <= n - 2
  /\ (inject_Z i <= x * inject_Z (n - 1))%Q
  /\ (x * inject_Z (n - 1) <= inject_Z i + 1)%Q.
Proof.
  intros H0 H1. pose proof span_pos as Hsp. cbv zeta. unfold Cube.find_index.
  destruct (searchsorted_ceiling x H0 H1) as [-> Hc].
  set (X := (x * inject_Z (n - 1))%Q) in *.
  pose proof (Qle_ceiling X) as C1. pose proof (Qceiling_lt X) as C2.
  assert (HX0 : (0 <= X)%Q) by (apply Qmult_le_0_compat; lra).
  unfold Zminus in C2. rewrite inject_Z_plus in C2.
  change (inject_Z (- (1))) with (- (1))%Q in C2.
  destruct (Z.ltb_spec (Qceiling X - 1) 0) as [L | L].
  - assert (E : Qceiling X = 0) by lia. rewrite E in *.
    destruct (Z.ltb_spec (n - 2) 0); [lia |].
    change (inject_Z 0) with 0%Q in *. split; [lia |]. split; lra.
  - destruct (Z.ltb_spec (n - 2) (Qceiling X - 1)); [lia |].
    split; [lia |]. unfold Zminus. rewrite inject_Z_plus.
    change (inject_Z (- (1))) with (- (1))%Q. split; lra.
Qed.

Lemma norm_distance_range (x : Q) :
  (0 <= x)%Q -> (x <= 1)%Q ->
  (0 <= Cube.norm_distance n x)%Q /\ (Cube.norm_distance n x <= 1)%Q
  /\ 0 <= Cube.find_index n x <= n - 2.
Proof.
  intros H0 H1. pose proof span_pos as Hsp.
  destruct (cell_holds_point x H0 H1) as (Hi & Hlo & Hhi).
  cbv zeta in *. unfold Cube.norm_distance. cbv zeta.
  set (i := Cube.find_index n x) in *.
  rewrite !(grid_point_eq n size_ok). rewrite inject_Z_plus.
  change (inject_Z 1) with 1%Q.
  set (s := inject_Z (n - 1)) in *.
  assert (Hs : ~ (s == 0)%Q) by lra.
  assert (Ed : ((inject_Z i + 1) / s - inject_Z i / s == / s)%Q) by (field; exact Hs).
  assert (Hinv : (0 < / s)%Q) by now apply Qinv_lt_0_compat.
  assert (En : (x - inject_Z i / s == (x * s - inject_Z i) * / s)%Q) by (field; exact Hs).
  split; [| split; [| exact Hi]].
  - apply Qle_shift_div_l; [rewrite Ed; exact Hinv |].
    rewrite Qmult_0_l, En. apply Qmult_le_0_compat; lra.
  - apply Qle_shift_div_r; [rewrite Ed; exact Hinv |].
    rewrite Ed, En, Qmult_1_l.
    assert (P : (0 <= (1 - (x * s - inject_Z i)) * / s)%Q)
      by (apply Qmult_le_0_compat; lra).
    lra.
Qed.

End GridCells.

(** A weighted value lies between the weighted bounds. *)
Lemma weighted_between (lo hi v w : Q) :
  (lo <= v)%Q -> (v <= hi)%Q -> (0 <= w)%Q ->
  (lo * w <= v * w)%Q /\ (v * w <= hi * w)%Q.
Proof.
  intros H1 H2 Hw. split; apply Qmult_le_compat_r; assumption.
Qed.

Lemma weight_nonneg (far : bool) (u : Q) :
  (0 <= u)%Q -> (u <= 1)%Q -> (0 <= (if far then u else 1 - u))%Q.
Proof. intros H0 H1. destruct far; lra. Qed.

(** X16. In the exact arithmetic of the model, the interpolator never
    leaves the range of the table: for a table of size [N >= 2] whose
    values of a channel lie in [lo, hi] at every node, the value
    interpolated for that channel at any point of the unit cube lies in
    [lo, hi]: the eight weights are not negative and sum to 1. (In the
    float64 arithmetic of SciPy the sum of the eight products can leave
    the range by a rounding error; the clipping of [apply_lut] is what
    bounds the pixel then.) *)
Theorem interpolate_within_table_range
        (t : Cube.lut_table) (x y z : Q) (c : Z) (lo hi : Q) :
  let n := Cube.lut_size t in
  2 <= n ->
  (0 <= x)%Q -> (x <= 1)%Q -> (0 <= y)%Q -> (y <= 1)%Q -> (0 <= z)%Q -> (z <= 1)%Q ->
  (forall i j k, 0 <= i < n -> 0 <= j < n -> 0 <= k < n ->
     (lo <= Cube.table_at t i j k c)%Q /\ (Cube.table_at t i j k c <= hi)%Q) ->
  (lo <= Cube.interpolate t x y z c)%Q /\ (Cube.interpolate t x y z c <= hi)%Q.
Proof.
  intros n Hn Hx0 Hx1 Hy0 Hy1 Hz0 Hz1 Htab.
  destruct (norm_distance_range n Hn x Hx0 Hx1) as (Tx0 & Tx1 & Hi).
  destruct (norm_distance_range n Hn y Hy0 Hy1) as (Ty0 & Ty1 & Hj).
  destruct (norm_distance_range n Hn z Hz0 Hz1) as (Tz0 & Tz1 & Hk).
  unfold Cube.interpolate. fold n. cbv zeta.
  set (i := Cube.find_index n x) in *.
  set (j := Cube.find_index n y) in *.
  set (k := Cube.find_index n z) in *.
  set (tx := Cube.norm_distance n x) in *.
  set (ty := Cube.norm_distance n y) in *.
  set (tz := Cube.norm_distance n z) in *.
  cbv beta iota.
  assert (Hv : forall a b d : bool,
            (lo <= Cube.table_at t (if a then i + 1 else i) (if b then j + 1 else j)
                                   (if d then k + 1 else k) c)%Q
            /\ (Cube.table_at t (if a then i + 1 else i) (if b then j + 1 else j)
                                (if d then k + 1 else k) c <= hi)%Q).
  { intros a b d. apply Htab; [destruct a | destruct b | destruct d]; lia. }
  assert (Hw : forall (a b d : bool),
            (0 <= (if a then tx else 1 - tx) * (if b then ty else 1 - ty)
                  * (if d then tz else 1 - tz))%Q).
  { intros a b d. apply Qmult_le_0_compat; [apply Qmult_le_0_compat |];
      apply weight_nonneg; assumption. }
  pose proof (weighted_between lo hi _ _ (proj1 (Hv false false false))
                (proj2 (Hv false false false)) (Hw false false false)) as B000.
  pose proof (weighted_between lo hi _ _ (proj1 (Hv false false true))
                (proj2 (Hv false false true)) (Hw false false true)) as B001.
  pose proof (weighted_between lo hi _ _ (proj1 (Hv false true false))
                (proj2 (Hv false true false)) (Hw false true false)) as B010.
  pose proof (weighted_between lo hi _ _ (proj1 (Hv false true true))
                (proj2 (Hv false true true)) (Hw false true true)) as B011.
  pose proof (weighted_between lo hi _ _ (proj1 (Hv true false false))
                (proj2 (Hv true false false)) (Hw true false false)) as B100.
  pose proof (weighted_between lo hi _ _ (proj1 (Hv true false true))
                (proj2 (Hv true false true)) (Hw true false true)) as B101.
  pose proof (weighted_between lo hi _ _ (proj1 (Hv true true false))
                (proj2 (Hv true true false)) (Hw true true false)) as B110.
  pose proof (weighted_between lo hi _ _ (proj1 (Hv true true true))
                (proj2 (Hv true true true)) (Hw true true true)) as B111.
  cbv beta iota in *.
  set (w000 := ((1 - tx) * (1 - ty) * (1 - tz))%Q) in *.
  set (w001 := ((1 - tx) * (1 - ty) * tz)%Q) in *.
  set (w010 := ((1 - tx) * ty * (1 - tz))%Q) in *.
  set (w011 := ((1 - tx) * ty * tz)%Q) in *.
  set (w100 := (tx * (1 - ty) * (1 - tz))%Q) in *.
  set (w101 := (tx * (1 - ty) * tz)%Q) in *.
  set (w110 := (tx * ty * (1 - tz))%Q) in *.
  set (w111 := (tx * ty * tz)%Q) in *.
  assert (Elo : (lo * w000 + lo * w001 + lo * w010 + lo * w011
                 + lo * w100 + lo * w101 + lo * w110 + lo * w111 == lo)%Q).
  { unfold w000, w001, w010, w011, w100, w101, w110, w111. ring. }
  assert (Ehi : (hi * w000 + hi * w001 + hi * w010 + hi * w011
                 + hi * w100 + hi * w101 + hi * w110 + hi * w111 == hi)%Q).
  { unfold w000, w001, w010, w011, w100, w101, w110, w111. ring. }
  destruct B000, B001, B010, B011, B100, B101, B110, B111.
  split.
  - rewrite <- Elo. clearbody w000 w001 w010 w011 w100 w101 w110 w111. lra.
  - rewrite <- Ehi. clearbody w000 w001 w010 w011 w100 w101 w110 w111. lra.
Qed.

(** The theorem on [cube2], whose values lie in [0, 1], at the centre of
    the cube. *)
Lemma interpolate_within_table_range_witness :
  (0 <= Cube.interpolate cube2 (1 # 2) (1 # 2) (1 # 2) 0)%Q
  /\ (Cube.interpolate cube2 (1 # 2) (1 # 2) (1 # 2) 0 <= 1)%Q.
Proof.
  apply (interpolate_within_table_range cube2 (1 # 2) (1 # 2) (1 # 2) 0 0 1);
    try discriminate; try (cbn; lia).
  intros i j k Hi Hj Hk. cbn in Hi, Hj, Hk.
  assert (Ei : i = 0 \/ i = 1) by lia.
  assert (Ej : j = 0 \/ j = 1) by lia.
  assert (Ek : k = 0 \/ k = 1) by lia.
  destruct Ei as [-> | ->], Ej as [-> | ->], Ek as [-> | ->];
    vm_compute; split; discriminate.
Defined.

(** ** The parser of .cube files: the lines it passes over *)

Lemma scan_line_passed_over (I : Cube.interpreter) (st : Z * list (list Cube.pyfloat))
      (raw : Cube.str) :
  passed_over raw = true -> Cube.scan_line I st raw = Ok st.
Proof.
  unfold passed_over, Cube.scan_line. cbv zeta.
  destruct (Cube.strip raw) as [| c rest]; [reflexivity |].
  cbn [Cube.nonempty negb orb].
  change (Cube.text "#") with [Cube.chr "#"].
  cbn [Cube.startswith].
  replace (Cube.startswith rest []) with true by (destruct rest; reflexivity).
  rewrite andb_true_r.
  destruct (N.eqb c (Cube.chr "#")); [reflexivity |]. cbn [orb andb].
  intros H. apply andb_true_iff in H. destruct H as [Hc Hs].
  apply negb_true_iff in Hc, Hs. rewrite Hs.
  unfold Cube.re_match_row. cbn [Cube.span]. rewrite Hc.
  destruct (Cube.span Cube.is_space (c :: rest)) as [s1 r2].
  destruct (Cube.span Cube.is_num_char r2) as [b r3].
  destruct (Cube.span Cube.is_space r3) as [s2 r4].
  destruct (Cube.span Cube.is_num_char r4) as [c' r5].
  reflexivity.
Qed.

Lemma scan_from_app (I : Cube.interpreter) (st : Z * list (list Cube.pyfloat))
      (a b : list Cube.str) :
  Cube.scan_from I st (a ++ b)
  = match Cube.scan_from I st a with
    | Ok st' => Cube.scan_from I st' b
    | Raise e => Raise e
    end.
Proof.
  revert st. induction a as [| raw a IH]; intros st; cbn [app Cube.scan_from];
    [reflexivity |].
  destruct (Cube.scan_line I st raw); [apply IH | reflexivity].
Qed.

(** X17. The parser of .cube files passes over blank lines, comments and
    keyword lines wherever they stand: with such a line added or removed
    at any place the parser returns the same array or raises the same
    error. The lines [DOMAIN_MIN] and [DOMAIN_MAX] are among them, so the
    domain a file declares has no part in the array. The white space a
    line is read without is that of [str.strip], the no-break space and
    the other spaces of Unicode included, so that a size line or a data
    row behind such spaces is not among the lines passed over. *)
Theorem parser_passes_over_keyword_lines
        (I : Cube.interpreter) (before after : list Cube.str) (raw : Cube.str) :
  passed_over raw = true ->
  Cube.parse_cube_file I (before ++ raw :: after)
  = Cube.parse_cube_file I (before ++ after).
Proof.
  intros H. unfold Cube.parse_cube_file, Cube.scan.
  rewrite !scan_from_app.
  destruct (Cube.scan_from I (0, []) before) as [st |]; [| reflexivity].
  cbn [Cube.scan_from]. now rewrite (scan_line_passed_over I st raw H).
Qed.

(** The theorem on a file that declares the domain [0, 2]: the array is
    the one of the file without that line. *)
Lemma parser_passes_over_keyword_lines_witness :
  Cube.parse_cube_file plain_python domain_cube
  = Cube.parse_cube_file plain_python
      (firstn 3 domain_cube ++ skipn 4 domain_cube).
Proof.
  apply (parser_passes_over_keyword_lines plain_python (firstn 3 domain_cube)
           (skipn 4 domain_cube) (Cube.text "DOMAIN_MAX 2.0 2.0 2.0")).
  vm_compute. reflexivity.
Defined.

(** A keyword line behind a no-break space is passed over; a size line
    behind one is not: the parser reads it. *)
Example passed_over_behind_no_break_space :
  passed_over ([160%N] ++ Cube.text "TITLE none") = true
  /\ passed_over ([160%N] ++ Cube.text "LUT_3D_SIZE 2") = false.
Proof. split; vm_compute; reflexivity. Qed.

(** ** The handlers: the level a reply selects *)

Lemma lower_char_not_upper (c : ascii) : is_upper_char (Handlers.lower_char c) = false.
Proof. destruct c as [[] [] [] [] [] [] [] []]; reflexivity. Qed.

Lemma lower_has_no_upper (s : string) : has_upper (Handlers.lower s) = false.
Proof.
  induction s as [| c s IH]; cbn [Handlers.lower has_upper]; [reflexivity |].
  now rewrite lower_char_not_upper, IH.
Qed.

(** A key that holds a capital is never found by a lower-cased reply. *)
Lemma dict_get_capital_keys {V : Type} (d : list (string * V)) (choice : string)
      (default : V) :
  Forall (fun kv => has_upper (fst kv) = true) d ->
  Py.dict_get d (Handlers.lower choice) default = default.
Proof.
  induction 1 as [| [k v] d Hk _ IH]; cbn [Py.dict_get]; [reflexivity |].
  destruct (String.eqb_spec (Handlers.lower choice) k) as [E | _]; [| exact IH].
  cbn [fst] in Hk. rewrite <- E, lower_has_no_upper in Hk. discriminate.
Qed.

(** X18. In the video menu the reply to a level keyboard that shows
    capitalised words makes no difference: the reply is lower-cased
    before it is looked up among the capitalised keys, so it is never
    found, and for each of the eleven effects with such a keyboard the
    stored pair is the effect with the level medium, whatever the user
    answers. *)
Theorem video_level_reply_is_ignored
        (name : string) (setter : string -> Handlers.user_data -> Handlers.outcome)
        (choice : string) (ud : Handlers.user_data) :
  In (name, setter) capitalised_setters ->
  setter choice ud = Handlers.add_parameterized name "medium" ud.
Proof.
  intros Hin.
  assert (Hlmh : Py.dict_get Handlers.low_medium_high (Handlers.lower choice) "medium"%string
                 = "medium"%string).
  { apply dict_get_capital_keys. repeat constructor. }
  assert (Hcart : Py.dict_get [("Subtle", "low"); ("Normal", "medium"); ("Strong", "high")]%string
                    (Handlers.lower choice) "medium"%string = "medium"%string).
  { apply dict_get_capital_keys. repeat constructor. }
  unfold capitalised_setters in Hin. cbn [In] in Hin.
  repeat (destruct Hin as [Hin | Hin];
          [inversion Hin; subst;
           cbv beta delta [Handlers.set_contrast_level Handlers.set_saturation_level
                           Handlers.set_aberration_level Handlers.set_pixelate_level
                           Handlers.set_grain_level Handlers.set_glitch_level
                           Handlers.set_shutter_level Handlers.set_neon_level
                           Handlers.set_cartoon_level Handlers.set_vignette_level
                           Handlers.set_kenburns_level Handlers.create_level_setter];
           cbv zeta; rewrite ?Hlmh, ?Hcart; reflexivity |]).
  contradiction.
Qed.

(** The theorem on the reply High to the keyboard of Glitch. *)
Lemma video_level_reply_is_ignored_witness :
  Handlers.set_glitch_level "High" Handlers.cleared
  = Handlers.add_parameterized "Glitch" "medium" Handlers.cleared.
Proof.
  apply (video_level_reply_is_ignored "Glitch" Handlers.set_glitch_level "High"
           Handlers.cleared).
  cbn. tauto.
Defined.

(** ** The handlers: what the menus keep true of a selection *)

Lemma matches_name (choice : string) (e : Handlers.entry) :
  Handlers.matches choice e = String.eqb (Handlers.entry_name e) choice.
Proof. destruct e; cbn; [apply orb_false_r | reflexivity]. Qed.

Lemma not_matched_not_named (choice : string) (l : list Handlers.entry) :
  existsb (Handlers.matches choice) l = false ->
  ~ In choice (map Handlers.entry_name l).
Proof.
  induction l as [| e l IH]; cbn [existsb map In]; [tauto |].
  intros H. apply orb_false_iff in H. destruct H as [He Hl].
  rewrite matches_name in He. apply String.eqb_neq in He.
  intros [E | Hin]; [congruence | now apply IH].
Qed.

(** Dropping entries keeps the names distinct. *)
Lemma filtered_names_distinct (keep : Handlers.entry -> bool) (sel : list Handlers.entry) :
  NoDup (map Handlers.entry_name sel) ->
  NoDup (map Handlers.entry_name (filter keep sel)).
Proof.
  intros Hnd. induction sel as [| e sel IH]; [exact Hnd |].
  cbn [map] in Hnd. apply NoDup_cons_iff in Hnd. destruct Hnd as [Hfresh Hrest].
  cbn [filter]. destruct (keep e); [| now apply IH].
  cbn [map]. apply NoDup_cons; [| now apply IH].
  rewrite in_map_iff. intros (e' & Ename & Hin).
  apply filter_In in Hin. apply Hfresh. rewrite in_map_iff. exists e'. tauto.
Qed.

Lemma filter_length_le {A : Type} (p : A -> bool) (l : list A) :
  (length (filter p l) <= length l)%nat.
Proof.
  induction l as [| x l IH]; cbn [filter length]; [lia |].
  destruct (p x); cbn [length]; lia.
Qed.

Section Good.

Variable keys : list (string * Handlers.States).

Lemma good_nil : good keys [].
Proof. repeat split; cbn; [lia | constructor | constructor]. Qed.

Lemma good_filter (p : Handlers.entry -> bool) (l : list Handlers.entry) :
  good keys l -> good keys (filter p l).
Proof.
  intros [[Hlen Hnd] Hfit]. repeat split.
  - pose proof (filter_length_le p l). lia.
  - now apply filtered_names_distinct.
  - apply Forall_forall. intros e He. apply filter_In in He.
    rewrite Forall_forall in Hfit. now apply Hfit.
Qed.

Lemma NoDup_snoc {A : Type} (l : list A) (x : A) :
  NoDup l -> ~ In x l -> NoDup (l ++ [x]).
Proof.
  intros Hnd Hx. induction Hnd as [| y l Hy Hnd IH]; cbn [app].
  - constructor; [tauto | constructor].
  - constructor.
    + intros Hin. apply in_app_or in Hin. cbn in Hin, Hx. intuition congruence.
    + apply IH. cbn in Hx. tauto.
Qed.

Lemma good_snoc (l : list Handlers.entry) (e : Handlers.entry) :
  good keys l -> (length l < 3)%nat -> ~ In (Handlers.entry_name e) (map Handlers.entry_name l) ->
  entry_fits keys e -> good keys (l ++ [e]).
Proof.
  intros [[Hlen Hnd] Hfit] Hroom Hnew He. repeat split.
  - rewrite length_app. cbn. lia.
  - rewrite map_app. cbn [map]. now apply NoDup_snoc.
  - apply Forall_app. split; [exact Hfit | now constructor].
Qed.

(** A pair replaces the pair of its name. *)
Lemma good_replace_pair (l : list Handlers.entry) (name param : string) :
  good keys l -> Py.dict_lookup keys name <> None ->
  let l' := filter (fun e => negb (Handlers.is_tuple_named name e)) l in
  (length l' < 3)%nat -> good keys (l' ++ [Handlers.WithParam name param]).
Proof.
  intros Hg Hkey l' Hroom.
  apply good_snoc; [now apply good_filter | exact Hroom | | exact Hkey].
  cbn [Handlers.entry_name]. intros Hin. apply in_map_iff in Hin.
  destruct Hin as (e & Ee & He). apply filter_In in He. destruct He as [He Hp].
  destruct Hg as [_ Hfit]. rewrite Forall_forall in Hfit. specialize (Hfit e He).
  destruct e as [n | n p]; cbn in Ee, Hp, Hfit; subst n.
  - contradiction.
  - rewrite String.eqb_refl in Hp. discriminate.
Qed.

End Good.

Lemma inv_cleared : menus_inv Handlers.cleared.
Proof.
  repeat split; cbn; try lia; try constructor. intros c H. discriminate.
Qed.

Lemma inv_with_selected (ud : Handlers.user_data) (l : list Handlers.entry) :
  menus_inv ud -> good Handlers.parameterized_effects l ->
  menus_inv (Handlers.with_selected ud l).
Proof. intros (_ & Hi & Hc) Hl. now split; [| split]. Qed.

Lemma inv_with_image_selected (ud : Handlers.user_data) (l : list Handlers.entry) :
  menus_inv ud -> good Handlers.parameterized_image_effects l ->
  menus_inv (Handlers.with_image_selected ud l).
Proof. intros (Hv & _ & Hc) Hl. now split; [| split]. Qed.

Lemma inv_with_current (ud : Handlers.user_data) (c : option string) :
  menus_inv ud ->
  (forall x, c = Some x -> Py.dict_lookup Handlers.parameterized_image_effects x <> None) ->
  menus_inv (Handlers.with_current ud c).
Proof. intros (Hv & Hi & _) Hc. now split; [| split]. Qed.

Lemma inv_with_final (ud : Handlers.user_data) (l : list string) :
  menus_inv ud -> menus_inv (Handlers.with_final ud l).
Proof. intros (Hv & Hi & Hc). now split; [| split]. Qed.

Lemma inv_with_final_effects (ud : Handlers.user_data) (l : list string) :
  menus_inv ud -> menus_inv (Handlers.with_final_effects ud l).
Proof. intros (Hv & Hi & Hc). now split; [| split]. Qed.

Lemma inv_video_selection (ud : Handlers.user_data) :
  menus_inv ud ->
  good Handlers.parameterized_effects (Handlers.get_list (Handlers.selected_effects ud)).
Proof. now intros (Hv & _). Qed.

Lemma inv_image_selection (ud : Handlers.user_data) :
  menus_inv ud ->
  good Handlers.parameterized_image_effects
       (Handlers.get_list (Handlers.selected_image_effects ud)).
Proof. now intros (_ & Hi & _). Qed.

Lemma length_ltb_3 (n : nat) : (n <? 3)%nat = true -> (n < 3)%nat.
Proof. apply Nat.ltb_lt. Qed.

(** *** The video menu *)

Lemma inv_choose_effects (choice : string) (ud : Handlers.user_data) :
  menus_inv ud -> menus_inv (fst (Handlers.choose_effects choice ud)).
Proof.
  intros Hinv. pose proof (inv_video_selection ud Hinv) as Hsel.
  unfold Handlers.choose_effects.
  destruct (String.eqb choice Handlers.cancel_text); [exact inv_cleared |].
  destruct (String.eqb choice Handlers.reset_text);
    [apply inv_with_selected; [exact Hinv | apply good_nil] |].
  cbv zeta.
  set (selected := Handlers.get_list (Handlers.selected_effects ud)) in *.
  destruct (Handlers.contains "Done" choice);
    [destruct (Handlers.is_empty selected); exact Hinv |].
  set (ud1 := if (String.eqb choice "look-up table" && existsb _ selected)%bool
              then _ else ud).
  assert (H1 : menus_inv ud1).
  { unfold ud1. destruct (_ && _)%bool; [| exact Hinv].
    apply inv_with_selected; [exact Hinv | now apply good_filter]. }
  destruct (Py.dict_lookup Handlers.parameterized_effects choice) eqn:Ek; [exact H1 |].
  destruct (existsb (Handlers.matches choice) selected) eqn:Em.
  { apply inv_with_selected; [exact H1 | now apply good_filter]. }
  destruct (length selected <? 3)%nat eqn:El; [| exact H1].
  assert (Hnew : good Handlers.parameterized_effects (selected ++ [Handlers.Plain choice])).
  { apply good_snoc; [exact Hsel | now apply length_ltb_3 | | exact Ek].
    now apply not_matched_not_named. }
  destruct (length (selected ++ [Handlers.Plain choice]) =? 3)%nat;
    now apply inv_with_selected.
Qed.

Lemma inv_add_parameterized (name param : string) (ud : Handlers.user_data) :
  Py.dict_lookup Handlers.parameterized_effects name <> None ->
  menus_inv ud -> menus_inv (fst (Handlers.add_parameterized name param ud)).
Proof.
  intros Hkey Hinv. pose proof (inv_video_selection ud Hinv) as Hsel.
  unfold Handlers.add_parameterized. cbv zeta.
  set (l' := filter _ (Handlers.get_list (Handlers.selected_effects ud))).
  destruct (length l' <? 3)%nat eqn:El; [| exact Hinv].
  assert (Hnew : good Handlers.parameterized_effects (l' ++ [Handlers.WithParam name param])).
  { apply good_replace_pair; [exact Hsel | exact Hkey | now apply length_ltb_3]. }
  destruct (length (l' ++ [Handlers.WithParam name param]) =? 3)%nat;
    now apply inv_with_selected.
Qed.

Lemma inv_setter (s : video_setter) (choice : string) (ud : Handlers.user_data) :
  menus_inv ud -> menus_inv (fst (setter_handler s choice ud)).
Proof.
  intros Hinv.
  destruct s; cbn [setter_handler];
    cbv beta delta [Handlers.set_contrast_level Handlers.set_saturation_level
                    Handlers.set_aberration_level Handlers.set_pixelate_level
                    Handlers.set_speed_level Handlers.set_rotate_option
                    Handlers.set_grain_level Handlers.set_glitch_level
                    Handlers.set_shutter_level Handlers.set_neon_level
                    Handlers.set_cartoon_level Handlers.set_vignette_level
                    Handlers.set_fade_duration Handlers.set_kenburns_level
                    Handlers.create_level_setter];
    cbv zeta; (apply inv_add_parameterized; [discriminate | exact Hinv]).
Qed.

Lemma inv_video_handle (run : Handlers.runner) (ud : Handlers.user_data)
      (ev : video_event) :
  menus_inv ud -> menus_inv (video_handle run ud ev).
Proof.
  intros Hinv. destruct ev as [| choice | s choice | path | choice | choice | text |];
    cbn [video_handle].
  - unfold Handlers.ask_video_effects.
    destruct (Handlers.selected_effects ud); [exact Hinv |].
    apply inv_with_selected; [exact Hinv | apply good_nil].
  - now apply inv_choose_effects.
  - now apply inv_setter.
  - unfold Handlers.add_lut. apply inv_add_parameterized; [discriminate | exact Hinv].
  - unfold Handlers.handle_post_max_effects_choice.
    destruct (Handlers.contains "Start Processing" choice); [exact Hinv |].
    destruct (Handlers.contains "Reset Selection" choice); [| exact inv_cleared].
    apply inv_with_selected; [exact Hinv | apply good_nil].
  - unfold Handlers.handle_render_quality, Handlers.process_and_confirm_effects.
    cbv zeta. destruct (Handlers.final_files ud); [| exact Hinv].
    cbn [left_by]. now apply inv_with_final_effects.
  - unfold Handlers.handle_effects_confirmation.
    destruct (Handlers.contains "Yes" text).
    + destruct (Handlers.final_files_with_effects ud); [| exact Hinv].
      cbn [left_by]. now apply inv_with_final.
    + cbn [left_by Handlers._return_to_effects_menu].
      apply inv_with_selected; [exact Hinv | apply good_nil].
  - exact inv_cleared.
Qed.

(** *** The image menu *)

Lemma inv_process_image (run : Handlers.runner) (ud : Handlers.user_data) :
  menus_inv ud -> menus_inv (fst (Handlers.process_and_confirm_image_effects run ud)).
Proof.
  intros Hinv. unfold Handlers.process_and_confirm_image_effects. cbv zeta.
  now apply inv_with_final_effects.
Qed.

Lemma inv_choose_image_effects (run : Handlers.runner) (choice : string)
      (ud : Handlers.user_data) :
  menus_inv ud -> menus_inv (fst (Handlers.choose_image_effects run choice ud)).
Proof.
  intros Hinv. pose proof (inv_image_selection ud Hinv) as Hsel.
  unfold Handlers.choose_image_effects.
  destruct (String.eqb choice Handlers.cancel_text); [exact inv_cleared |].
  destruct (String.eqb choice Handlers.reset_text);
    [apply inv_with_image_selected; [exact Hinv | apply good_nil] |].
  cbv zeta.
  set (selected := Handlers.get_list (Handlers.selected_image_effects ud)) in *.
  destruct (Handlers.contains "Done" choice).
  { destruct (Handlers.is_empty selected); [exact Hinv | now apply inv_process_image]. }
  set (ud1 := if (String.eqb choice "look-up table" && existsb _ selected)%bool
              then _ else ud).
  assert (H1 : menus_inv ud1).
  { unfold ud1. destruct (_ && _)%bool; [| exact Hinv].
    apply inv_with_image_selected; [exact Hinv | now apply good_filter]. }
  destruct (Py.dict_lookup Handlers.parameterized_image_effects choice) eqn:Ek.
  { cbn [fst]. apply inv_with_current; [exact H1 |].
    intros x Ex. inversion Ex; subst x. rewrite Ek. discriminate. }
  destruct (existsb (Handlers.matches choice) selected) eqn:Em.
  { apply inv_with_image_selected; [exact H1 | now apply good_filter]. }
  destruct (length selected <? 3)%nat eqn:El;
    [| now apply inv_with_image_selected].
  assert (Hnew : good Handlers.parameterized_image_effects
                      (selected ++ [Handlers.Plain choice])).
  { apply good_snoc; [exact Hsel | now apply length_ltb_3 | | exact Ek].
    now apply not_matched_not_named. }
  destruct (length (selected ++ [Handlers.Plain choice]) =? 3)%nat.
  - cbn [fst]. destruct (Handlers.selected_image_effects ud);
      [now apply inv_with_image_selected | exact H1].
  - now apply inv_with_image_selected.
Qed.

Lemma inv_add_image_parameterized (name param : string) (ud : Handlers.user_data) :
  Py.dict_lookup Handlers.parameterized_image_effects name <> None ->
  menus_inv ud -> menus_inv (fst (Handlers.add_image_parameterized name param ud)).
Proof.
  intros Hkey Hinv. pose proof (inv_image_selection ud Hinv) as Hsel.
  unfold Handlers.add_image_parameterized. cbv zeta.
  set (l' := filter _ (Handlers.get_list (Handlers.selected_image_effects ud))).
  destruct (length l' <? 3)%nat eqn:El; [| exact Hinv].
  assert (Hnew : good Handlers.parameterized_image_effects
                      (l' ++ [Handlers.WithParam name param])).
  { apply good_replace_pair; [exact Hsel | exact Hkey | now apply length_ltb_3]. }
  destruct (length (l' ++ [Handlers.WithParam name param]) =? 3)%nat;
    now apply inv_with_image_selected.
Qed.

Lemma inv_image_handle (run : Handlers.runner) (ud : Handlers.user_data)
      (ev : image_event) :
  menus_inv ud -> menus_inv (image_handle run ud ev).
Proof.
  intros Hinv. destruct ev as [| choice | choice | path | choice | text |];
    cbn [image_handle].
  - unfold Handlers.ask_image_effects.
    destruct (Handlers.selected_image_effects ud); [exact Hinv |].
    apply inv_with_image_selected; [exact Hinv | apply good_nil].
  - now apply inv_choose_image_effects.
  - unfold Handlers.set_image_effect_level. cbv zeta.
    destruct (Py.dict_lookup Handlers.image_level_map (Handlers.lower choice))
      as [level |]; [| exact Hinv].
    destruct (Handlers.current_effect_choice ud) as [name |] eqn:Ec; [| exact Hinv].
    destruct (_ || _)%bool; [exact Hinv |].
    assert (Hkey : Py.dict_lookup Handlers.parameterized_image_effects name <> None).
    { destruct Hinv as (_ & _ & Hc). now apply Hc. }
    pose proof (inv_add_image_parameterized name level ud Hkey Hinv) as Hadd.
    destruct (Handlers.add_image_parameterized name level ud) as [ud' [state |]];
      cbn [fst] in *; [exact Hadd |].
    apply inv_with_current; [exact Hadd | intros x Ex; discriminate].
  - unfold Handlers.add_image_lut.
    pose proof (inv_add_image_parameterized "look-up table" path ud
                  ltac:(discriminate) Hinv) as Hadd.
    destruct (Handlers.add_image_parameterized "look-up table" path ud)
      as [ud' [state |]]; exact Hadd.
  - unfold Handlers.handle_post_max_image_effects_choice.
    destruct (Handlers.contains "Start Processing" choice);
      [now apply inv_process_image |].
    destruct (Handlers.contains "Reset Selection" choice); [| exact inv_cleared].
    apply inv_with_image_selected; [exact Hinv | apply good_nil].
  - unfold Handlers.handle_image_effects_confirmation.
    destruct (Handlers.contains "Yes" text).
    + destruct (Handlers.final_files_with_effects ud); [| exact Hinv].
      cbn [left_by]. now apply inv_with_final.
    + cbn [left_by]. unfold Handlers.ask_image_effects. cbn.
      apply inv_with_image_selected; [exact Hinv | apply good_nil].
  - exact inv_cleared.
Qed.

Lemma inv_after_events (run : Handlers.runner) (evs : list menu_event)
      (ud : Handlers.user_data) :
  menus_inv ud -> menus_inv (after_events run evs ud).
Proof.
  unfold after_events. revert ud. induction evs as [| ev evs IH]; intros ud Hinv;
    cbn [fold_left]; [exact Hinv |].
  apply IH. destruct ev; cbn [menu_handle];
    [now apply inv_video_handle | now apply inv_image_handle].
Qed.

(** X19. Whatever the user does in the two effects menus, in any order
    and from a fresh conversation, neither the video selection nor the
    image selection ever holds more than three effects, and neither
    ever holds an effect twice. *)
Theorem selections_stay_in_order (run : Handlers.runner) (evs : list menu_event) :
  let ud := after_events run evs Handlers.cleared in
  selection_ok (Handlers.get_list (Handlers.selected_effects ud))
  /\ selection_ok (Handlers.get_list (Handlers.selected_image_effects ud)).
Proof.
  cbv zeta.
  destruct (inv_after_events run evs Handlers.cleared inv_cleared) as (Hv & Hi & _).
  split; [exact (proj1 Hv) | exact (proj1 Hi)].
Qed.

(** ** From the image menu to the image engine *)

Lemma fits_ret {A : Type} (a : A) : fits (ret a).
Proof. intros g [msg H]. discriminate. Qed.

Lemma fits_bind {A B : Type} (m : M A) (k : A -> M B) :
  fits m -> (forall a, fits (k a)) -> fits (bind m k).
Proof.
  intros Hm Hk g [msg H]. unfold bind in H.
  destruct (m g) as [[a g'] | e] eqn:E.
  - apply (Hk a g'). exists msg. exact H.
  - apply (Hm g). exists msg. rewrite E. inversion H. reflexivity.
Qed.

Lemma fits_value_error {A : Type} (text : string) : fits (raise (A := A) (ValueError text)).
Proof. intros g [msg H]. discriminate. Qed.

Lemma fits_draw : fits Random.draw.
Proof. intros g [msg H]. discriminate. Qed.

Lemma fits_randint (a b : Z) : fits (Random.randint a b).
Proof.
  unfold Random.randint. destruct (b <? a); [apply fits_value_error |].
  apply fits_bind; [exact fits_draw | intros u; apply fits_ret].
Qed.

Lemma fits_np_randint (a b : Z) : fits (Random.np_randint a b).
Proof.
  unfold Random.np_randint. destruct (b <=? a); [apply fits_value_error |].
  apply fits_bind; [exact fits_draw | intros u; apply fits_ret].
Qed.

Lemma fits_mapM {A B : Type} (f : A -> M B) (l : list A) :
  (forall x, fits (f x)) -> fits (mapM f l).
Proof.
  intros Hf. induction l as [| x l IH]; cbn [mapM]; [apply fits_ret |].
  apply fits_bind; [apply Hf |]. intros y.
  apply fits_bind; [exact IH |]. intros ys. apply fits_ret.
Qed.

Lemma fits_repeatM {A : Type} (n : nat) (body : A -> M A) (a : A) :
  (forall x, fits (body x)) -> fits (ImageEffects.repeatM n body a).
Proof.
  intros Hb. revert a. induction n as [| n IH]; intros a; cbn [ImageEffects.repeatM];
    [apply fits_ret |].
  apply fits_bind; [apply Hb | exact IH].
Qed.

(** The parser and the interpolator raise ValueError only. *)
Lemma scan_from_value_error (I : Cube.interpreter) (lines : list Cube.str)
      (st : Z * list (list Cube.pyfloat)) (e : exn) :
  Cube.scan_from I st lines = Raise e -> exists text, e = ValueError text.
Proof.
  revert st. induction lines as [| raw lines IH]; intros st; cbn [Cube.scan_from];
    [discriminate |].
  destruct (Cube.scan_line I st raw) as [st' |e'] eqn:E; [apply IH |].
  intros H. inversion H; subst e'. clear H. revert E.
  unfold Cube.scan_line. cbv zeta.
  repeat match goal with
         | |- context [if ?b then _ else _] => destruct b
         | |- context [match ?o with Some _ => _ | None => _ end] => destruct o
         end;
    intros H; inversion H; eexists; reflexivity.
Qed.

Lemma parse_value_error (I : Cube.interpreter) (lines : list Cube.str) (e : exn) :
  Cube.parse_cube_file I lines = Raise e -> exists text, e = ValueError text.
Proof.
  unfold Cube.parse_cube_file, Cube.scan.
  destruct (Cube.scan_from I (0, []) lines) as [[size data] | e'] eqn:E.
  - destruct (_ || _)%bool; [intros H; inversion H; eexists; reflexivity |].
    unfold Cube.reshape.
    repeat match goal with
           | |- context [if ?b then _ else _] => destruct b
           end;
      intros H; inversion H; eexists; reflexivity.
  - intros H. inversion H; subst e'. eapply scan_from_value_error. exact E.
Qed.

Lemma fits_apply_lut (W : ImageEffects.world) (img : frame) (path : string) :
  fits (ImageEffects.apply_lut W img path).
Proof.
  intros g [msg H]. unfold ImageEffects.apply_lut in H.
  destruct (ImageEffects.read_lines W path) as [lines |]; [| discriminate].
  destruct (Cube.parse_cube_file (ImageEffects.python W) lines) as [t | e] eqn:E.
  - unfold Cube.apply_lut_to_frame in H.
    destruct (forallb _ img); [destruct (Cube.finite_table t) |]; discriminate.
  - apply parse_value_error in E. destruct E as [text ->]. discriminate.
Qed.

Lemma fits_glitch_attempt (p : Q) (fr : frame) : fits (ImageEffects.glitch_attempt p fr).
Proof.
  unfold ImageEffects.glitch_attempt. apply fits_bind; [exact fits_draw |].
  intros u. destruct (ImageEffects.glitch_triggers p u); [| apply fits_ret].
  unfold ImageEffects.glitch_once. cbv zeta.
  apply fits_bind; [apply fits_randint |]. intros y.
  apply fits_bind; [apply fits_randint |]. intros d. apply fits_ret.
Qed.

(** An effect that takes a level raises no TypeError at any level. *)
Lemma fits_apply_leveled (W : ImageEffects.world) (k : ImageEffects.effect_kind)
      (img : frame) (level : string) :
  ImageEffects.default_level k <> None ->
  fits (ImageEffects.apply_leveled W k img level).
Proof.
  intros Hk. destruct k; cbn [ImageEffects.default_level] in Hk; try contradiction;
    cbn [ImageEffects.apply_leveled]; try apply fits_ret.
  - unfold ImageEffects.apply_contrast_brightness. cbv zeta.
    unfold Pillow.mean_luma. cbv zeta.
    destruct (map Pillow.luma (concat img)); [| apply fits_ret].
    intros g [msg H]. discriminate.
  - unfold ImageEffects.apply_pixelated. cbv zeta.
    destruct (width img =? 0)%Z; [intros g [msg H]; discriminate |].
    unfold Pillow.resize_bilinear_checked.
    destruct (_ || _)%bool; [intros g [msg H]; discriminate |].
    unfold Pillow.resize_nearest.
    destruct (_ || _)%bool; [intros g [msg H]; discriminate | apply fits_ret].
  - unfold ImageEffects.apply_film_grain. cbv zeta.
    apply fits_mapM. intros row. apply fits_mapM. intros p.
    unfold ImageEffects.grain_pixel.
    repeat (apply fits_bind; [apply fits_np_randint | intros ?]). apply fits_ret.
  - unfold ImageEffects.apply_glitch. cbv zeta.
    apply fits_bind; [apply fits_randint |]. intros n.
    apply fits_repeatM. intros fr. apply fits_glitch_attempt.
  - unfold ImageEffects.apply_neon_glow, ImageEffects.neon_from_edges. cbv zeta.
    destruct (concat _); [apply fits_value_error | apply fits_ret].
  - unfold ImageEffects.apply_cartoon_painterly. cbv zeta.
    unfold Pillow.median_filter.
    destruct (_ || _)%bool; [apply fits_value_error | apply fits_ret].
Qed.

Lemma dict_lookup_In {V : Type} (d : list (string * V)) (k : string) (v : V) :
  Py.dict_lookup d k = Some v -> In (k, v) d.
Proof.
  induction d as [| [k' v'] d IH]; cbn [Py.dict_lookup In]; [discriminate |].
  destruct (String.eqb_spec k k') as [-> | _].
  - intros E. inversion E. now left.
  - intros E. right. now apply IH.
Qed.

(** One entry that fits the image menu raises no TypeError in a turn of
    the engine. *)
Lemma fits_step (W : ImageEffects.world) (img : frame) (e : Handlers.entry) :
  entry_fits Handlers.parameterized_image_effects e ->
  fits (ImageEffects.step W img (Handlers.to_chain e)).
Proof.
  destruct e as [name | name param]; cbn [entry_fits Handlers.to_chain ImageEffects.step];
    intros Hkey;
    (destruct (Py.dict_lookup ImageEffects.effects_map name) as [k |] eqn:Ek;
     [| apply fits_ret]);
    apply dict_lookup_In in Ek; unfold ImageEffects.effects_map in Ek; cbn [In] in Ek;
    repeat (destruct Ek as [Ek | Ek];
            [inversion Ek; subst name k; clear Ek;
             try (vm_compute in Hkey; congruence);
             cbn [ImageEffects.call ImageEffects.default_level];
             first [apply fits_ret | apply fits_apply_lut
                   | apply fits_apply_leveled; discriminate] |]);
    contradiction.
Qed.

Lemma fits_chain (W : ImageEffects.world) (l : list Handlers.entry) (img : frame) :
  Forall (entry_fits Handlers.parameterized_image_effects) l ->
  fits (ImageEffects.apply_effects_in_sequence W img (map Handlers.to_chain l)).
Proof.
  intros H. revert img. induction H as [| e l He _ IH]; intros img;
    cbn [map ImageEffects.apply_effects_in_sequence]; [apply fits_ret |].
  apply fits_bind; [now apply fits_step | exact IH].
Qed.

(** X20. A chain built through the image menu always fits the image
    engine: whatever the user does in the menus, from a fresh
    conversation, the engine run on the selection raises no TypeError,
    on any image, with any files and any draws. The menu gives a level
    to the effects that take one only, and the name alone for the two
    that take none. *)
Theorem image_menu_chain_fits_engine
        (run : Handlers.runner) (evs : list menu_event)
        (W : ImageEffects.world) (img : frame) (g : state) :
  let selection :=
    Handlers.get_list
      (Handlers.selected_image_effects (after_events run evs Handlers.cleared)) in
  ~ raises_type_error
      (ImageEffects.apply_effects_in_sequence W img (map Handlers.to_chain selection) g).
Proof.
  cbv zeta.
  destruct (inv_after_events run evs Handlers.cleared inv_cleared) as (_ & Hi & _).
  apply fits_chain. exact (proj2 Hi).
Qed.

(** ** The look-up table: the order of its axes *)

(** Inside the table an entry is read at its row-major position. *)
Lemma table_at_inside (t : Cube.lut_table) (i j k c : Z) :
  0 <= i -> 0 <= j -> 0 <= k ->
  Cube.table_at t i j k c
  = nth (Z.to_nat (((i * Cube.lut_size t + j) * Cube.lut_size t + k) * 3 + c))
        (Cube.lut_flat t) 0%Q.
Proof.
  intros Hi Hj Hk. unfold Cube.table_at. cbv zeta.
  destruct (Z.ltb_spec i 0); [lia |].
  destruct (Z.ltb_spec j 0); [lia |].
  destruct (Z.ltb_spec k 0); [lia |]. reflexivity.
Qed.

(** A table of size 1 has one node, which the interpolator reads through
    the index -1 of its single cell: at the origin, the only point within
    its bounds, it returns the stored triple. *)
Example size_one_table_returns_its_triple :
  Forall2 Qeq (interpolate_rgb (Cube.mkLut 1 [2 # 10; 5 # 10; 7 # 10]%Q) 0 0 0)
          [2 # 10; 5 # 10; 7 # 10]%Q.
Proof. repeat constructor. Qed.

Lemma identity_cube_at (n i j k : Z) :
  0 < n -> 0 <= i < n -> 0 <= j < n -> 0 <= k < n ->
  forall c, 0 <= c < 3 ->
  Cube.table_at (identity_cube n) i j k c
  = nth (Z.to_nat c) [Cube.grid_point n k; Cube.grid_point n j; Cube.grid_point n i] 0%Q.
Proof.
  intros Hn Hi Hj Hk c Hc. rewrite table_at_inside by lia.
  unfold identity_cube. cbn [Cube.lut_size Cube.lut_flat].
  set (idx := (i * n + j) * n + k).
  assert (Hidx : 0 <= idx < n * n * n) by (unfold idx; nia).
  replace (Z.to_nat (idx * 3 + c)) with (Z.to_nat idx * 3 + Z.to_nat c)%nat by lia.
  rewrite (nth_concat_uniform 3).
  2:{ apply Forall_map, Forall_forall. intros a _. reflexivity. }
  2:{ lia. }
  rewrite (nth_indep _ [] (identity_row n 0)) by (rewrite length_map, length_seq; lia).
  rewrite map_nth, seq_nth by lia. cbn [Nat.add].
  unfold identity_row. cbv zeta. rewrite Z2Nat.id by lia.
  assert (E1 : idx mod n = k).
  { unfold idx. rewrite Z.add_comm, Z.mod_add by lia. apply Z.mod_small. lia. }
  assert (E2 : idx / n = i * n + j).
  { unfold idx. rewrite Z.add_comm, Z.div_add by lia.
    rewrite Z.div_small by lia. lia. }
  assert (E3 : (idx / n) mod n = j).
  { rewrite E2, Z.add_comm, Z.mod_add by lia. apply Z.mod_small. lia. }
  assert (E4 : idx / (n * n) = i).
  { rewrite <- Z.div_div by lia. rewrite E2, Z.add_comm, Z.div_add by lia.
    rewrite Z.div_small by lia. lia. }
  now rewrite E1, E3, E4.
Qed.

(** Along one axis the two weights of a cell give the point back. *)
Lemma weights_give_point (n : Z) (x : Q) :
  2 <= n -> (0 <= x)%Q -> (x <= 1)%Q ->
  let i := Cube.find_index n x in
  let t := Cube.norm_distance n x in
  (Cube.grid_point n i * (1 - t) + Cube.grid_point n (i + 1) * t == x)%Q.
Proof.
  intros Hn H0 H1. cbv zeta. unfold Cube.norm_distance. cbv zeta.
  set (i := Cube.find_index n x).
  rewrite !(grid_point_eq n Hn). rewrite inject_Z_plus. change (inject_Z 1) with 1%Q.
  pose proof (span_pos n Hn) as Hs.
  set (s := inject_Z (n - 1)) in *.
  field. split; lra.
Qed.

(** X21. The look-up table reads its file with the axes in the opposite
    order of the .cube format. On the identity table written in the
    order of that format (red changing fastest), the interpolator
    returns at every point (x, y, z) of the unit cube the triple
    (z, y, x): the red and the blue of a pixel are exchanged. (The
    arithmetic of the model is exact.) *)
Theorem identity_cube_swaps_red_and_blue (n : Z) (x y z : Q) :
  2 <= n ->
  (0 <= x)%Q -> (x <= 1)%Q -> (0 <= y)%Q -> (y <= 1)%Q -> (0 <= z)%Q -> (z <= 1)%Q ->
  Forall2 Qeq (interpolate_rgb (identity_cube n) x y z) [z; y; x].
Proof.
  intros Hn Hx0 Hx1 Hy0 Hy1 Hz0 Hz1.
  destruct (norm_distance_range n Hn x Hx0 Hx1) as (_ & _ & Hi).
  destruct (norm_distance_range n Hn y Hy0 Hy1) as (_ & _ & Hj).
  destruct (norm_distance_range n Hn z Hz0 Hz1) as (_ & _ & Hk).
  pose proof (weights_give_point n x Hn Hx0 Hx1) as Wx.
  pose proof (weights_give_point n y Hn Hy0 Hy1) as Wy.
  pose proof (weights_give_point n z Hn Hz0 Hz1) as Wz.
  cbv zeta in Wx, Wy, Wz.
  unfold interpolate_rgb. cbn [map].
  unfold Cube.interpolate. cbn [Cube.lut_size identity_cube]. cbv zeta.
  set (i := Cube.find_index n x) in *.
  set (j := Cube.find_index n y) in *.
  set (k := Cube.find_index n z) in *.
  set (tx := Cube.norm_distance n x) in *.
  set (ty := Cube.norm_distance n y) in *.
  set (tz := Cube.norm_distance n z) in *.
  cbv beta iota.
  fold (identity_cube n).
  rewrite !identity_cube_at by lia.
  change (Z.to_nat 0) with 0%nat. change (Z.to_nat 1) with 1%nat.
  change (Z.to_nat 2) with 2%nat. cbn [nth].
  set (gi := Cube.grid_point n i) in *. set (gi' := Cube.grid_point n (i + 1)) in *.
  set (gj := Cube.grid_point n j) in *. set (gj' := Cube.grid_point n (j + 1)) in *.
  set (gk := Cube.grid_point n k) in *. set (gk' := Cube.grid_point n (k + 1)) in *.
  clearbody i j k tx ty tz gi gi' gj gj' gk gk'.
  repeat constructor.
  - rewrite <- Wz. ring.
  - rewrite <- Wy. ring.
  - rewrite <- Wx. ring.
Qed.

(** The theorem for the table of size 2 at the point of pure blue: the
    interpolator returns pure red. *)
Lemma identity_cube_swaps_red_and_blue_witness :
  Forall2 Qeq (interpolate_rgb (identity_cube 2) 0 0 1) [1; 0; 0]%Q.
Proof.
  apply (identity_cube_swaps_red_and_blue 2 0 0 1); try lia; discriminate.
Defined.

(** ** Rotate *)

Lemma rotate_90_pixel (img : frame) (h w y x : nat) :
  has_shape h w img -> (0 < h)%nat -> (y < w)%nat -> (x < h)%nat ->
  pixel_at (Pillow.transpose_rotate_90 img) y x = pixel_at img x (w - 1 - y).
Proof.
  intros Hs Hh Hy Hx. destruct (width_of_shape h w img Hs Hh) as [Ew _].
  destruct Hs as [Hlen _].
  unfold pixel_at, Pillow.transpose_rotate_90. cbv zeta. rewrite Ew, Nat2Z.id.
  set (F := fun yo : nat => map (fun row : list pixel => nth (w - 1 - yo) row black) img).
  rewrite (nth_indep _ [] (F 0%nat)) by (rewrite length_map, length_seq; lia).
  rewrite map_nth, seq_nth by lia. cbn [Nat.add]. unfold F.
  set (G := fun row : list pixel => nth (w - 1 - y) row black).
  rewrite (nth_indep _ black (G [])) by (rewrite length_map; lia).
  now rewrite map_nth.
Qed.

(** Two frames of one shape with the same pixels are the same frame. *)
Lemma frame_ext (a b : frame) (h w : nat) :
  has_shape h w a -> has_shape h w b ->
  (forall y x, (y < h)%nat -> (x < w)%nat -> pixel_at a y x = pixel_at b y x) ->
  a = b.
Proof.
  intros Ha Hb Hpx.
  apply (nth_ext a b [] []); [destruct Ha, Hb; congruence |].
  intros y Hy. destruct Ha as [Hla Hwa]. rewrite Hla in Hy.
  pose proof (shape_row h w a y (conj Hla Hwa) Hy) as Ra.
  pose proof (shape_row h w b y Hb Hy) as Rb.
  apply (nth_ext _ _ black black); [congruence |].
  intros x Hx. rewrite Ra in Hx. now apply Hpx.
Qed.

Lemma rotate_high_is_quarter_turn (W : ImageEffects.world) (img : frame) :
  ImageEffects.apply_rotate W img "high" = Pillow.transpose_rotate_90 img.
Proof.
  unfold ImageEffects.apply_rotate.
  change (ImageEffects.rotate_angle "high") with 90.
  unfold Pillow.rotate. change (90 mod 360) with 90. reflexivity.
Qed.

(** X22. Rotate at the level high is a quarter turn: applied four times
    to an image with a pixel at least it gives the image back, pixel for
    pixel. *)
Theorem rotate_high_four_times (W : ImageEffects.world) (img : frame) (h w : nat) :
  has_shape h w img -> (0 < h)%nat -> (0 < w)%nat ->
  let turn := fun f => ImageEffects.apply_rotate W f "high" in
  turn (turn (turn (turn img))) = img.
Proof.
  intros Hs Hh Hw turn. unfold turn. rewrite !rotate_high_is_quarter_turn.
  set (r1 := Pillow.transpose_rotate_90 img).
  set (r2 := Pillow.transpose_rotate_90 r1).
  set (r3 := Pillow.transpose_rotate_90 r2).
  assert (S1 : has_shape w h r1) by now apply shape_transpose_rotate_90.
  assert (S2 : has_shape h w r2) by now apply shape_transpose_rotate_90.
  assert (S3 : has_shape w h r3) by now apply shape_transpose_rotate_90.
  apply (frame_ext _ _ h w); [now apply shape_transpose_rotate_90 | exact Hs |].
  intros y x Hy Hx.
  rewrite (rotate_90_pixel r3 w h y x S3) by lia.
  unfold r3. rewrite (rotate_90_pixel r2 h w x (h - 1 - y) S2) by lia.
  unfold r2. rewrite (rotate_90_pixel r1 w h (h - 1 - y) (w - 1 - x) S1) by lia.
  unfold r1. rewrite (rotate_90_pixel img h w (w - 1 - x) (h - 1 - (h - 1 - y)) Hs) by lia.
  f_equal; lia.
Qed.

(** The theorem on the five-pixel frame. *)
Lemma rotate_high_four_times_witness :
  let turn := fun f => ImageEffects.apply_rotate plain_world f "high" in
  turn (turn (turn (turn five_frame))) = five_frame.
Proof.
  apply (rotate_high_four_times plain_world five_frame 1 5); try lia.
  split; [reflexivity | repeat constructor].
Defined.

(** ** Colour saturation in the video engine *)

Lemma colorx_value_brightens (factor : Q) (v : Z) :
  ((13 # 10) <= factor)%Q -> uint8 v ->
  v <= VideoFrames.colorx_value factor v
  /\ uint8 (VideoFrames.colorx_value factor v)
  /\ (4 <= v < 255 -> v < VideoFrames.colorx_value factor v).
Proof.
  intros Hf [H0 H1]. unfold VideoFrames.colorx_value. cbv zeta.
  assert (HV0 : (0 <= inject_Z v)%Q) by (rewrite Zle_Qle in H0; exact H0).
  assert (Hx : (inject_Z v <= factor * inject_Z v)%Q).
  { assert (P : (0 <= (factor - 1) * inject_Z v)%Q) by (apply Qmult_le_0_compat; lra).
    lra. }
  destruct (Py.Qltb 255 (factor * inject_Z v)) eqn:B.
  - change (Py.float_astype_uint8 255) with 255. unfold uint8. lia.
  - assert (Hle : (factor * inject_Z v <= 255)%Q).
    { destruct (Qlt_le_dec 255 (factor * inject_Z v)) as [L | L]; [| exact L].
      apply Qltb_true in L. congruence. }
    destruct (cast_in_range (factor * inject_Z v) ltac:(split; lra)) as [E Hu].
    rewrite E. split; [| split; [exact Hu |]].
    + apply Qfloor_resp_le in Hx. now rewrite Qfloor_Z in Hx.
    + intros [H4 _].
      assert (H4' : (4 <= inject_Z v)%Q) by (rewrite Zle_Qle in H4; exact H4).
      assert (Hx1 : (inject_Z (v + 1) <= factor * inject_Z v)%Q).
      { rewrite inject_Z_plus. change (inject_Z 1) with 1%Q.
        assert (P : (0 <= (factor - (13 # 10)) * inject_Z v)%Q)
          by (apply Qmult_le_0_compat; lra).
        lra. }
      apply Qfloor_resp_le in Hx1. rewrite Qfloor_Z in Hx1. lia.
Qed.

Lemma video_saturation_factor (level : string) :
  ((13 # 10) <= VideoEffects.level_param VideoEffects.ColorSaturation level)%Q.
Proof.
  cbn. unfold Py.dict_get. cbn.
  destruct (String.eqb level "low"); [discriminate |].
  destruct (String.eqb level "medium"); [discriminate |].
  destruct (String.eqb level "high"); discriminate.
Qed.

(** X23. Colour saturation in the video engine is a gain, not a change
    of saturation: on a frame of 8-bit pixels no channel of the result
    is below its input, every channel stays an 8-bit value, a value
    from 4 to 254 grows, and a pixel without colour stays without
    colour, where the image engine leaves such a pixel as it is. *)
Theorem video_saturation_is_a_gain (level : string) (fr : frame) (h w y x : nat) :
  has_shape h w fr -> uint8_frame fr -> (y < h)%nat -> (x < w)%nat ->
  let p := pixel_at fr y x in
  let q := pixel_at (VideoFrames.color_saturation_frame level fr) y x in
  channelwise (fun v out => v <= out /\ uint8 out /\ (4 <= v < 255 -> v < out)) p q
  /\ (gray_pixel p -> gray_pixel q).
Proof.
  intros Hs Hu Hy Hx. cbv zeta.
  unfold VideoFrames.color_saturation_frame, VideoFrames.colorx.
  rewrite (pixel_at_map_pixels _ _ h w) by assumption.
  destruct (uint8_pixel_at fr h w y x Hs Hu Hy Hx) as (Hr & Hg & Hb).
  pose proof (video_saturation_factor level) as Hf.
  split.
  - unfold channelwise. cbn [red green blue].
    repeat split; apply colorx_value_brightens; assumption.
  - intros [E1 E2]. unfold gray_pixel. cbn [red green blue].
    now rewrite E1, E2.
Qed.

(** The theorem on a pixel of the dark frame. *)
Lemma video_saturation_is_a_gain_witness :
  let p := pixel_at dark_frame 0 1 in
  let q := pixel_at (VideoFrames.color_saturation_frame "high" dark_frame) 0 1 in
  channelwise (fun v out => v <= out /\ uint8 out /\ (4 <= v < 255 -> v < out)) p q
  /\ (gray_pixel p -> gray_pixel q).
Proof.
  apply (video_saturation_is_a_gain "high" dark_frame 2 2 0 1); try lia.
  - split; [reflexivity | repeat constructor].
  - repeat constructor; cbn; lia.
Defined.

(** ** The video menu: what a click removes *)

Lemma filter_none_matched {A : Type} (p : A -> bool) (l : list A) :
  existsb p l = false -> filter (fun e => negb (p e)) l = l.
Proof.
  induction l as [| e l IH]; cbn [existsb filter]; [reflexivity |].
  intros H. apply orb_false_iff in H. destruct H as [He Hl].
  rewrite He. cbn [negb]. now rewrite IH.
Qed.

Lemma not_parameterized_not_lut (choice : string) :
  Py.dict_lookup Handlers.parameterized_effects choice = None ->
  String.eqb choice "look-up table" = false.
Proof.
  unfold Handlers.parameterized_effects. cbn [Py.dict_lookup].
  destruct (String.eqb choice "look-up table"); [discriminate | reflexivity].
Qed.

(** X24. In the video menu a second click on an effect that takes no
    argument undoes the first. When the effect is not selected and the
    selection holds fewer than two effects, the first click appends the
    effect and returns to the menu (state [CHOOSE_EFFECTS], from which
    any text is routed to [choose_effects] again), and the second click
    removes it and returns to the menu: the selection is as it was. (A
    click that fills the selection to three leaves the menu for the state
    [POST_MAX_VIDEO_EFFECTS_CHOICE], in which the effect buttons are not
    routed, so there is no second click on it.) *)
Theorem second_click_removes_effect (choice : string) (ud : Handlers.user_data) :
  let selected := Handlers.get_list (Handlers.selected_effects ud) in
  let first := Handlers.choose_effects choice ud in
  let second := Handlers.choose_effects choice (fst first) in
  String.eqb choice Handlers.cancel_text = false ->
  String.eqb choice Handlers.reset_text = false ->
  Handlers.contains "Done" choice = false ->
  Py.dict_lookup Handlers.parameterized_effects choice = None ->
  existsb (Handlers.matches choice) selected = false ->
  (length selected < 2)%nat ->
  snd first = Handlers.CHOOSE_EFFECTS
  /\ Handlers.get_list (Handlers.selected_effects (fst first))
     = selected ++ [Handlers.Plain choice]
  /\ snd second = Handlers.CHOOSE_EFFECTS
  /\ Handlers.get_list (Handlers.selected_effects (fst second)) = selected.
Proof.
  intros selected first second Hc Hr Hd Hk Hm Hroom.
  pose proof (not_parameterized_not_lut choice Hk) as Hlut.
  assert (E1 : first
               = Handlers._return_to_effects_menu
                   (Handlers.with_selected ud (selected ++ [Handlers.Plain choice]))).
  { unfold first, Handlers.choose_effects. rewrite Hc, Hr. cbv zeta. rewrite Hd, Hlut.
    cbn [andb]. rewrite Hk. fold selected. rewrite Hm.
    assert (H3 : (length selected <? 3)%nat = true) by (apply Nat.ltb_lt; lia).
    rewrite H3.
    assert (Hn : (length (selected ++ [Handlers.Plain choice]) =? 3)%nat = false).
    { apply Nat.eqb_neq. rewrite length_app. cbn [length]. lia. }
    now rewrite Hn. }
  split; [now rewrite E1 |]. split; [now rewrite E1 |].
  unfold second. rewrite E1.
  cbn [fst Handlers._return_to_effects_menu].
  unfold Handlers.choose_effects. rewrite Hc, Hr. cbv zeta. rewrite Hd, Hlut.
  cbn [andb]. rewrite Hk.
  cbn [Handlers.with_selected Handlers.selected_effects Handlers.get_list].
  assert (Hm' : existsb (Handlers.matches choice) (selected ++ [Handlers.Plain choice])
                = true).
  { rewrite existsb_app. cbn [existsb]. rewrite matches_name. cbn [Handlers.entry_name].
    rewrite String.eqb_refl. now rewrite orb_true_r. }
  rewrite Hm'. cbn [fst snd Handlers._return_to_effects_menu Handlers.with_selected
                    Handlers.selected_effects Handlers.get_list].
  split; [reflexivity |].
  rewrite filter_app, filter_none_matched by exact Hm.
  cbn [filter]. rewrite matches_name. cbn [Handlers.entry_name].
  rewrite String.eqb_refl. cbn [negb]. apply app_nil_r.
Qed.

(** The theorem on Black & White with one effect selected. *)
Lemma second_click_removes_effect_witness :
  let ud := Handlers.with_selected Handlers.cleared [Handlers.Plain "Invert Colors"] in
  let first := Handlers.choose_effects "Black & White" ud in
  let second := Handlers.choose_effects "Black & White" (fst first) in
  snd first = Handlers.CHOOSE_EFFECTS
  /\ Handlers.get_list (Handlers.selected_effects (fst first))
     = [Handlers.Plain "Invert Colors"] ++ [Handlers.Plain "Black & White"]
  /\ snd second = Handlers.CHOOSE_EFFECTS
  /\ Handlers.get_list (Handlers.selected_effects (fst second))
     = [Handlers.Plain "Invert Colors"].
Proof.
  apply (second_click_removes_effect "Black & White"
           (Handlers.with_selected Handlers.cleared [Handlers.Plain "Invert Colors"]));
    try reflexivity.
  cbn. lia.
Defined.

(** With two effects selected the click fills the selection and leaves
    the menu. *)
Example third_effect_leaves_menu :
  snd (Handlers.choose_effects "Black & White"
         (Handlers.with_selected Handlers.cleared
            [Handlers.Plain "Invert Colors"; Handlers.Plain "VHS Look"]))
  = Handlers.POST_MAX_VIDEO_EFFECTS_CHOICE.
Proof. reflexivity. Qed.

(** ** The video menu: an effect with a level stays *)

Lemma has_pair_filter (name : string) (keep : Handlers.entry -> bool)
      (l : list Handlers.entry) :
  (forall e, Handlers.is_tuple_named name e = true -> keep e = true) ->
  existsb (Handlers.is_tuple_named name) l = true ->
  existsb (Handlers.is_tuple_named name) (filter keep l) = true.
Proof.
  intros Hkeep H. apply existsb_exists in H. destruct H as (e & Hin & He).
  apply existsb_exists. exists e. split; [| exact He].
  apply filter_In. split; [exact Hin | now apply Hkeep].
Qed.

Lemma filter_drops_one {A : Type} (p : A -> bool) (l : list A) :
  existsb p l = true -> (length (filter (fun e => negb (p e)) l) < length l)%nat.
Proof.
  induction l as [| e l IH]; cbn [existsb filter length]; [discriminate |].
  destruct (p e) eqn:E; cbn [negb orb length].
  - intros _. pose proof (filter_length_le (fun e0 => negb (p e0)) l). lia.
  - intros H. specialize (IH H). lia.
Qed.

Lemma tuple_named_two (a b : string) (e : Handlers.entry) :
  a <> b -> Handlers.is_tuple_named a e = true -> Handlers.is_tuple_named b e = false.
Proof.
  intros Hab. destruct e as [n | n p]; cbn; [discriminate |].
  intros H. apply String.eqb_eq in H. subst n. now apply String.eqb_neq.
Qed.

Lemma has_pair_add_parameterized (n param name : string) (ud : Handlers.user_data) :
  menus_inv ud -> has_pair name ud = true ->
  has_pair name (fst (Handlers.add_parameterized n param ud)) = true.
Proof.
  intros Hinv Hp. unfold has_pair in *. unfold Handlers.add_parameterized. cbv zeta.
  set (l := Handlers.get_list (Handlers.selected_effects ud)) in *.
  destruct (inv_video_selection ud Hinv) as [[Hlen _] _]. fold l in Hlen.
  set (l' := filter (fun e => negb (Handlers.is_tuple_named n e)) l).
  assert (Hadd : existsb (Handlers.is_tuple_named name)
                         (l' ++ [Handlers.WithParam n param]) = true).
  { rewrite existsb_app. destruct (String.eqb_spec n name) as [-> | Hne].
    - cbn [existsb Handlers.is_tuple_named]. rewrite String.eqb_refl.
      now rewrite orb_true_r.
    - assert (H : existsb (Handlers.is_tuple_named name) l' = true).
      { apply has_pair_filter; [| exact Hp].
        intros e He. apply negb_true_iff.
        apply (tuple_named_two name n); [congruence | exact He]. }
      now rewrite H. }
  destruct (length l' <? 3)%nat eqn:El.
  - destruct (length (l' ++ [Handlers.WithParam n param]) =? 3)%nat; exact Hadd.
  - cbn [fst Handlers._return_to_effects_menu]. fold l.
    destruct (String.eqb_spec n name) as [-> | Hne]; [| exact Hp].
    apply Nat.ltb_ge in El.
    pose proof (filter_drops_one (Handlers.is_tuple_named name) l Hp) as Hd.
    fold l' in Hd. lia.
Qed.

Lemma has_pair_choose (choice name : string) (ud : Handlers.user_data) :
  Py.dict_lookup Handlers.parameterized_effects name <> None ->
  name <> "look-up table"%string ->
  String.eqb choice Handlers.cancel_text = false ->
  String.eqb choice Handlers.reset_text = false ->
  has_pair name ud = true ->
  has_pair name (fst (Handlers.choose_effects choice ud)) = true.
Proof.
  intros Hkey Hlut Hc Hr Hp. unfold has_pair in *.
  unfold Handlers.choose_effects. rewrite Hc, Hr. cbv zeta.
  set (l := Handlers.get_list (Handlers.selected_effects ud)) in *.
  destruct (Handlers.contains "Done" choice);
    [destruct (Handlers.is_empty l); exact Hp |].
  set (ud1 := if (String.eqb choice "look-up table" && existsb _ l)%bool then _ else ud).
  assert (H1 : existsb (Handlers.is_tuple_named name)
                 (Handlers.get_list (Handlers.selected_effects ud1)) = true).
  { unfold ud1. destruct (_ && _)%bool; [| exact Hp].
    cbn [Handlers.with_selected Handlers.selected_effects Handlers.get_list].
    apply has_pair_filter; [| exact Hp].
    intros e He. apply negb_true_iff.
    now apply (tuple_named_two name "look-up table"). }
  destruct (Py.dict_lookup Handlers.parameterized_effects choice) eqn:Ek; [exact H1 |].
  assert (Hne : name <> choice) by (intros ->; contradiction).
  destruct (existsb (Handlers.matches choice) l).
  { cbn [fst Handlers._return_to_effects_menu Handlers.with_selected
         Handlers.selected_effects Handlers.get_list].
    apply has_pair_filter; [| exact Hp].
    intros e He. apply negb_true_iff. rewrite matches_name.
    destruct e as [n | n p]; cbn in He; [discriminate |].
    apply String.eqb_eq in He. subst n. cbn [Handlers.entry_name].
    now apply String.eqb_neq. }
  destruct (length l <? 3)%nat; [| exact H1].
  assert (Happ : existsb (Handlers.is_tuple_named name) (l ++ [Handlers.Plain choice])
                 = true) by (rewrite existsb_app, Hp; reflexivity).
  destruct (length (l ++ [Handlers.Plain choice]) =? 3)%nat; exact Happ.
Qed.

Lemma has_pair_video_handle (run : Handlers.runner) (ud : Handlers.user_data)
      (ev : video_event) (name : string) :
  Py.dict_lookup Handlers.parameterized_effects name <> None ->
  name <> "look-up table"%string ->
  menus_inv ud -> keeps_selection ev = true -> has_pair name ud = true ->
  has_pair name (video_handle run ud ev) = true.
Proof.
  intros Hkey Hlut Hinv Hev Hp.
  destruct ev as [| choice | s choice | path | choice | choice | text |];
    cbn [keeps_selection] in Hev; try discriminate; cbn [video_handle].
  - unfold Handlers.ask_video_effects. unfold has_pair in *.
    destruct (Handlers.selected_effects ud) eqn:Es; [| discriminate].
    cbn [fst Handlers._return_to_effects_menu]. now rewrite Es.
  - apply andb_true_iff in Hev. destruct Hev as [Hc Hr].
    apply negb_true_iff in Hc, Hr. now apply has_pair_choose.
  - destruct s; cbn [setter_handler];
      cbv beta delta [Handlers.set_contrast_level Handlers.set_saturation_level
                      Handlers.set_aberration_level Handlers.set_pixelate_level
                      Handlers.set_speed_level Handlers.set_rotate_option
                      Handlers.set_grain_level Handlers.set_glitch_level
                      Handlers.set_shutter_level Handlers.set_neon_level
                      Handlers.set_cartoon_level Handlers.set_vignette_level
                      Handlers.set_fade_duration Handlers.set_kenburns_level
                      Handlers.create_level_setter];
      cbv zeta; now apply has_pair_add_parameterized.
  - unfold Handlers.add_lut. now apply has_pair_add_parameterized.
  - unfold Handlers.handle_render_quality, Handlers.process_and_confirm_effects.
    cbv zeta. destruct (Handlers.final_files ud); exact Hp.
Qed.

(** X25. In the video menu an effect that was given a level cannot be
    taken out again by a click: once the selection holds a pair for an
    effect other than the look-up table, it holds one after every run of
    choices, level replies and added tables, short of a reset or a
    cancellation. A click on its name only asks for the level again. *)
Theorem levelled_effect_stays_selected
        (run : Handlers.runner) (before : list menu_event) (evs : list video_event)
        (name : string) :
  let ud := after_events run before Handlers.cleared in
  Py.dict_lookup Handlers.parameterized_effects name <> None ->
  name <> "look-up table"%string ->
  has_pair name ud = true ->
  forallb keeps_selection evs = true ->
  has_pair name (after_video_events run evs ud) = true.
Proof.
  intros ud Hkey Hlut Hp Hevs.
  assert (Hinv : menus_inv ud) by (apply inv_after_events, inv_cleared).
  clearbody ud. unfold after_video_events.
  revert ud Hp Hinv. induction evs as [| ev evs IH]; intros ud Hp Hinv;
    cbn [fold_left]; [exact Hp |].
  cbn [forallb] in Hevs. apply andb_true_iff in Hevs. destruct Hevs as [Hev Hevs].
  apply IH; [exact Hevs | | now apply inv_video_handle].
  now apply has_pair_video_handle.
Qed.

(** The theorem on Glitch: given a level, then clicked again and Black &
    White chosen. *)
Lemma levelled_effect_stays_selected_witness :
  has_pair "Glitch"
    (after_video_events (fun _ _ _ _ => None)
       [VChoose "Glitch"; VChoose "Black & White"]
       (after_events (fun _ _ _ _ => None)
          [OfVideo VAsk; OfVideo (VSetLevel ForGlitch "High")] Handlers.cleared))
  = true.
Proof.
  apply (levelled_effect_stays_selected (fun _ _ _ _ => None)
           [OfVideo VAsk; OfVideo (VSetLevel ForGlitch "High")]
           [VChoose "Glitch"; VChoose "Black & White"] "Glitch");
    try reflexivity; try discriminate.
Defined.

(** ** Invert and chromatic aberration *)

Lemma pixel_from_channels (f : frame) (y x : nat) :
  (y < length f)%nat ->
  pixel_at f y x
  = mkPixel (value_at (channel red f) y x) (value_at (channel green f) y x)
            (value_at (channel blue f) y x).
Proof.
  intros Hy. unfold channel. rewrite !value_at_rows by exact Hy.
  unfold pixel_at.
  change 0 with (red black) at 1. rewrite map_nth.
  change 0 with (green black) at 1. rewrite map_nth.
  change 0 with (blue black) at 1. rewrite map_nth.
  now destruct (nth x (nth y f []) black).
Qed.

(** A pixel of the aberration: its red from [shift] columns to the
    right, its blue from [shift] columns to the left, around the edges. *)
Lemma aberration_pixel (img : frame) (level : string) (h w y x : nat) :
  has_shape h w img -> uint8_frame img -> (y < h)%nat -> (x < w)%nat ->
  let s := ImageEffects.aberration_shift level in
  pixel_at (ImageEffects.apply_chromatic_aberration img level) y x
  = mkPixel (red (pixel_at img y (Z.to_nat ((Z.of_nat x + s) mod Z.of_nat w))))
            (green (pixel_at img y x))
            (blue (pixel_at img y (Z.to_nat ((Z.of_nat x - s) mod Z.of_nat w)))).
Proof.
  intros Hs Hu Hy Hx s.
  pose proof (shape_chromatic_aberration img level h w Hs) as Hout.
  pose proof (shape_row h w img y Hs Hy) as Hlen.
  pose proof (uint8_frame_row img y Hu) as Hrow.
  assert (Hyl : (y < length img)%nat) by (destruct Hs; lia).
  rewrite pixel_from_channels by (destruct Hout; lia).
  destruct (aberration_channels img level) as (Hr & Hg & Hb). fold s in Hr, Hb.
  rewrite Hr, Hg, Hb. rewrite !value_at_rows by exact Hyl.
  rewrite !nth_map_astype.
  2:{ apply Forall_roll. apply uint8_row_channel; [| exact Hrow]. now intros p (_ & _ & H). }
  2:{ apply uint8_row_channel; [| exact Hrow]. now intros p (_ & H & _). }
  2:{ apply Forall_roll. apply uint8_row_channel; [| exact Hrow]. now intros p (H & _). }
  rewrite !roll_nth by (rewrite length_map; lia).
  rewrite !length_map, Hlen.
  replace (Z.of_nat x - - s) with (Z.of_nat x + s) by lia.
  unfold pixel_at.
  change 0 with (red black) at 1. rewrite map_nth.
  change 0 with (green black) at 1. rewrite map_nth.
  change 0 with (blue black) at 1. rewrite map_nth.
  reflexivity.
Qed.

Lemma invert_pixel_at (img : frame) (h w y x : nat) :
  has_shape h w img -> uint8_frame img -> (y < h)%nat -> (x < w)%nat ->
  pixel_at (ImageEffects.apply_invert_colors img) y x = invert_pixel (pixel_at img y x).
Proof.
  intros Hs Hu Hy Hx. unfold ImageEffects.apply_invert_colors, Pillow.invert.
  rewrite (pixel_at_map_pixels _ _ h w) by assumption.
  apply point_invert. now apply (uint8_pixel_at img h w).
Qed.

Lemma uint8_invert (img : frame) :
  uint8_frame img -> uint8_frame (ImageEffects.apply_invert_colors img).
Proof.
  intros Hu. unfold ImageEffects.apply_invert_colors, Pillow.invert.
  rewrite (map_pixels_ext_on uint8_pixel _ invert_pixel img point_invert Hu).
  apply uint8_frame_map; [apply invert_pixel_uint8 | exact Hu].
Qed.

Lemma uint8_aberration (img : frame) (level : string) (h w : nat) :
  has_shape h w img -> uint8_frame img ->
  uint8_frame (ImageEffects.apply_chromatic_aberration img level).
Proof.
  intros Hs Hu.
  pose proof (shape_chromatic_aberration img level h w Hs) as Hout.
  unfold uint8_frame. apply Forall_forall. intros row Hrow.
  apply Forall_forall. intros p Hp.
  destruct (In_nth _ _ [] Hrow) as (y & Hy & Ey).
  subst row. destruct (In_nth _ _ black Hp) as (x & Hx & Ex).
  destruct Hout as [Hlen Hw].
  assert (Hyh : (y < h)%nat) by lia.
  rewrite (shape_row h w _ y (conj Hlen Hw) Hyh) in Hx.
  change (nth x (nth y (ImageEffects.apply_chromatic_aberration img level) []) black)
    with (pixel_at (ImageEffects.apply_chromatic_aberration img level) y x) in Ex.
  rewrite (aberration_pixel img level h w y x Hs Hu Hyh Hx) in Ex. subst p.
  assert (Hm : forall k, (0 < w)%nat ->
             (Z.to_nat (k mod Z.of_nat w) < w)%nat).
  { intros k Hpos. pose proof (Z.mod_pos_bound k (Z.of_nat w) ltac:(lia)). lia. }
  repeat split; cbn [red green blue];
    apply (uint8_pixel_at img h w); try assumption; apply Hm; lia.
Qed.

(** X26. Invert Colors and Chromatic Aberration commute: on an image of
    8-bit pixels the two effects give the same image in either order, at
    every level. *)
Theorem invert_commutes_with_aberration (img : frame) (level : string) (h w : nat) :
  has_shape h w img -> uint8_frame img ->
  ImageEffects.apply_invert_colors (ImageEffects.apply_chromatic_aberration img level)
  = ImageEffects.apply_chromatic_aberration (ImageEffects.apply_invert_colors img) level.
Proof.
  intros Hs Hu.
  pose proof (shape_chromatic_aberration img level h w Hs) as Sa.
  pose proof (uint8_aberration img level h w Hs Hu) as Ua.
  assert (Si : has_shape h w (ImageEffects.apply_invert_colors img))
    by now apply has_shape_map_pixels.
  pose proof (uint8_invert img Hu) as Ui.
  apply (frame_ext _ _ h w);
    [now apply has_shape_map_pixels | now apply shape_chromatic_aberration |].
  intros y x Hy Hx.
  assert (Hm : forall k, (Z.to_nat (k mod Z.of_nat w) < w)%nat).
  { intros k. pose proof (Z.mod_pos_bound k (Z.of_nat w) ltac:(lia)). lia. }
  rewrite (invert_pixel_at _ h w) by assumption.
  rewrite (aberration_pixel img level h w) by assumption.
  rewrite (aberration_pixel _ level h w) by assumption.
  cbv zeta. rewrite !(invert_pixel_at img h w) by (try assumption; apply Hm).
  reflexivity.
Qed.

(** The theorem on the one-row ramp. *)
Lemma invert_commutes_with_aberration_witness :
  ImageEffects.apply_invert_colors (ImageEffects.apply_chromatic_aberration ramp_frame "low")
  = ImageEffects.apply_chromatic_aberration (ImageEffects.apply_invert_colors ramp_frame) "low".
Proof.
  apply (invert_commutes_with_aberration ramp_frame "low" 1 4).
  - split; [reflexivity | repeat constructor].
  - repeat constructor; cbn; lia.
Defined.

(** ** The shape of a frame through the effects of both engines *)

Lemma returns_drawM {A : Type} (n : nat) (draw : M A) :
  returns draw (fun _ => True) ->
  returns (VideoFrames.drawM n draw) (fun _ => True).
Proof.
  intros Hd. induction n as [| n IH]; cbn [VideoFrames.drawM].
  - now apply returns_ret.
  - eapply returns_bind; [exact Hd |]. intros x _.
    eapply returns_bind; [exact IH |]. intros xs _. now apply returns_ret.
Qed.

Lemma shape_vhs_effect (fr : frame) (h w : nat) :
  has_shape h w fr -> (0 < h)%nat ->
  returns (VideoFrames.vhs_effect fr) (has_shape h w).
Proof.
  intros H Hh. unfold VideoFrames.vhs_effect. cbv zeta.
  destruct H as [Hlen Hrows]. unfold height. rewrite Hlen.
  eapply returns_bind.
  - apply returns_drawM. apply returns_np_randint. lia.
  - intros lines _. apply returns_ret.
    apply shape_shift_blue, shape_darken_lines. now split.
Qed.

Lemma shape_vhs_look (fr : frame) (h w : nat) :
  has_shape h w fr -> (0 < h)%nat ->
  returns (VideoFrames.vhs_look_frame fr) (has_shape h w).
Proof.
  intros H Hh. unfold VideoFrames.vhs_look_frame.
  eapply returns_bind.
  - apply shape_vhs_effect; [| exact Hh].
    unfold VideoFrames.colorx. apply has_shape_map_pixels. exact H.
  - intros fr1 H1. unfold VideoEffects.glitch_frame. cbv zeta.
    now apply shape_glitch_attempt.
Qed.

Lemma shape_rolling_shutter (K : VideoFrames.kernels) (level : string) (freq t : Q)
      (fr : frame) (h w : nat) :
  has_shape h w fr ->
  has_shape h w (VideoFrames.rolling_shutter_frame K level freq t fr).
Proof.
  unfold VideoFrames.rolling_shutter_frame. cbv zeta.
  apply has_shape_imap. intros y row. apply imap_length.
Qed.

(** C4, as the code has it. On every frame of [h >= 1] rows and [w >= 1]
    columns and at every level string, each effect of the image engine
    other than Rotate returns a frame of [h] rows and [w] columns (of
    three-channel pixels, as every frame): the effects that take a level,
    Pixelated provided [w <= pixel_size * h] (else its intermediate image
    has no row and the resize raises); Black & White and Invert; the
    look-up table, on a uint8 frame, whenever its file is there and
    parses to an array of size at least 2. Rotate expands the canvas
    instead: at 90 degrees (level high, its default) the result has [w]
    rows and [h] columns. So does every per-frame function the video
    engine defines: chromatic aberration, film grain, glitch, rolling
    shutter, neon glow, cartoon, vignette and the VHS look at every
    level, frequency and time; Ken Burns at every time from the start of
    a clip of positive duration; the colour gain of the saturation; and
    the look-up table under the conditions of the image engine. *)
Theorem effects_keep_shape_except_rotate
  (W : ImageEffects.world) (K : VideoFrames.kernels) (img : frame) (h w : nat) :
  has_shape h w img -> (0 < h)%nat -> (0 < w)%nat ->
  (forall (k : ImageEffects.effect_kind) (level : string),
     ImageEffects.default_level k <> None ->
     k <> ImageEffects.Rotate ->
     (k = ImageEffects.PixelatedEffect ->
      Z.of_nat w <= ImageEffects.pixel_size level * Z.of_nat h) ->
     returns (ImageEffects.apply_leveled W k img level) (has_shape h w))
  /\ has_shape h w (ImageEffects.apply_black_and_white img)
  /\ has_shape h w (ImageEffects.apply_invert_colors img)
  /\ (forall (path : string) (lines : list Cube.str) (a : Cube.lut_array),
        uint8_frame img ->
        ImageEffects.read_lines W path = Some lines ->
        Cube.parse_cube_file (ImageEffects.python W) lines = Ok a ->
        2 <= Cube.array_size a ->
        returns (ImageEffects.apply_lut W img path) (has_shape h w)
        /\ returns (VideoFrames.lut_frame W path img) (has_shape h w))
  /\ has_shape w h (ImageEffects.apply_rotate W img "high")
  /\ (forall level : string,
        has_shape h w (VideoFrames.chromatic_aberration_frame level img)
        /\ returns (VideoFrames.film_grain_frame level img) (has_shape h w)
        /\ returns (VideoEffects.glitch_frame level img) (has_shape h w)
        /\ returns (VideoFrames.neon_glow_frame level img) (has_shape h w)
        /\ returns (VideoFrames.cartoon_frame W level img) (has_shape h w)
        /\ has_shape h w (VideoFrames.vignette_frame level img)
        /\ has_shape h w (VideoFrames.color_saturation_frame level img))
  /\ (forall (level : string) (freq t : Q),
        has_shape h w (VideoFrames.rolling_shutter_frame K level freq t img))
  /\ (forall (level : string) (duration t : Q),
        (0 < duration)%Q -> (0 <= t)%Q ->
        exists out,
          VideoFrames.ken_burns_frame K level (Z.of_nat w) (Z.of_nat h) duration t img
          = Ok out
          /\ has_shape h w out)
  /\ returns (VideoFrames.vhs_look_frame img) (has_shape h w).
Proof.
  intros H Hh Hw.
  split; [| split; [| split; [| split; [| split; [| split; [| split; [| split]]]]]]].
  - intros k level Hlev Hrot Hpix.
    destruct k; cbn in Hlev; try contradiction; cbn [ImageEffects.apply_leveled].
    + apply returns_ret. now apply shape_color_saturation.
    + now apply shape_contrast.
    + apply returns_ret. now apply shape_chromatic_aberration.
    + apply shape_pixelated; auto.
    + now apply shape_film_grain.
    + now apply shape_glitch.
    + now apply shape_neon_glow.
    + now apply shape_cartoon.
    + apply returns_ret. now apply shape_vignette.
  - now apply has_shape_map_pixels.
  - now apply has_shape_map_pixels.
  - intros path lines a Hu Hfile Hparse Hn.
    split; now apply shape_lut with (lines := lines) (a := a).
  - now apply shape_rotate_high.
  - intros level. unfold VideoFrames.chromatic_aberration_frame,
      VideoFrames.film_grain_frame, VideoFrames.neon_glow_frame,
      VideoFrames.cartoon_frame, VideoFrames.vignette_frame,
      VideoFrames.color_saturation_frame, VideoFrames.colorx, VideoEffects.glitch_frame.
    cbv zeta.
    split; [now apply shape_chromatic_aberration |].
    split; [now apply shape_film_grain |].
    split; [now apply shape_glitch_attempt |].
    split; [now apply shape_neon_glow |].
    split; [now apply shape_cartoon |].
    split; [now apply shape_vignette | now apply has_shape_map_pixels].
  - intros level freq t. now apply shape_rolling_shutter.
  - intros level duration t Hd Ht. unfold VideoFrames.ken_burns_frame. cbv zeta.
    destruct (Qeq_bool _ 1); [exists img; auto |].
    destruct (current_zoom_grows level duration t Hd Ht) as (z & -> & Hz).
    eexists. split; [reflexivity |]. now apply shape_zoom_crop.
  - now apply shape_vhs_look.
Qed.

Lemma tall_frame_shape : has_shape 20 3 tall_frame.
Proof. split; [reflexivity | repeat constructor]. Qed.

(** The theorem on two frames. On the ramp frame, one row of four
    pixels, the image engine's Glitch at level low returns a frame of
    that shape in every state, and Rotate at level high returns four rows
    of one pixel. On the frame of twenty rows of three pixels, the video
    engine's VHS look, its cartoon at level low and its Ken Burns at
    level high, half way through a clip of two seconds, return twenty
    rows of three pixels. *)
Lemma effects_keep_shape_except_rotate_witness :
  (returns (ImageEffects.apply_leveled plain_world ImageEffects.Glitch ramp_frame "low")
           (has_shape 1 4)
   /\ has_shape 4 1 (ImageEffects.apply_rotate plain_world ramp_frame "high"))
  /\ (returns (VideoFrames.vhs_look_frame tall_frame) (has_shape 20 3)
      /\ returns (VideoFrames.cartoon_frame plain_world "low" tall_frame)
                 (has_shape 20 3)
      /\ exists out,
           VideoFrames.ken_burns_frame crest_kernels "high" (Z.of_nat 3) (Z.of_nat 20)
                                       2 1 tall_frame = Ok out
           /\ has_shape 20 3 out).
Proof.
  split.
  - pose proof (effects_keep_shape_except_rotate plain_world crest_kernels ramp_frame
                  1 4 ramp_frame_shape ltac:(lia) ltac:(lia))
      as (Hlev & _ & _ & _ & Hrot & _).
    split; [| exact Hrot]. apply Hlev; discriminate.
  - pose proof (effects_keep_shape_except_rotate plain_world crest_kernels tall_frame
                  20 3 tall_frame_shape ltac:(lia) ltac:(lia))
      as (_ & _ & _ & _ & _ & Hlevel & _ & Hken & Hvhs).
    split; [exact Hvhs |]. split; [apply (Hlevel "low"%string) |].
    apply Hken; [reflexivity | discriminate].
Defined.
